(** * Rule-language strategy engine: parser callbacks, pandas code generator
      and single-position back-test

    Shallow embedding of
    - [ast_nodes.py]       (the AST classes),
    - [dsl_parser.py]      (the Lark grammar, [AstTransformer], [parse_dsl]),
    - [code_generator.py]  ([PandasCodeGenerator]),
    - [backtest.py]        ([run_backtest]),
    - [utils/indicators.py] ([sma], [rsi]),
    followed by the properties established about them.

    Conventions.  Python floats are read as exact rationals ([Q]); a missing
    value (pandas NaN) of a numeric column is [None].  Where a statement
    depends on how an addition is rounded, the simulation loop is embedded
    a second time on binary64 floats ([Backtest64]).  A Python call either
    returns or raises: [outcome].  Text written by [print] is an explicit
    list of [output] events. *)

From Stdlib Require Import QArith Lia Lqa Ascii String Floats.
From stdpp Require Import base strings pretty gmap list.

Local Open Scope string_scope.
Local Set Warnings "-register-all,-inexact-float".

(* ===================================================================== *)
(** ** Python outcomes *)
(* ===================================================================== *)

Module Py.

(** The exceptions the embedded code can raise. *)
Inductive exn : Type :=
| UnexpectedInput (at_token : nat)  (* lark: no production accepts the token
                                       (or the end of input) at this index *)
| ValueError                        (* tuple unpacking of the wrong length *)
| TypeError                         (* call with the wrong number of arguments *)
| AttributeError                    (* attribute missing on the object *)
| KeyError (key : string)           (* df['key'] on an unknown column *)
| NoVisitMethod                     (* generic_visit: Exception("No visit_...") *)
| ZeroDivisionError
| UnboundLocalError
| IndexError
| SyntaxError                       (* eval of text that is no expression *)
| Fuel.                             (* recursion budget of the embedding, shown
                                       below never to be exhausted *)

Inductive outcome (A : Type) : Type :=
| Ret (a : A)
| Raise (e : exn).
Arguments Ret {A} a.
Arguments Raise {A} e.

#[export] Instance outcome_ret : MRet outcome := fun A a => Ret a.
#[export] Instance outcome_bind : MBind outcome := fun A B f m =>
  match m with
  | Ret a => f a
  | Raise e => Raise e
  end.

Definition returns {A} (m : outcome A) : Prop := exists a, m = Ret a.
Definition raises {A} (m : outcome A) : Prop := exists e, m = Raise e.

(** [str.upper] and [str.lower] on the ASCII range (the only characters a
    CNAME token can hold). *)
Definition ascii_upper (c : ascii) : ascii :=
  let n := nat_of_ascii c in
  if (97 <=? n)%nat && (n <=? 122)%nat then ascii_of_nat (n - 32) else c.

Definition ascii_lower (c : ascii) : ascii :=
  let n := nat_of_ascii c in
  if (65 <=? n)%nat && (n <=? 90)%nat then ascii_of_nat (n + 32) else c.

Fixpoint upper (s : string) : string :=
  match s with
  | EmptyString => EmptyString
  | String c s' => String (ascii_upper c) (upper s')
  end.

Fixpoint lower (s : string) : string :=
  match s with
  | EmptyString => EmptyString
  | String c s' => String (ascii_lower c) (lower s')
  end.

(** [sep.join(parts)] *)
Definition join (sep : string) (parts : list string) : string :=
  String.concat sep parts.

(** [str(x)] for a float with a short decimal expansion and a magnitude
    in the range Python prints without an exponent: the integer part, a
    point and the decimals, at least one ([str(20.0) = "20.0"],
    [str(0.5) = "0.5"]).  The general statements below do not depend on it:
    they hold for any rendering of floats. *)
Fixpoint decimals (fuel : nat) (num den : Z) : string :=
  match fuel with
  | O => ""
  | S fuel =>
      let digit := (10 * num / den)%Z in
      let rest := ((10 * num) mod den)%Z in
      String (ascii_of_nat (48 + Z.to_nat digit))
             (if (rest =? 0)%Z then "" else decimals fuel rest den)
  end.

Definition str_float (x : Q) : string :=
  let n := Z.abs (Qnum x) in
  let d := Zpos (Qden x) in
  (if (Qnum x <? 0)%Z then "-" else "")
  ++ pretty (n / d)%Z ++ "." ++ decimals 17 (n mod d)%Z d.

End Py.
Import Py.

(* ===================================================================== *)
(** ** ast_nodes.py *)
(* ===================================================================== *)

(** One Python class per constructor; every class derives from [Node], so a
    field that holds "a node" can hold an instance of any of them. *)
Inductive node : Type :=
| Strategy (rules : list node)
| EntryRule (condition : node)
| ExitRule (condition : node)
| LogicalOperation (operator : string) (operands : list node)
| Comparison (operator : string) (left right : node)
| Cross (left right : node)
| CrossOver (left right : node)
| CrossUnder (left right : node)
| Indicator (name : string) (params : list node)
| Identifier (name : string)
| Number (value : Q).

(** Values handed to a constructor call. *)
Inductive pyval : Type :=
| PStr (s : string)
| PNode (n : node)
| PList (ns : list node).

Module Ast.

(** [LogicalOperation.__init__(self, operator, operands)]: a call with a
    number of positional arguments other than two is a [TypeError].  The
    two call sites pass [(op, [left, right])] and [(op, left, right)]; the
    fields are typed here, so an operator that is no string or operands
    that are no list (passed by neither call site) are refused as well. *)
Definition LogicalOperation_init (args : list pyval) : outcome node :=
  match args with
  | [operator; operands] =>
      match operator, operands with
      | PStr op, PList ns => Ret (LogicalOperation op ns)
      | _, _ => Raise TypeError
      end
  | _ => Raise TypeError
  end.

(** [Indicator.__init__]: [self.name = name.upper()]. *)
Definition Indicator_init (name : string) (params : list node) : node :=
  Indicator (upper name) params.

(** [Number.__init__]: [self.value = float(value)]. *)
Definition Number_init (value : Q) : node := Number value.

End Ast.

(* ===================================================================== *)
(** ** dsl_parser.py *)
(* ===================================================================== *)

(** Terminals of [dsl_grammar].  Whitespace is ignored by the lexer.  The
    keyword terminals written as string literals in the rules are anonymous:
    Lark drops them from the children of a rule.  [OR], [AND], [COMP_OP],
    [CNAME] and [NUMBER] are named and kept; each carries the matched text
    (for [NUMBER], the float the text denotes). *)
Inductive token : Type :=
| ENTRY | EXIT
| LPAR | RPAR | COMMA
| CROSS | CROSSOVER | CROSSUNDER
| OR (text : string)
| AND (text : string)
| COMP_OP (text : string)
| CNAME (text : string)
| NUMBER (value : Q).

(** What [print] writes. *)
Inductive output : Type :=
| ErrorParsingDSL (e : exn).   (* print(f"Error parsing DSL: {e}") *)

Module AstTransformer.

Definition strategy (items : list node) : node := Strategy items.
Definition entry_rule (item0 : node) : node := EntryRule item0.
Definition exit_rule (item0 : node) : node := ExitRule item0.

(** Lark calls a rule's method with the flat list of its children.  For
    [x (OP x)*] that list is [first; op1; x1; op2; x2; ...]: it is given here
    as [first] and the list of [(op_i, x_i)] pairs, so [len(items)] is
    [1 + 2 * length rest]. *)

(** [or_expr]: one child is passed through; otherwise the children are
    unpacked into exactly three names and [LogicalOperation] is called with
    three arguments. *)
Definition or_expr (first : node) (rest : list (string * node)) : outcome node :=
  match rest with
  | [] => Ret first
  | [(op, right_)] =>
      Ast.LogicalOperation_init [PStr op; PNode first; PNode right_]
  | _ => Raise ValueError
  end.

(** [and_expr]: one child is passed through; otherwise the children are
    unpacked into exactly three names.  When [left] is already a
    [LogicalOperation] with the same operator text, [right] is appended to
    its operand list and [left] itself is returned (no other reference to
    [left] exists at that point, so the update is rendered by the node with
    the longer list); otherwise a new two-operand node is built.  [first]
    is the source's [left], [right_] its [right]. *)
Definition and_expr (first : node) (rest : list (string * node)) : outcome node :=
  match rest with
  | [] => Ret first
  | [(op, right_)] =>
      match first with
      | LogicalOperation operator operands =>
          if String.eqb operator op
          then Ret (LogicalOperation operator (operands ++ [right_]))
          else Ast.LogicalOperation_init [PStr op; PList [first; right_]]
      | _ => Ast.LogicalOperation_init [PStr op; PList [first; right_]]
      end
  | _ => Raise ValueError
  end.

Definition simple_comp (l : node) (op : string) (r : node) : node :=
  Comparison op l r.
Definition cross_expr (l r : node) : node := Cross l r.
Definition crossover_expr (l r : node) : node := CrossOver l r.
Definition crossunder_expr (l r : node) : node := CrossUnder l r.
Definition indicator (name : string) (params : list node) : node :=
  Ast.Indicator_init name params.
Definition identifier (name : string) : node := Identifier name.
Definition number (value : Q) : node := Ast.Number_init value.

(** Terminal callbacks: the token is replaced by its text. *)
Definition AND_value (text : string) : string := text.
Definition OR_value (text : string) : string := text.

End AstTransformer.

(** The LALR parser that Lark derives from [dsl_grammar], read as a
    recursive descent over the token stream.  Each function follows one
    rule of the grammar and calls the rule's [AstTransformer] method with
    the children Lark passes (anonymous tokens dropped, [?]-rules with one
    child replaced by that child), bottom-up, as the embedded transformer
    does.  [pos] is the index of the next token; [fuel] bounds the depth of
    the descent. *)
Module Parser.

Definition parsed (A : Type) : Type := outcome (A * nat * list token).

Definition unexpected {A} (pos : nat) : outcome A :=
  Raise (UnexpectedInput pos).

(** [?atom: indicator | CNAME -> identifier | NUMBER -> number]
    [indicator: CNAME "(" [atom ("," atom)*] ")"]; an empty pair of
    parentheses gives the indicator no parameter. *)
Fixpoint atom (fuel pos : nat) (ts : list token) {struct fuel} : parsed node :=
  match fuel with
  | O => Raise Fuel
  | S fuel =>
      match ts with
      | CNAME name :: LPAR :: RPAR :: rest =>
          Ret (AstTransformer.indicator name [], pos + 3, rest)
      | CNAME name :: LPAR :: rest =>
          '(p, pos1, rest1) ← atom fuel (pos + 2) rest;
          '(ps, pos2, rest2) ← atom_tail fuel pos1 rest1;
          Ret (AstTransformer.indicator name (p :: ps), pos2, rest2)
      | CNAME name :: rest =>
          Ret (AstTransformer.identifier name, pos + 1, rest)
      | NUMBER value :: rest =>
          Ret (AstTransformer.number value, pos + 1, rest)
      | _ => unexpected pos
      end
  end
with atom_tail (fuel pos : nat) (ts : list token) {struct fuel}
  : parsed (list node) :=
  match fuel with
  | O => Raise Fuel
  | S fuel =>
      match ts with
      | COMMA :: rest =>
          '(p, pos1, rest1) ← atom fuel (pos + 1) rest;
          '(ps, pos2, rest2) ← atom_tail fuel pos1 rest1;
          Ret (p :: ps, pos2, rest2)
      | RPAR :: rest => Ret ([], pos + 1, rest)
      | _ => unexpected pos
      end
  end.

(** ["(" atom "," atom ")"], the tail shared by the three cross rules. *)
Definition cross_args (fuel pos : nat) (ts : list token) : parsed (node * node) :=
  match ts with
  | LPAR :: rest =>
      '(a, pos1, rest1) ← atom fuel (pos + 1) rest;
      match rest1 with
      | COMMA :: rest2 =>
          '(b, pos2, rest3) ← atom fuel (pos1 + 1) rest2;
          match rest3 with
          | RPAR :: rest4 => Ret ((a, b), pos2 + 1, rest4)
          | _ => unexpected pos2
          end
      | _ => unexpected pos1
      end
  | _ => unexpected pos
  end.

(** [simple_comp: atom COMP_OP atom] *)
Definition simple_comp (fuel pos : nat) (ts : list token) : parsed node :=
  '(a, pos1, rest1) ← atom fuel pos ts;
  match rest1 with
  | COMP_OP op :: rest2 =>
      '(b, pos2, rest3) ← atom fuel (pos1 + 1) rest2;
      Ret (AstTransformer.simple_comp a op b, pos2, rest3)
  | _ => unexpected pos1
  end.

(** [?comparison], [and_expr: comparison (AND comparison)*] and
    [or_expr: and_expr (OR and_expr)*]. *)
Fixpoint comparison (fuel pos : nat) (ts : list token) {struct fuel}
  : parsed node :=
  match fuel with
  | O => Raise Fuel
  | S fuel =>
      match ts with
      | CROSSOVER :: rest =>
          '(ab, pos1, rest1) ← cross_args fuel (pos + 1) rest;
          Ret (AstTransformer.crossover_expr ab.1 ab.2, pos1, rest1)
      | CROSSUNDER :: rest =>
          '(ab, pos1, rest1) ← cross_args fuel (pos + 1) rest;
          Ret (AstTransformer.crossunder_expr ab.1 ab.2, pos1, rest1)
      | CROSS :: rest =>
          '(ab, pos1, rest1) ← cross_args fuel (pos + 1) rest;
          Ret (AstTransformer.cross_expr ab.1 ab.2, pos1, rest1)
      | LPAR :: rest =>
          '(e, pos1, rest1) ← or_expr fuel (pos + 1) rest;
          match rest1 with
          | RPAR :: rest2 => Ret (e, pos1 + 1, rest2)
          | _ => unexpected pos1
          end
      | _ => simple_comp fuel pos ts
      end
  end
with and_expr (fuel pos : nat) (ts : list token) {struct fuel} : parsed node :=
  match fuel with
  | O => Raise Fuel
  | S fuel =>
      '(first, pos1, rest1) ← comparison fuel pos ts;
      '(more, pos2, rest2) ← and_tail fuel pos1 rest1;
      r ← AstTransformer.and_expr first more;
      Ret (r, pos2, rest2)
  end
with and_tail (fuel pos : nat) (ts : list token) {struct fuel}
  : parsed (list (string * node)) :=
  match fuel with
  | O => Raise Fuel
  | S fuel =>
      match ts with
      | AND text :: rest =>
          '(c, pos1, rest1) ← comparison fuel (pos + 1) rest;
          '(more, pos2, rest2) ← and_tail fuel pos1 rest1;
          Ret ((AstTransformer.AND_value text, c) :: more, pos2, rest2)
      | _ => Ret ([], pos, ts)
      end
  end
with or_expr (fuel pos : nat) (ts : list token) {struct fuel} : parsed node :=
  match fuel with
  | O => Raise Fuel
  | S fuel =>
      '(first, pos1, rest1) ← and_expr fuel pos ts;
      '(more, pos2, rest2) ← or_tail fuel pos1 rest1;
      r ← AstTransformer.or_expr first more;
      Ret (r, pos2, rest2)
  end
with or_tail (fuel pos : nat) (ts : list token) {struct fuel}
  : parsed (list (string * node)) :=
  match fuel with
  | O => Raise Fuel
  | S fuel =>
      match ts with
      | OR text :: rest =>
          '(c, pos1, rest1) ← and_expr fuel (pos + 1) rest;
          '(more, pos2, rest2) ← or_tail fuel pos1 rest1;
          Ret ((AstTransformer.OR_value text, c) :: more, pos2, rest2)
      | _ => Ret ([], pos, ts)
      end
  end.

(** [rule: "ENTRY:"i expression -> entry_rule | "EXIT:"i expression -> exit_rule]
    with [?expression: or_expr]. *)
Definition rule (fuel pos : nat) (ts : list token) : parsed node :=
  match ts with
  | ENTRY :: rest =>
      '(e, pos1, rest1) ← or_expr fuel (pos + 1) rest;
      Ret (AstTransformer.entry_rule e, pos1, rest1)
  | EXIT :: rest =>
      '(e, pos1, rest1) ← or_expr fuel (pos + 1) rest;
      Ret (AstTransformer.exit_rule e, pos1, rest1)
  | _ => unexpected pos
  end.

(** [strategy: rule+], up to the end of the input. *)
Fixpoint rules (fuel pos : nat) (ts : list token) {struct fuel}
  : outcome (list node) :=
  match fuel with
  | O => Raise Fuel
  | S fuel =>
      '(r, pos1, rest1) ← rule fuel pos ts;
      match rest1 with
      | [] => Ret [r]
      | _ => rs ← rules fuel pos1 rest1; Ret (r :: rs)
      end
  end.

Definition fuel_for (ts : list token) : nat := 8 * length ts + 8.

(** [dsl_parser.parse(dsl_string)], start symbol [?start: strategy]. *)
Definition parse (ts : list token) : outcome node :=
  rs ← rules (fuel_for ts) 0 ts;
  Ret (AstTransformer.strategy rs).

End Parser.

(** [parse_dsl]: the value returned (the AST, or Python's [None]) and what
    was printed. *)
Definition parse_dsl (dsl : list token) : option node * list output :=
  match Parser.parse dsl with
  | Ret tree => (Some tree, [])
  | Raise e => (None, [ErrorParsingDSL e])
  end.

(** Token streams of the rule texts used below. *)
Module Texts.

Definition cmp (name op : string) (v : Z) : list token :=
  [CNAME name; COMP_OP op; NUMBER (inject_Z v)].

(** ["ENTRY: a > 1 AND b > 2 AND c > 3"] *)
Definition and_chain3 : list token :=
  ENTRY :: cmp "a" ">" 1 ++ [AND "AND"] ++ cmp "b" ">" 2
        ++ [AND "AND"] ++ cmp "c" ">" 3.

(** ["ENTRY: a > 1 OR b > 2 OR c > 3"] *)
Definition or_chain3 : list token :=
  ENTRY :: cmp "a" ">" 1 ++ [OR "OR"] ++ cmp "b" ">" 2
        ++ [OR "OR"] ++ cmp "c" ">" 3.

(** ["ENTRY: a > 1 AND b > 2 OR c > 3"] *)
Definition and_or : list token :=
  ENTRY :: cmp "a" ">" 1 ++ [AND "AND"] ++ cmp "b" ">" 2
        ++ [OR "OR"] ++ cmp "c" ">" 3.

(** ["ENTRY: close >"] *)
Definition truncated : list token := [ENTRY; CNAME "close"; COMP_OP ">"].

(** The family of rule texts [ENTRY: c0 (AND c)* (OR c)*] over simple
    comparisons [name op value]: the tokens of a comparison, of the links
    that follow the first one (each with the text of its operator), and the
    children the links hand to [and_expr] and [or_expr]. *)
Record simple : Type := Simple {
  s_name : string;
  s_op : string;
  s_value : Q
}.

Definition simple_tokens (c : simple) : list token :=
  [CNAME (s_name c); COMP_OP (s_op c); NUMBER (s_value c)].

Definition simple_node (c : simple) : node :=
  Comparison (s_op c) (Identifier (s_name c)) (Number (s_value c)).

Definition and_links (more : list (string * simple)) : list token :=
  more ≫= (fun p => AND p.1 :: simple_tokens p.2).

Definition or_links (more : list (string * simple)) : list token :=
  more ≫= (fun p => OR p.1 :: simple_tokens p.2).

Definition link_nodes (more : list (string * simple)) : list (string * node) :=
  (fun p => (p.1, simple_node p.2)) <$> more.

Definition entry_text (c0 : simple) (ands ors : list (string * simple))
  : list token :=
  ENTRY :: simple_tokens c0 ++ and_links ands ++ or_links ors.

(** ["ENTRY: CROSSOVER(SMA(close, 10), SMA(close, 30))
      EXIT: CROSSUNDER(SMA(close, 30), SMA(close, 10))"], the text
    [demo.py] feeds to the parser. *)
Definition sma_call (period : Z) : list token :=
  [CNAME "SMA"; LPAR; CNAME "close"; COMMA; NUMBER (inject_Z period); RPAR].
Definition demo : list token :=
  [ENTRY; CROSSOVER; LPAR] ++ sma_call 10 ++ [COMMA] ++ sma_call 30 ++ [RPAR]
  ++ [EXIT; CROSSUNDER; LPAR] ++ sma_call 30 ++ [COMMA] ++ sma_call 10 ++ [RPAR].

End Texts.

(** Rule texts the grammar derives without [AND] and [OR], as the objects
    they are made of: atoms ([?atom]: a name, a number, an indicator call
    with at least one parameter), conditions ([simple_comp], the three
    cross rules, a condition in parentheses) and rules. *)
Inductive atom_text : Type :=
| TName (name : string)
| TNumber (value : Q)
| TCall (name : string) (first : atom_text) (more : list atom_text).

Inductive condition_text : Type :=
| TCompare (l : atom_text) (op : string) (r : atom_text)
| TCross (l r : atom_text)
| TCrossOver (l r : atom_text)
| TCrossUnder (l r : atom_text)
| TParens (c : condition_text).

Inductive rule_text : Type :=
| TEntry (c : condition_text)
| TExit (c : condition_text).

(** The token stream of a text. *)
Definition tail_tokens {A} (tokens : A -> list token)
  : list A -> list token :=
  fix go (more : list A) : list token :=
    match more with
    | [] => [RPAR]
    | a :: more' => (COMMA :: tokens a ++ go more')%list
    end.

Fixpoint atom_tokens (a : atom_text) : list token :=
  match a with
  | TName name => [CNAME name]
  | TNumber value => [NUMBER value]
  | TCall name first more =>
      (CNAME name :: LPAR :: atom_tokens first
         ++ tail_tokens atom_tokens more)%list
  end.

Definition pair_tokens (l r : atom_text) : list token :=
  (LPAR :: atom_tokens l ++ COMMA :: atom_tokens r ++ [RPAR])%list.

Fixpoint condition_tokens (c : condition_text) : list token :=
  match c with
  | TCompare l op r => (atom_tokens l ++ COMP_OP op :: atom_tokens r)%list
  | TCross l r => CROSS :: pair_tokens l r
  | TCrossOver l r => CROSSOVER :: pair_tokens l r
  | TCrossUnder l r => CROSSUNDER :: pair_tokens l r
  | TParens c' => (LPAR :: condition_tokens c' ++ [RPAR])%list
  end.

Definition rule_tokens (r : rule_text) : list token :=
  match r with
  | TEntry c => ENTRY :: condition_tokens c
  | TExit c => EXIT :: condition_tokens c
  end.

Definition strategy_tokens (rs : list rule_text) : list token :=
  rs ≫= rule_tokens.

(** The node a text stands for: the name of an indicator in upper case
    ([Indicator.__init__]), parentheses dropped. *)
Fixpoint atom_node (a : atom_text) : node :=
  match a with
  | TName name => Identifier name
  | TNumber value => Number value
  | TCall name first more =>
      Indicator (upper name) (atom_node first :: map atom_node more)
  end.

Fixpoint condition_node (c : condition_text) : node :=
  match c with
  | TCompare l op r => Comparison op (atom_node l) (atom_node r)
  | TCross l r => Cross (atom_node l) (atom_node r)
  | TCrossOver l r => CrossOver (atom_node l) (atom_node r)
  | TCrossUnder l r => CrossUnder (atom_node l) (atom_node r)
  | TParens c' => condition_node c'
  end.

Definition rule_node (r : rule_text) : node :=
  match r with
  | TEntry c => EntryRule (condition_node c)
  | TExit c => ExitRule (condition_node c)
  end.

(* ===================================================================== *)
(** ** code_generator.py *)
(* ===================================================================== *)

(** The generated text, kept as the term it denotes.  Each constructor is
    one of the shapes the generator's f-strings produce. *)
Inductive bitop : Type := BitAnd | BitOr.

Inductive pexpr : Type :=
| PFalse                                  (* False *)
| PCol (column : string)                  (* df['column'] *)
| PLit (value : Q)                        (* str(node.value) *)
| PCmp (op : string) (l r : pexpr)        (* (l op r) *)
| PShift (e : pexpr)                      (* (e).shift(1) *)
| PAmp (l r : pexpr)                      (* l & r *)
| PJoin (op : bitop) (codes : list pexpr). (* (c1 op c2 op ...) *)

(** One line of the indicator code:
    [df['column'] = indicators.func(arg1, arg2, ...)]. *)
Record stmt : Type := Assign {
  target : string;
  func : string;
  args : list pexpr
}.

(** What [generate] returns: the dictionary with keys ["indicators"]
    (the lines joined by newlines), ["entry"] and ["exit"]. *)
Record generated : Type := Generated {
  indicators : list stmt;
  entry : pexpr;
  exit : pexpr
}.

Module PandasCodeGenerator.

(** The two fields of the generator object. *)
Record self : Type := Self {
  generated_indicators : gset string;
  indicator_code : list stmt
}.

(** [__init__], and the reset at the start of [generate]. *)
Definition fresh : self := Self ∅ [].

Section Visitor.

(** Python's [str] on a float (the text of a number inside a column name). *)
Variable str_float : Q -> string.

(** [str(p.name if isinstance(p, ast.Identifier) else p.value)]: only
    [Number] has a [value] attribute. *)
Definition param_str (p : node) : outcome string :=
  match p with
  | Identifier name => Ret name
  | Number value => Ret (str_float value)
  | _ => Raise AttributeError
  end.

Fixpoint params_strs (ps : list node) : outcome (list string) :=
  match ps with
  | [] => Ret []
  | p :: ps' => s ← param_str p; ss ← params_strs ps'; Ret (s :: ss)
  end.

(** [indicator_col_name = f"{node.name.lower()}_{params_str}"] *)
Definition indicator_col_name (name : string) (ps : list node) : outcome string :=
  ss ← params_strs ps;
  Ret (lower name ++ "_" ++ join "_" ss).

(** [[self.visit(x) for x in xs]], left to right. *)
Definition visit_each (visit : node -> self -> outcome (pexpr * self))
  : list node -> self -> outcome (list pexpr * self) :=
  fix go (xs : list node) (g : self) : outcome (list pexpr * self) :=
    match xs with
    | [] => Ret ([], g)
    | x :: xs' =>
        '(c, g1) ← visit x g;
        '(cs, g2) ← go xs' g1;
        Ret (c :: cs, g2)
    end.

(** The code of the three cross forms. *)
Definition cross_above (l r : pexpr) : pexpr :=
  PAmp (PCmp ">" l r) (PCmp "<=" (PShift l) (PShift r)).
Definition cross_below (l r : pexpr) : pexpr :=
  PAmp (PCmp "<" l r) (PCmp ">=" (PShift l) (PShift r)).

(** [visit]: dispatch on the class of the node to [visit_<Class>];
    a class without such a method goes to [generic_visit]. *)
Fixpoint visit (n : node) (g : self) {struct n} : outcome (pexpr * self) :=
  match n with
  | LogicalOperation operator operands =>
      let op := if String.eqb operator "AND" then BitAnd else BitOr in
      '(operand_codes, g1) ← visit_each visit operands g;
      Ret (PJoin op operand_codes, g1)
  | Comparison operator l r =>
      '(left_code, g1) ← visit l g;
      '(right_code, g2) ← visit r g1;
      Ret (PCmp operator left_code right_code, g2)
  | Cross l r =>
      '(left_code, g1) ← visit l g;
      '(right_code, g2) ← visit r g1;
      Ret (cross_above left_code right_code, g2)
  | CrossOver l r =>
      '(left_code, g1) ← visit l g;
      '(right_code, g2) ← visit r g1;
      Ret (cross_above left_code right_code, g2)
  | CrossUnder l r =>
      '(left_code, g1) ← visit l g;
      '(right_code, g2) ← visit r g1;
      Ret (cross_below left_code right_code, g2)
  | Indicator name ps =>
      col ← indicator_col_name name ps;
      if bool_decide (col ∈ generated_indicators g)
      then Ret (PCol col, g)
      else
        '(param_code, g1) ← visit_each visit ps g;
        Ret (PCol col,
             Self ({[col]} ∪ generated_indicators g1)
                  (indicator_code g1 ++ [Assign col (lower name) param_code]))
  | Identifier name => Ret (PCol name, g)
  | Number value => Ret (PLit value, g)
  | Strategy _ | EntryRule _ | ExitRule _ => Raise NoVisitMethod
  end.

(** The loop of [generate] over [strategy_node.rules]. *)
Fixpoint generate_rules (rules : list node) (entry_code exit_code : pexpr)
  (g : self) : outcome (pexpr * pexpr * self) :=
  match rules with
  | [] => Ret (entry_code, exit_code, g)
  | EntryRule condition :: rules' =>
      '(code, g1) ← visit condition g;
      generate_rules rules' code exit_code g1
  | ExitRule condition :: rules' =>
      '(code, g1) ← visit condition g;
      generate_rules rules' entry_code code g1
  | _ :: rules' => generate_rules rules' entry_code exit_code g
  end.

(** [generate(strategy_node)]; a node without a [rules] attribute raises. *)
Definition generate (strategy_node : node) : outcome generated :=
  match strategy_node with
  | Strategy rules =>
      '(entry_code, exit_code, g) ← generate_rules rules PFalse PFalse fresh;
      Ret (Generated (indicator_code g) entry_code exit_code)
  | _ => Raise AttributeError
  end.

End Visitor.

End PandasCodeGenerator.

(* ===================================================================== *)
(** ** Evaluating the generated code ([eval] in backtest.py) *)
(* ===================================================================== *)

(** The part of pandas the generated expressions use.  All columns of one
    frame share the frame's index, so element-wise operations pair the
    entries position by position. *)
Module Pandas.

Inductive value : Type :=
| VFloat (x : Q)                     (* a Python float *)
| VBool (b : bool)                   (* a Python bool *)
| VSeries (xs : list (option Q))     (* a float Series; None is NaN *)
| VMask (bs : list bool).            (* a bool Series *)

(** The numeric columns of the data frame. *)
Abbreviation frame := (gmap string (list (option Q))).

Definition Qlt_bool (x y : Q) : bool := negb (Qle_bool y x).

(** The operators of [COMP_OP]; any other text is not an operator. *)
Definition comparator (op : string) : option (Q -> Q -> bool) :=
  if String.eqb op ">" then Some (fun x y => Qlt_bool y x)
  else if String.eqb op "<" then Some Qlt_bool
  else if String.eqb op ">=" then Some (fun x y => Qle_bool y x)
  else if String.eqb op "<=" then Some Qle_bool
  else if String.eqb op "==" then Some Qeq_bool
  else None.

(** A comparison with NaN on either side is false. *)
Definition cmp_cell (f : Q -> Q -> bool) (a b : option Q) : bool :=
  match a, b with
  | Some x, Some y => f x y
  | _, _ => false
  end.

Definition bool_to_Q (b : bool) : Q := if b then 1 else 0.

(** Operands of a comparison: booleans count as 0 and 1. *)
Inductive numeric : Type :=
| NScalar (x : Q)
| NSeries (xs : list (option Q)).

Definition to_numeric (v : value) : numeric :=
  match v with
  | VFloat x => NScalar x
  | VBool b => NScalar (bool_to_Q b)
  | VSeries xs => NSeries xs
  | VMask bs => NSeries (map (fun b => Some (bool_to_Q b)) bs)
  end.

Definition compare (f : Q -> Q -> bool) (a b : value) : value :=
  match to_numeric a, to_numeric b with
  | NScalar x, NScalar y => VBool (f x y)
  | NScalar x, NSeries ys => VMask (map (fun y => cmp_cell f (Some x) y) ys)
  | NSeries xs, NScalar y => VMask (map (fun x => cmp_cell f x (Some y)) xs)
  | NSeries xs, NSeries ys => VMask (zip_with (cmp_cell f) xs ys)
  end.

(** [s.shift(1)]: every entry moves one row down, the first becomes NaN. *)
Definition shift1 (xs : list (option Q)) : list (option Q) :=
  take (length xs) (None :: xs).

Definition shift (v : value) : outcome value :=
  match to_numeric v with
  | NSeries xs => Ret (VSeries (shift1 xs))
  | NScalar _ => Raise AttributeError     (* a float has no .shift *)
  end.

(** [a & b] and [a | b]: defined on booleans, a [TypeError] on floats. *)
Definition bit (f : bool -> bool -> bool) (a b : value) : outcome value :=
  match a, b with
  | VBool x, VBool y => Ret (VBool (f x y))
  | VBool x, VMask ys => Ret (VMask (map (f x) ys))
  | VMask xs, VBool y => Ret (VMask (map (fun x => f x y) xs))
  | VMask xs, VMask ys => Ret (VMask (zip_with f xs ys))
  | _, _ => Raise TypeError
  end.

Definition bitop_fun (op : bitop) : bool -> bool -> bool :=
  match op with
  | BitAnd => andb
  | BitOr => orb
  end.

(** [eval(code, {'df': df})] *)
Fixpoint eval (df : frame) (e : pexpr) {struct e} : outcome value :=
  match e with
  | PFalse => Ret (VBool false)
  | PCol column =>
      match df !! column with
      | Some xs => Ret (VSeries xs)
      | None => Raise (KeyError column)
      end
  | PLit x => Ret (VFloat x)
  | PCmp op l r =>
      match comparator op with
      | None => Raise SyntaxError
      | Some f => a ← eval df l; b ← eval df r; Ret (compare f a b)
      end
  | PShift e' => a ← eval df e'; shift a
  | PAmp l r => a ← eval df l; b ← eval df r; bit andb a b
  | PJoin op codes =>
      match codes with
      | [] => Raise TypeError   (* "()": the empty tuple is no operand *)
      | c :: cs =>
          a ← eval df c;
          (fix go (cs : list pexpr) (acc : value) : outcome value :=
             match cs with
             | [] => Ret acc
             | c' :: cs' =>
                 b ← eval df c'; acc' ← bit (bitop_fun op) acc b; go cs' acc'
             end) cs a
      end
  end.

End Pandas.

(* ===================================================================== *)
(** ** utils/indicators.py *)
(* ===================================================================== *)

(** The Series methods [indicators.py] calls, on a float Series given as
    the list of its values ([None] is NaN), and float arithmetic with its
    infinities. *)
Module Series.

Local Open Scope Q_scope.

Definition total (ws : list Q) : Q := foldr Qplus 0 ws.

Definition mean (ws : list Q) : Q :=
  total ws / inject_Z (Z.of_nat (length ws)).

(** The window of [size] values that ends at row [i]. *)
Definition window (size i : nat) (xs : list (option Q)) : list (option Q) :=
  take size (drop (S i - size) xs).

(** [s.rolling(window=size, min_periods=size).mean()]: the mean of the
    last [size] values; NaN until there are [size] of them, and whenever
    one of them is NaN. *)
Definition rolling_mean (size : nat) (xs : list (option Q)) : list (option Q) :=
  imap (fun i _ =>
          if (size <=? S i)%nat
          then ws ← mapM id (window size i xs); Some (mean ws)
          else None) xs.

(** [s.diff()]: the difference with the previous row, NaN on the first. *)
Definition diff (xs : list (option Q)) : list (option Q) :=
  zip_with (fun a b => x ← a; y ← b; Some (x - y)) xs (Pandas.shift1 xs).

(** [s.where(cond, 0)] for a condition that compares [s] with a number:
    the value where the comparison holds, 0 elsewhere.  A comparison with
    NaN is false, so no NaN is left. *)
Definition where_or_zero (cond : Q -> bool) (xs : list (option Q)) : list Q :=
  map (fun o => match o with
                | Some x => if cond x then x else 0
                | None => 0
                end) xs.

(** [s.ewm(com=com, min_periods=min_periods).mean()] on a Series without
    NaN (pandas' default [adjust=True]): the average of the values so far
    with weights [(1 - alpha)^k], [alpha = 1 / (1 + com)], the latest value
    first; NaN until [min_periods] values have been seen.  [num] and [den]
    are the weighted sum and the sum of the weights so far. *)
Fixpoint ewm_from (decay : Q) (min_periods : nat) (xs : list Q)
    (seen : nat) (num den : Q) : list (option Q) :=
  match xs with
  | [] => []
  | x :: xs' =>
      let num' := x + decay * num in
      let den' := 1 + decay * den in
      (if (min_periods <=? S seen)%nat then Some (num' / den') else None)
        :: ewm_from decay min_periods xs' (S seen) num' den'
  end.

Definition ewm_mean (com : Q) (min_periods : nat) (xs : list Q)
  : list (option Q) :=
  ewm_from (1 - 1 / (1 + com)) min_periods xs 0 0 0.

(** A float: NaN, an infinity or a finite value.  The sign of a zero is
    not followed, and so neither is the sign of the infinity that a
    division by it gives. *)
Inductive float : Type :=
| NaN
| Inf
| Finite (x : Q).

(** [x / y] on two finite floats as numpy divides them: an infinity when
    [y] is 0 and [x] is not, NaN for [0 / 0]. *)
Definition quotient (x y : Q) : float :=
  if Qeq_bool y 0 then (if Qeq_bool x 0 then NaN else Inf)
  else Finite (x / y).

(** [a / b], element by element, on two Series whose values are finite
    or NaN. *)
Definition div (a b : option Q) : float :=
  match a, b with
  | Some x, Some y => quotient x y
  | _, _ => NaN
  end.

(** [x + a], [x / a] and [x - a] for a Python number [x] on the left of a
    Series: a number over an infinity is a zero. *)
Definition radd (x : Q) (a : float) : float :=
  match a with
  | NaN => NaN
  | Inf => Inf
  | Finite y => Finite (x + y)
  end.

Definition rtruediv (x : Q) (a : float) : float :=
  match a with
  | NaN => NaN
  | Inf => Finite 0
  | Finite y => quotient x y
  end.

Definition rsub (x : Q) (a : float) : float :=
  match a with
  | NaN => NaN
  | Inf => Inf
  | Finite y => Finite (x - y)
  end.

End Series.

Module Indicators.

Local Open Scope Q_scope.

(** [int(period)] on a float: the fraction is dropped. *)
Definition int (x : Q) : Z := Z.quot (Qnum x) (Zpos (Qden x)).

(** [sma(series, period)].  [series] is a Series by its type, and
    [int(period)] an [int]: of the two checks, the sign of the period is
    the one that can fail. *)
Definition sma (series : list (option Q)) (period : Q)
  : outcome (list (option Q)) :=
  let period := int period in
  if (period <=? 0)%Z then Raise ValueError
  else Ret (Series.rolling_mean (Z.to_nat period) series).

(** [rsi(series, period)]. *)
Definition rsi (series : list (option Q)) (period : Q)
  : outcome (list Series.float) :=
  let period := int period in
  if (period <=? 0)%Z then Raise ValueError
  else
    let delta := Series.diff series in
    let gain := Series.where_or_zero (fun d => Pandas.Qlt_bool 0 d) delta in
    let loss :=
      Qopp <$> Series.where_or_zero (fun d => Pandas.Qlt_bool d 0) delta in
    let com := inject_Z period - 1 in
    let avg_gain := Series.ewm_mean com (Z.to_nat period) gain in
    let avg_loss := Series.ewm_mean com (Z.to_nat period) loss in
    let rs := zip_with Series.div avg_gain avg_loss in
    Ret ((fun r => Series.rsub 100 (Series.rtruediv 100 (Series.radd 1 r)))
           <$> rs).

(** [rsi(series)]: [period] defaults to 14. *)
Definition rsi_default (series : list (option Q))
  : outcome (list Series.float) :=
  rsi series 14.

End Indicators.

(* ===================================================================== *)
(** ** backtest.py: the simulation loop of [run_backtest] *)
(* ===================================================================== *)

Module Trade.
(** One element of [trades]: the dictionary appended on a sale. *)
Record t : Type := Make {
  entry_date : string;
  exit_date : string;
  entry_price : Q;
  exit_price : Q;
  profit : Q
}.
End Trade.

Module Backtest.

Local Open Scope Q_scope.

(** One row of [df] as the loop reads it: [row['Date']], [row['close']],
    [row['entry_signal']] and [row['exit_signal']]. *)
Record row : Type := Row {
  Date : string;
  close : Q;
  entry_signal : bool;
  exit_signal : bool
}.

(** The local variables of the simulation.  [entry_date] is unbound until
    the first purchase. *)
Record state : Type := State {
  holding : bool;
  equity : Q;
  entry_price : Q;
  entry_date : option string;
  trades : list Trade.t;
  equity_curve : list Q;
  peak_equity : Q;
  max_drawdown : Q
}.

Definition init (initial_capital : Q) : state :=
  {| holding := false;
     equity := initial_capital;
     entry_price := 0;
     entry_date := None;
     trades := [];
     equity_curve := [];
     peak_equity := initial_capital;
     max_drawdown := 0 |}.

(** Selling at [price] on [date]: [profit = price - entry_price],
    [equity += profit], the trade is appended.  Reading [entry_date] before
    any purchase is an [UnboundLocalError]. *)
Definition sell (date : string) (price : Q) (s : state) : outcome state :=
  match entry_date s with
  | None => Raise UnboundLocalError
  | Some bought =>
      let profit := price - entry_price s in
      Ret {| holding := holding s;
             equity := equity s + profit;
             entry_price := entry_price s;
             entry_date := entry_date s;
             trades := trades s ++
               [Trade.Make bought date (entry_price s) price profit];
             equity_curve := equity_curve s;
             peak_equity := peak_equity s;
             max_drawdown := max_drawdown s |}
  end.

(** [if row['exit_signal'] and holding: ...] *)
Definition exit_branch (r : row) (s : state) : outcome state :=
  if exit_signal r && holding s then
    s1 ← sell (Date r) (close r) s;
    Ret {| holding := false;
           equity := equity s1;
           entry_price := 0;
           entry_date := entry_date s1;
           trades := trades s1;
           equity_curve := equity_curve s1;
           peak_equity := peak_equity s1;
           max_drawdown := max_drawdown s1 |}
  else Ret s.

(** [if row['entry_signal'] and not holding: ...] *)
Definition entry_branch (r : row) (s : state) : state :=
  if entry_signal r && negb (holding s) then
    {| holding := true;
       equity := equity s;
       entry_price := close r;
       entry_date := Some (Date r);
       trades := trades s;
       equity_curve := equity_curve s;
       peak_equity := peak_equity s;
       max_drawdown := max_drawdown s |}
  else s.

(** [current_value = equity + (row['close'] - entry_price if holding else 0)] *)
Definition current_value (r : row) (s : state) : Q :=
  equity s + (if holding s then close r - entry_price s else 0).

(** The equity curve, the peak and the drawdown.  A division by a zero
    peak is the one failure of the loop body; it cannot occur when the
    initial capital is positive, which the statements below assume
    wherever they need the loop to go on. *)
Definition bookkeeping (r : row) (s : state) : outcome state :=
  let value := current_value r s in
  let peak := if Pandas.Qlt_bool (peak_equity s) value then value
              else peak_equity s in
  if Qeq_bool peak 0 then Raise ZeroDivisionError
  else
    let drawdown := (peak - value) / peak in
    Ret {| holding := holding s;
           equity := equity s;
           entry_price := entry_price s;
           entry_date := entry_date s;
           trades := trades s;
           equity_curve := equity_curve s ++ [value];
           peak_equity := peak;
           max_drawdown :=
             if Pandas.Qlt_bool (max_drawdown s) drawdown then drawdown
             else max_drawdown s |}.

(** The body of [for i, row in df.iterrows()]. *)
Definition step (r : row) (s : state) : outcome state :=
  s1 ← exit_branch r s;
  bookkeeping r (entry_branch r s1).

(** The loop, oldest row first. *)
Fixpoint loop (rows : list row) (s : state) : outcome state :=
  match rows with
  | [] => Ret s
  | r :: rows' => s1 ← step r s; loop rows' s1
  end.

(** [if holding:] after the loop: the position is sold at the close of
    [df.iloc[-1]]. *)
Definition close_final (rows : list row) (s : state) : outcome state :=
  if holding s then
    match last rows with
    | None => Raise IndexError         (* df.iloc[-1] on an empty frame *)
    | Some r => sell (Date r) (close r) s
    end
  else Ret s.

(** The dictionary [results]. *)
Record report : Type := Report {
  initial_capital : Q;
  final_equity : Q;
  total_profit : Q;
  profit_percent : Q;
  report_max_drawdown : Q;
  num_trades : nat;
  num_wins : nat;
  win_rate : Q;
  report_trades : list Trade.t;
  report_equity_curve : list Q
}.

Definition wins (ts : list Trade.t) : list Trade.t :=
  filter (fun t => Pandas.Qlt_bool 0 (Trade.profit t) = true) ts.

(** [profit_percent] divides by the initial capital. *)
Definition performance (capital : Q) (s : state) : outcome report :=
  let final := equity s in
  let total := final - capital in
  if Qeq_bool capital 0 then Raise ZeroDivisionError
  else
    let n := length (trades s) in
    let w := length (wins (trades s)) in
    Ret {| initial_capital := capital;
           final_equity := final;
           total_profit := total;
           profit_percent := (total / capital) * 100;
           report_max_drawdown := max_drawdown s;
           num_trades := n;
           num_wins := w;
           win_rate := if (0 <? n)%nat
                       then (inject_Z (Z.of_nat w) / inject_Z (Z.of_nat n)) * 100
                       else 0;
           report_trades := trades s;
           report_equity_curve := equity_curve s |}.

(** [run_backtest] from the simulation state on: [rows] is [df] with the
    two signal columns in place. *)
Definition simulate (rows : list row) (capital : Q) : outcome report :=
  s ← loop rows (init capital);
  s' ← close_final rows s;
  performance capital s'.

(** The state after the first [n] rows. *)
Definition state_after (n : nat) (rows : list row) (capital : Q) : outcome state :=
  loop (take n rows) (init capital).

End Backtest.

(* ===================================================================== *)
(** ** backtest.py in binary64: the simulation loop with Python's floats *)
(* ===================================================================== *)

(** The statements about sums of profits depend on how each addition is
    rounded.  For them the loop of [run_backtest] is embedded a second
    time, line by line as in [Backtest], with the prices, the equity and
    the profits as binary64 floats and Python's float operations
    ([+], [-], [/], [*], [>], each correctly rounded; a comparison with NaN
    is false). *)

Module Trade64.
(** One element of [trades]. *)
Record t : Type := Make {
  entry_date : string;
  exit_date : string;
  entry_price : float;
  exit_price : float;
  profit : float
}.
End Trade64.

Module Backtest64.

Local Open Scope float_scope.

(** One row of [df] as the loop reads it. *)
Record row : Type := Row {
  Date : string;
  close : float;
  entry_signal : bool;
  exit_signal : bool
}.

(** The local variables of the simulation. *)
Record state : Type := State {
  holding : bool;
  equity : float;
  entry_price : float;
  entry_date : option string;
  trades : list Trade64.t;
  equity_curve : list float;
  peak_equity : float;
  max_drawdown : float
}.

Definition init (initial_capital : float) : state :=
  {| holding := false;
     equity := initial_capital;
     entry_price := 0;
     entry_date := None;
     trades := [];
     equity_curve := [];
     peak_equity := initial_capital;
     max_drawdown := 0 |}.

(** Selling at [price] on [date]: [profit = price - entry_price] and
    [equity += profit], one rounding each; the trade is appended. *)
Definition sell (date : string) (price : float) (s : state) : outcome state :=
  match entry_date s with
  | None => Raise UnboundLocalError
  | Some bought =>
      let profit := price - entry_price s in
      Ret {| holding := holding s;
             equity := equity s + profit;
             entry_price := entry_price s;
             entry_date := entry_date s;
             trades := trades s ++
               [Trade64.Make bought date (entry_price s) price profit];
             equity_curve := equity_curve s;
             peak_equity := peak_equity s;
             max_drawdown := max_drawdown s |}
  end.

(** [if row['exit_signal'] and holding: ...] *)
Definition exit_branch (r : row) (s : state) : outcome state :=
  if exit_signal r && holding s then
    s1 ← sell (Date r) (close r) s;
    Ret {| holding := false;
           equity := equity s1;
           entry_price := 0;
           entry_date := entry_date s1;
           trades := trades s1;
           equity_curve := equity_curve s1;
           peak_equity := peak_equity s1;
           max_drawdown := max_drawdown s1 |}
  else Ret s.

(** [if row['entry_signal'] and not holding: ...] *)
Definition entry_branch (r : row) (s : state) : state :=
  if entry_signal r && negb (holding s) then
    {| holding := true;
       equity := equity s;
       entry_price := close r;
       entry_date := Some (Date r);
       trades := trades s;
       equity_curve := equity_curve s;
       peak_equity := peak_equity s;
       max_drawdown := max_drawdown s |}
  else s.

(** [current_value = equity + (row['close'] - entry_price if holding else 0)] *)
Definition current_value (r : row) (s : state) : float :=
  equity s + (if holding s then close r - entry_price s else 0).

(** The equity curve, the peak and the drawdown.  As in
    [Backtest.bookkeeping], a zero peak stops the loop; a positive initial
    capital excludes it. *)
Definition bookkeeping (r : row) (s : state) : outcome state :=
  let value := current_value r s in
  let peak := if peak_equity s <? value then value else peak_equity s in
  if peak =? 0 then Raise ZeroDivisionError
  else
    let drawdown := (peak - value) / peak in
    Ret {| holding := holding s;
           equity := equity s;
           entry_price := entry_price s;
           entry_date := entry_date s;
           trades := trades s;
           equity_curve := equity_curve s ++ [value];
           peak_equity := peak;
           max_drawdown :=
             if max_drawdown s <? drawdown then drawdown
             else max_drawdown s |}.

(** The body of [for i, row in df.iterrows()]. *)
Definition step (r : row) (s : state) : outcome state :=
  s1 ← exit_branch r s;
  bookkeeping r (entry_branch r s1).

Fixpoint loop (rows : list row) (s : state) : outcome state :=
  match rows with
  | [] => Ret s
  | r :: rows' => s1 ← step r s; loop rows' s1
  end.

(** [if holding:] after the loop. *)
Definition close_final (rows : list row) (s : state) : outcome state :=
  if holding s then
    match last rows with
    | None => Raise IndexError
    | Some r => sell (Date r) (close r) s
    end
  else Ret s.

(** The dictionary [results]. *)
Record report : Type := Report {
  initial_capital : float;
  final_equity : float;
  total_profit : float;
  profit_percent : float;
  report_max_drawdown : float;
  num_trades : nat;
  num_wins : nat;
  win_rate : float;
  report_trades : list Trade64.t;
  report_equity_curve : list float
}.

(** [[t for t in trades if t['profit'] > 0]] *)
Definition wins (ts : list Trade64.t) : list Trade64.t :=
  filter (fun t => (0 <? Trade64.profit t) = true) ts.

(** A list length as a float, for the true division [num_wins /
    num_trades] (exact below 2^53). *)
Definition of_nat (n : nat) : float :=
  PrimFloat.of_uint63 (Uint63.of_Z (Z.of_nat n)).

(** The performance calculation: [total_profit = final_equity -
    initial_capital], [profit_percent], [win_rate]. *)
Definition performance (capital : float) (s : state) : outcome report :=
  let final := equity s in
  let total := final - capital in
  if capital =? 0 then Raise ZeroDivisionError
  else
    let n := length (trades s) in
    let w := length (wins (trades s)) in
    Ret {| initial_capital := capital;
           final_equity := final;
           total_profit := total;
           profit_percent := (total / capital) * 100;
           report_max_drawdown := max_drawdown s;
           num_trades := n;
           num_wins := w;
           win_rate := if (0 <? n)%nat then (of_nat w / of_nat n) * 100
                       else 0;
           report_trades := trades s;
           report_equity_curve := equity_curve s |}.

(** [run_backtest] from the simulation state on. *)
Definition simulate (rows : list row) (capital : float) : outcome report :=
  s ← loop rows (init capital);
  s' ← close_final rows s;
  performance capital s'.

(** Python's [sum] of the profit fields: from 0, left to right. *)
Definition sum_profit (ts : list Trade64.t) : float :=
  foldl PrimFloat.add 0 (Trade64.profit <$> ts).

(** The profits added to [capital] one after the other, as [equity +=
    profit] does. *)
Definition add_profits (capital : float) (ts : list Trade64.t) : float :=
  foldl PrimFloat.add capital (Trade64.profit <$> ts).

(** The rational number a finite float stands for. *)
Definition exact (x : float) : option Q :=
  match Prim2SF x with
  | S754_zero _ => Some 0%Q
  | S754_finite s m e =>
      let v := (inject_Z (Zpos m) * Qpower 2 e)%Q in
      Some (if s then Qopp v else v)
  | _ => None
  end.

End Backtest64.

(* ===================================================================== *)
(** ** Notions used in the statements *)
(* ===================================================================== *)

(** The signal a condition denotes on a frame: the code a fresh generator
    produces for it, evaluated as [run_backtest] does. *)
Definition signal_of (str_float : Q -> string) (df : Pandas.frame)
  (condition : node) : outcome Pandas.value :=
  '(code, _) ← PandasCodeGenerator.visit str_float condition
                 PandasCodeGenerator.fresh;
  Pandas.eval df code.

(** The code a fresh generator produces for a condition. *)
Definition code_of (str_float : Q -> string) (condition : node) : outcome pexpr :=
  '(code, _) ← PandasCodeGenerator.visit str_float condition
                 PandasCodeGenerator.fresh;
  Ret code.

(** ENTRY: and EXIT: keywords of a token stream, in order ([true] for
    ENTRY:), and the kind of a rule node. *)
Definition rule_kind (t : token) : option bool :=
  match t with
  | ENTRY => Some true
  | EXIT => Some false
  | _ => None
  end.

Definition rule_kinds (ts : list token) : list bool := omap rule_kind ts.

Definition node_kind (n : node) : option bool :=
  match n with
  | EntryRule _ => Some true
  | ExitRule _ => Some false
  | _ => None
  end.

(** The condition of the last rule of a kind, if the strategy has one. *)
Definition condition_of (entry_kind : bool) (rule : node) : option node :=
  match rule, entry_kind with
  | EntryRule c, true => Some c
  | ExitRule c, false => Some c
  | _, _ => None
  end.

Definition last_condition (entry_kind : bool) (rules : list node) : option node :=
  last (omap (condition_of entry_kind) rules).

(** The conditions [generate] visits, and the [Indicator] nodes inside a
    node (each with its name and parameters), in visiting order. *)
Definition rule_condition (rule : node) : option node :=
  match rule with
  | EntryRule c | ExitRule c => Some c
  | _ => None
  end.

Fixpoint indicator_nodes (n : node) : list (string * list node) :=
  let all := fix all (ns : list node) : list (string * list node) :=
    match ns with
    | [] => []
    | x :: xs => (indicator_nodes x ++ all xs)%list
    end in
  match n with
  | Strategy rules => all rules
  | EntryRule c | ExitRule c => indicator_nodes c
  | LogicalOperation _ operands => all operands
  | Comparison _ l r | Cross l r | CrossOver l r | CrossUnder l r =>
      (indicator_nodes l ++ indicator_nodes r)%list
  | Indicator name ps => (name, ps) :: all ps
  | Identifier _ | Number _ => []
  end.

Definition strategy_indicators (rules : list node) : list (string * list node) :=
  omap rule_condition rules ≫= indicator_nodes.

(** The line that computes an indicator: its column, the library function
    and the code of its parameters. *)
Definition own_statement (str_float : Q -> string) (ind : string * list node)
  : outcome stmt :=
  col ← PandasCodeGenerator.indicator_col_name str_float ind.1 ind.2;
  '(param_code, _) ← PandasCodeGenerator.visit_each
       (PandasCodeGenerator.visit str_float) ind.2 PandasCodeGenerator.fresh;
  Ret (Assign col (lower ind.1) param_code).

(** The lines of the indicator code that assign a given column. *)
Definition computations (col : string) (code : list stmt) : list stmt :=
  filter (fun s => target s = col) code.

(** A condition [visit] has a method for at every node, with indicator
    parameters that are column names or numbers. *)
Definition is_atom (p : node) : Prop :=
  match p with
  | Identifier _ | Number _ => True
  | _ => False
  end.

Fixpoint visitable (n : node) : Prop :=
  match n with
  | LogicalOperation _ operands =>
      (fix all (ns : list node) : Prop :=
         match ns with
         | [] => True
         | x :: xs => visitable x /\ all xs
         end) operands
  | Comparison _ l r | Cross l r | CrossOver l r | CrossUnder l r =>
      visitable l /\ visitable r
  | Indicator _ ps => Forall is_atom ps
  | Identifier _ | Number _ => True
  | Strategy _ | EntryRule _ | ExitRule _ => False
  end.

(** The spec's wording of the drawdown bookkeeping, on an equity curve:
    [peak = max(peak, value)], then
    [max_drawdown = max(max_drawdown, (peak - value) / peak)]. *)
Definition Qmax (x y : Q) : Q := if Pandas.Qlt_bool x y then y else x.

Fixpoint running_peak (peak : Q) (curve : list Q) : Q :=
  match curve with
  | [] => peak
  | value :: curve' => running_peak (Qmax peak value) curve'
  end.

Fixpoint worst_drawdown (peak worst : Q) (curve : list Q) : Q :=
  match curve with
  | [] => worst
  | value :: curve' =>
      let peak' := Qmax peak value in
      worst_drawdown peak' (Qmax worst ((peak' - value) / peak')) curve'
  end.

(** [x op y] for the five operators of [COMP_OP]. *)
Definition satisfies (op : string) (x y : Q) : Prop :=
  (op = ">" /\ (y < x)%Q) \/ (op = "<" /\ (x < y)%Q) \/
  (op = ">=" /\ (y <= x)%Q) \/ (op = "<=" /\ (x <= y)%Q) \/
  (op = "==" /\ (x == y)%Q).

(** The mask of a cross: [f] holds of the two series on the bar and [g] of
    their values one bar earlier. *)
Definition cross_mask (f g : Q -> Q -> bool) (xs ys : list (option Q))
  : list bool :=
  zip_with andb (zip_with (Pandas.cmp_cell f) xs ys)
    (zip_with (Pandas.cmp_cell g) (Pandas.shift1 xs) (Pandas.shift1 ys)).

(** What evaluating the code of a cross gives, from the values of its two
    operands: a number has no [shift]. *)
Definition cross_value (f g : Q -> Q -> bool) (a b : Pandas.value)
  : outcome Pandas.value :=
  match Pandas.to_numeric a, Pandas.to_numeric b with
  | Pandas.NSeries xs, Pandas.NSeries ys =>
      Ret (Pandas.VMask (cross_mask f g xs ys))
  | _, _ => Raise AttributeError
  end.

(** The shape of the nodes the parser builds.  An operand is a column
    name, a number or an indicator call; a condition is a comparison or a
    cross of two operands, or a logical operation over at least two
    conditions. *)
Definition operand (n : node) : Prop :=
  match n with
  | Identifier _ | Number _ | Indicator _ _ => True
  | _ => False
  end.

Fixpoint parsed_condition (n : node) : Prop :=
  match n with
  | Comparison _ l r | Cross l r | CrossOver l r | CrossUnder l r =>
      operand l /\ operand r
  | LogicalOperation _ operands =>
      (2 <= length operands)%nat /\
      (fix all (ns : list node) : Prop :=
         match ns with
         | [] => True
         | x :: xs => parsed_condition x /\ all xs
         end) operands
  | _ => False
  end.

(** Every indicator inside a node has its name in upper case. *)
Fixpoint upper_names (n : node) : Prop :=
  let all := fix all (ns : list node) : Prop :=
    match ns with
    | [] => True
    | x :: xs => upper_names x /\ all xs
    end in
  match n with
  | Strategy rules => all rules
  | EntryRule c | ExitRule c => upper_names c
  | LogicalOperation _ operands => all operands
  | Comparison _ l r | Cross l r | CrossOver l r | CrossUnder l r =>
      upper_names l /\ upper_names r
  | Indicator name ps => upper name = name /\ all ps
  | Identifier _ | Number _ => True
  end.

Definition parsed_rule (n : node) : Prop :=
  match n with
  | EntryRule c | ExitRule c => parsed_condition c /\ upper_names c
  | _ => False
  end.

(** The trade bought at the close of bar [span.1] and sold at the close of
    bar [span.2]. *)
Definition trade_of (rows : list Backtest.row) (span : nat * nat)
  : option Trade.t :=
  r_in ← rows !! span.1;
  r_out ← rows !! span.2;
  Some (Trade.Make (Backtest.Date r_in) (Backtest.Date r_out)
          (Backtest.close r_in) (Backtest.close r_out)
          (Backtest.close r_out - Backtest.close r_in)%Q).

(** A trade closed by an exit signal: bought on a bar with an entry
    signal, sold on a later bar with an exit signal. *)
Definition signal_trade (rows : list Backtest.row) (span : nat * nat)
  (t : Trade.t) : Prop :=
  trade_of rows span = Some t /\
  (span.1 < span.2)%nat /\
  (exists r, rows !! span.1 = Some r /\ Backtest.entry_signal r = true) /\
  (exists r, rows !! span.2 = Some r /\ Backtest.exit_signal r = true).

(** The trade that closes, on the last bar, a position still open at the
    end of the data. *)
Definition final_trade (rows : list Backtest.row) (span : nat * nat)
  (t : Trade.t) : Prop :=
  trade_of rows span = Some t /\
  (span.1 <= span.2)%nat /\ S span.2 = length rows /\
  (exists r, rows !! span.1 = Some r /\ Backtest.entry_signal r = true).

(** Spans that follow one another from bar [lo] on: each starts no earlier
    than the one before ends. *)
Fixpoint in_sequence (lo : nat) (spans : list (nat * nat)) : Prop :=
  match spans with
  | [] => True
  | span :: spans' =>
      (lo <= span.1)%nat /\ (span.1 <= span.2)%nat /\ in_sequence span.2 spans'
  end.

(** A float between two bounds, or NaN. *)
Definition nan_or_within (lo hi : Q) (v : Series.float) : Prop :=
  match v with
  | Series.NaN => True
  | Series.Inf => False
  | Series.Finite x => (lo <= x /\ x <= hi)%Q
  end.

(** A series that rises or stays level from each row to the next. *)
Fixpoint never_falls (xs : list Q) : Prop :=
  match xs with
  | x :: xs' =>
      match xs' with
      | y :: _ => (x <= y)%Q /\ never_falls xs'
      | [] => True
      end
  | [] => True
  end.

(** The columns a generated expression reads, and the column names a node
    of the strategy mentions. *)
Fixpoint columns_read (e : pexpr) : list string :=
  match e with
  | PFalse | PLit _ => []
  | PCol column => [column]
  | PCmp _ l r | PAmp l r => (columns_read l ++ columns_read r)%list
  | PShift e' => columns_read e'
  | PJoin _ codes =>
      (fix all (cs : list pexpr) : list string :=
         match cs with
         | [] => []
         | c :: cs' => (columns_read c ++ all cs')%list
         end) codes
  end.

Fixpoint identifiers (n : node) : list string :=
  let all := fix all (ns : list node) : list string :=
    match ns with
    | [] => []
    | x :: xs => (identifiers x ++ all xs)%list
    end in
  match n with
  | Strategy rules => all rules
  | EntryRule c | ExitRule c => identifiers c
  | LogicalOperation _ operands => all operands
  | Comparison _ l r | Cross l r | CrossOver l r | CrossUnder l r =>
      (identifiers l ++ identifiers r)%list
  | Indicator _ ps => all ps
  | Identifier name => [name]
  | Number _ => []
  end.

(** A column that exists when the generated code runs on a frame with the
    columns the strategy names: one of those, or one the indicator code
    assigns. *)
Definition known_column (rules : list node) (code : list stmt)
  (column : string) : Prop :=
  column ∈ identifiers (Strategy rules) \/ column ∈ (target <$> code).

(* ===================================================================== *)
(** ** Inputs used in the examples *)
(* ===================================================================== *)

Module Examples.

Local Open Scope Q_scope.

(** [left = [1, 3, 2, 5]], [right = [2, 2, 3, 3]]. *)
Definition crossover_frame : Pandas.frame :=
  {[ "left" := Some <$> [1; 3; 2; 5]; "right" := Some <$> [2; 2; 3; 3] ]}.

(** ["ENTRY: SMA(a_b, c) > SMA(a, b_c)"
     "EXIT: SMA(a, b_c) < 1"] *)
Definition colliding_text : list token :=
  [ENTRY; CNAME "SMA"; LPAR; CNAME "a_b"; COMMA; CNAME "c"; RPAR;
   COMP_OP ">"; CNAME "SMA"; LPAR; CNAME "a"; COMMA; CNAME "b_c"; RPAR;
   EXIT; CNAME "SMA"; LPAR; CNAME "a"; COMMA; CNAME "b_c"; RPAR;
   COMP_OP "<"; NUMBER 1].

Definition sma_ab_c : string * list node :=
  ("SMA", [Identifier "a_b"; Identifier "c"]).
Definition sma_a_bc : string * list node :=
  ("SMA", [Identifier "a"; Identifier "b_c"]).

Definition colliding_rules : list node :=
  [EntryRule (Comparison ">" (Indicator "SMA" sma_ab_c.2)
                             (Indicator "SMA" sma_a_bc.2));
   ExitRule (Comparison "<" (Indicator "SMA" sma_a_bc.2) (Number 1))].

(** ["ENTRY: SMA(close, 20) > close"
     "EXIT: SMA(close, 20) < close"] *)
Definition sma20 : node := Indicator "SMA" [Identifier "close"; Number 20].
Definition sma20_rules : list node :=
  [EntryRule (Comparison ">" sma20 (Identifier "close"));
   ExitRule (Comparison "<" sma20 (Identifier "close"))].

(** ["ENTRY: close > 100"  "ENTRY: volume > 5"  "EXIT: close < 90"] *)
Definition two_entries : list node :=
  [EntryRule (Comparison ">" (Identifier "close") (Number 100));
   EntryRule (Comparison ">" (Identifier "volume") (Number 5));
   ExitRule (Comparison "<" (Identifier "close") (Number 90))].

(** What [generate] returns on these strategies. *)
Definition colliding_code : generated :=
  {| indicators := [Assign "sma_a_b_c" "sma" [PCol "a_b"; PCol "c"]];
     entry := PCmp ">" (PCol "sma_a_b_c") (PCol "sma_a_b_c");
     exit := PCmp "<" (PCol "sma_a_b_c") (PLit 1) |}.

Definition sma20_code : generated :=
  {| indicators := [Assign "sma_close_20.0" "sma" [PCol "close"; PLit 20]];
     entry := PCmp ">" (PCol "sma_close_20.0") (PCol "close");
     exit := PCmp "<" (PCol "sma_close_20.0") (PCol "close") |}.

Definition two_entries_code : generated :=
  {| indicators := [];
     entry := PCmp ">" (PCol "volume") (PLit 5);
     exit := PCmp "<" (PCol "close") (PLit 90) |}.

Definition bar (date : string) (close : Q) (entry_signal exit_signal : bool)
  : Backtest.row :=
  Backtest.Row date close entry_signal exit_signal.

(** Closes 10, 11, 9, 12, 8; entry at index 0, exit at index 2. *)
Definition one_trade : list Backtest.row :=
  [bar "d0" 10 true false; bar "d1" 11 false false; bar "d2" 9 false true;
   bar "d3" 12 false false; bar "d4" 8 false false].

(** One unit bought at 60000 with a capital of 10000; the close then falls
    to 45000. *)
Definition overdrawn : list Backtest.row :=
  [bar "d0" 60000 true false; bar "d1" 45000 false false].

(** Exit and entry both true on the second bar, while a position is open. *)
Definition reopen : list Backtest.row :=
  [bar "d0" 10 true false; bar "d1" 12 true true; bar "d2" 11 false false].

(** The simulation state after the first bar of [reopen], capital 10000. *)
Definition reopen_held : Backtest.state :=
  {| Backtest.holding := true;
     Backtest.equity := 10000;
     Backtest.entry_price := 10;
     Backtest.entry_date := Some "d0";
     Backtest.trades := [];
     Backtest.equity_curve := [10000];
     Backtest.peak_equity := 10000;
     Backtest.max_drawdown := 0 |}.

(** Two conditions on the columns of [crossover_frame], and their masks. *)
Definition left_above_2 : node := Comparison ">" (Identifier "left") (Number 2).
Definition right_below_3 : node :=
  Comparison "<" (Identifier "right") (Number 3).

(** The tree of the text of [demo.py]. *)
Definition demo_tree : node :=
  Strategy
    [EntryRule (CrossOver (Indicator "SMA" [Identifier "close"; Number 10])
                          (Indicator "SMA" [Identifier "close"; Number 30]));
     ExitRule (CrossUnder (Indicator "SMA" [Identifier "close"; Number 30])
                          (Indicator "SMA" [Identifier "close"; Number 10]))].

(** No entry signal; an exit signal on the second bar. *)
Definition idle : list Backtest.row :=
  [bar "d0" 10 false false; bar "d1" 7 false true].

(** Closes with a gap. *)
Definition gapped : list (option Q) := [Some 1; Some 3; None; Some 5; Some 4].

(** ["ENTRY: SMA(RSI(close, 14), 5) > 50"  "ENTRY: close > 100"] *)
Definition nested_first_text : list token :=
  [ENTRY; CNAME "SMA"; LPAR; CNAME "RSI"; LPAR; CNAME "close"; COMMA;
   NUMBER 14; RPAR; COMMA; NUMBER 5; RPAR; COMP_OP ">"; NUMBER 50;
   ENTRY; CNAME "close"; COMP_OP ">"; NUMBER 100].

Definition close_above_100 : node :=
  Comparison ">" (Identifier "close") (Number 100).

Definition nested_first : list node :=
  [EntryRule (Comparison ">"
     (Indicator "SMA" [Indicator "RSI" [Identifier "close"; Number 14];
                       Number 5])
     (Number 50));
   EntryRule close_above_100].

(** ["ENTRY: SMA(close, 0) > 1"  "ENTRY: close > 100"] *)
Definition zero_period_first : list node :=
  [EntryRule (Comparison ">" (Indicator "SMA" [Identifier "close"; Number 0])
                             (Number 1));
   EntryRule close_above_100].
(** Closes 0.1, 0.3, 0.1, 0.3 as floats: bought on the first and third
    bar, sold on the second and fourth. *)
Definition two_round_trips : list Backtest64.row :=
  [Backtest64.Row "d0" 0.1 true false; Backtest64.Row "d1" 0.3 false true;
   Backtest64.Row "d2" 0.1 true false; Backtest64.Row "d3" 0.3 false true]%float.

End Examples.

(* ===================================================================== *)
(** ** Invariants used in the proofs *)
(* ===================================================================== *)

(** Progress of a parsing function on [ts]: it stops for a reason of its
    own, or leaves a suffix with the same rule keywords. *)
Definition advances {A} (strict : bool) (ts : list token)
  (r : Parser.parsed A) : Prop :=
  match r with
  | Ret (_, _, rest) =>
      rule_kinds rest = rule_kinds ts /\
      (length rest + (if strict then 1 else 0) <= length ts)%nat
  | Raise e => e <> Fuel
  end.
Arguments advances : simpl never.

(** A token stream that does not go on with an [AND]. *)
Definition no_and_head (ts : list token) : Prop :=
  match ts with
  | AND _ :: _ => False
  | _ => True
  end.

Definition rule_result (ts : list token) (r : Parser.parsed node) : Prop :=
  match r with
  | Ret (n, _, rest) =>
      (exists k, node_kind n = Some k /\ rule_kinds ts = k :: rule_kinds rest) /\
      (length rest < length ts)%nat
  | Raise e => e <> Fuel
  end.

(** The code of a parameter that is a column name or a number. *)
Definition atom_code (p : node) : pexpr :=
  match p with
  | Identifier name => PCol name
  | Number v => PLit v
  | _ => PFalse
  end.

(** The code part of a visit. *)
Definition code_only (m : outcome (pexpr * PandasCodeGenerator.self))
  : outcome pexpr :=
  '(c, _) ← m; Ret c.

Definition codes_only (m : outcome (list pexpr * PandasCodeGenerator.self))
  : outcome (list pexpr) :=
  '(c, _) ← m; Ret c.

(** The generator's set is the set of assigned columns, each assigned by
    one line. *)
Definition targets (code : list stmt) : list string := target <$> code.

Definition consistent (g : PandasCodeGenerator.self) : Prop :=
  PandasCodeGenerator.generated_indicators g
    = list_to_set (targets (PandasCodeGenerator.indicator_code g)) /\
  NoDup (targets (PandasCodeGenerator.indicator_code g)).

Definition from_nodes (str_float : Q -> string)
  (inds : list (string * list node)) (st : stmt) : Prop :=
  exists ind, ind ∈ inds /\ own_statement str_float ind = Ret st.

Definition cached_in (str_float : Q -> string)
  (g : PandasCodeGenerator.self) (ind : string * list node) : Prop :=
  exists col,
    PandasCodeGenerator.indicator_col_name str_float ind.1 ind.2 = Ret col /\
    col ∈ PandasCodeGenerator.generated_indicators g.

(** What visiting nodes with the indicators [inds] does to the generator. *)
Definition extends (str_float : Q -> string)
  (inds : list (string * list node)) (g g' : PandasCodeGenerator.self) : Prop :=
  consistent g' /\
  (exists new,
      PandasCodeGenerator.indicator_code g'
        = (PandasCodeGenerator.indicator_code g ++ new)%list /\
      Forall (from_nodes str_float inds) new) /\
  PandasCodeGenerator.generated_indicators g
    ⊆ PandasCodeGenerator.generated_indicators g' /\
  Forall (cached_in str_float g') inds.

(** Invariant of the simulation loop for a positive initial capital. *)
Record sound (capital : Q) (s : Backtest.state) : Prop := {
  bought_bound :
    Backtest.holding s = true -> is_Some (Backtest.entry_date s);
  peak_pos : (0 < Backtest.peak_equity s)%Q;
  peak_spec :
    Backtest.peak_equity s = running_peak capital (Backtest.equity_curve s);
  worst_spec :
    Backtest.max_drawdown s
      = worst_drawdown capital 0 (Backtest.equity_curve s);
  worst_nonneg : (0 <= Backtest.max_drawdown s)%Q;
  worst_le_1 :
    Forall (fun v => 0 <= v)%Q (Backtest.equity_curve s) ->
    (Backtest.max_drawdown s <= 1)%Q
}.

(** Invariant of the binary64 loop for a positive initial capital. *)
Record sound64 (capital : float) (s : Backtest64.state) : Prop := {
  bought64 :
    Backtest64.holding s = true -> is_Some (Backtest64.entry_date s);
  peak64 : PrimFloat.ltb 0 (Backtest64.peak_equity s) = true;
  balance64 :
    Backtest64.equity s = Backtest64.add_profits capital (Backtest64.trades s);
  profits64 :
    Forall (fun t => Trade64.profit t
                     = PrimFloat.sub (Trade64.exit_price t) (Trade64.entry_price t))
      (Backtest64.trades s)
}.

(** The loop inside the evaluation of a joined code: the operands after the
    first, combined into the value so far from left to right. *)
Definition join_rest (df : Pandas.frame) (op : bitop)
  : list pexpr -> Pandas.value -> outcome Pandas.value :=
  fix go (cs : list pexpr) (acc : Pandas.value) : outcome Pandas.value :=
    match cs with
    | [] => Ret acc
    | c' :: cs' =>
        b ← Pandas.eval df c';
        acc' ← Pandas.bit (Pandas.bitop_fun op) acc b;
        go cs' acc'
    end.

(** A parsing function that, when it returns, returns a value with a given
    property. *)
Definition yields {A} (P : A -> Prop) (r : Parser.parsed A) : Prop :=
  match r with
  | Ret (a, _, _) => P a
  | Raise _ => True
  end.

(** What a visit can do on a node the parser built: return, and then [ok]
    holds; or stop on a parameter without a [value] attribute. *)
Definition visits_or_attribute_error {A} (ok : Prop) (m : outcome A) : Prop :=
  match m with
  | Ret _ => ok
  | Raise e => e = AttributeError
  end.

(** Token streams on which an atom, or a condition, ends. *)
Definition no_lpar_head (ts : list token) : Prop :=
  match ts with
  | LPAR :: _ => False
  | _ => True
  end.

Definition closes (ts : list token) : Prop :=
  match ts with
  | [] | RPAR :: _ | ENTRY :: _ | EXIT :: _ => True
  | _ => False
  end.

(** The bar at which the last of the spans ends. *)
Definition frontier (lo : nat) (spans : list (nat * nat)) : nat :=
  match last spans with
  | Some span => span.2
  | None => lo
  end.

(** Invariant of the loop after the bars [done_]: the trades so far were
    closed by exit signals, one after the other, and an open position was
    bought on an entry signal, no earlier than the last of them ended. *)
Definition trades_so_far (done_ : list Backtest.row) (s : Backtest.state)
  : Prop :=
  exists spans,
    Forall2 (signal_trade done_) spans (Backtest.trades s) /\
    in_sequence 0 spans /\
    (frontier 0 spans <= length done_)%nat /\
    (Backtest.holding s = true ->
     exists i r, done_ !! i = Some r /\ Backtest.entry_signal r = true /\
                 Backtest.entry_date s = Some (Backtest.Date r) /\
                 Backtest.entry_price s = Backtest.close r /\
                 (frontier 0 spans <= i)%nat).

(** The columns the code of a node reads are names the node mentions and
    columns of its indicators. *)
Definition reads_own (str_float : Q -> string) (n : node) (c : pexpr) : Prop :=
  forall col, col ∈ columns_read c ->
    col ∈ identifiers n \/
    exists ind, ind ∈ indicator_nodes n /\
                PandasCodeGenerator.indicator_col_name str_float ind.1 ind.2
                  = Ret col.

(* ===================================================================== *)
(** * Properties *)
(* ===================================================================== *)

Local Open Scope list_scope.

(* --------------------------------------------------------------------- *)
(** ** The parser *)
(* --------------------------------------------------------------------- *)

Section ParserFacts.

Lemma advances_bind {A B} (s1 s2 : bool) ts
    (m : outcome (A * nat * list token))
    (k : A * nat * list token -> outcome (B * nat * list token)) :
  advances s1 ts m ->
  (forall a pos rest,
      rule_kinds rest = rule_kinds ts ->
      (length rest + (if s1 then 1 else 0) <= length ts)%nat ->
      advances s2 rest (k (a, pos, rest))) ->
  advances (s1 || s2) ts (m ≫= k).
Proof.
  unfold advances. intros Hm Hk.
  destruct m as [[[a pos] rest]|e]; simpl in *; [|done].
  destruct Hm as [Hk1 Hl1]. specialize (Hk a pos rest Hk1 Hl1).
  destruct (k (a, pos, rest)) as [[[b pos'] rest']|e]; simpl; [|done].
  destruct Hk as [-> Hl2]. split; [done|]. destruct s1, s2; simpl in *; lia.
Qed.

Lemma advances_ret {A} (x : A) pos ts : advances false ts (Ret (x, pos, ts)).
Proof. unfold advances. split; simpl; [done|lia]. Qed.

Lemma advances_skip {A} s s' (r : Parser.parsed A) t ts :
  rule_kind t = None -> advances s ts r -> advances s' (t :: ts) r.
Proof.
  unfold advances. intros Ht Hr.
  destruct r as [[[a pos] rest]|e]; simpl in *; [|done].
  unfold rule_kinds at 2. simpl. rewrite Ht. destruct Hr as [-> Hl].
  split; [done|]. destruct s, s'; lia.
Qed.

Lemma advances_finish {A} ts (m : outcome A) pos :
  m <> Raise Fuel ->
  advances false ts (m ≫= fun r => Ret (r, pos, ts)).
Proof.
  destruct m; simpl; [intros _; apply advances_ret|].
  unfold advances. simpl. congruence.
Qed.

(** A sub-parser called on a shorter input has fuel left. *)
Ltac call s1 s2 IH :=
  eapply (advances_bind s1 s2);
  [ apply IH; simpl in *; lia
  | intros ? ? ? ? ?; cbn beta iota ].

Ltac skip := eapply (advances_skip true); [done|].

Lemma atom_advances fuel :
  (forall pos ts, (8 * length ts + 1 <= fuel)%nat ->
     advances true ts (Parser.atom fuel pos ts)) /\
  (forall pos ts, (8 * length ts + 1 <= fuel)%nat ->
     advances true ts (Parser.atom_tail fuel pos ts)).
Proof.
  induction fuel as [|fuel [IHa IHt]]; [split; intros; lia|].
  split; intros pos ts Hf.
  - destruct ts as [|[] ts]; simpl; try done.
    + destruct ts as [|[] ts]; simpl; try (split; simpl; [done|lia]).
      assert (Hgen : advances true ts
        (Parser.atom fuel (pos + 2) ts ≫= λ '(p, pos1, rest1),
           Parser.atom_tail fuel pos1 rest1 ≫= λ '(ps, pos2, rest2),
           Ret (AstTransformer.indicator text (p :: ps), pos2, rest2))).
      { call true true IHa. call true false IHt. apply advances_ret. }
      do 2 skip.
      destruct ts as [|[] ts]; try exact Hgen. split; simpl; [done|lia].
    + split; simpl; [done|lia].
  - destruct ts as [|[] ts]; simpl; try done.
    + split; simpl; [done|lia].
    + skip. call true true IHa. call true false IHt. apply advances_ret.
Qed.

Lemma cross_args_advances fuel pos ts :
  (8 * length ts + 1 <= fuel)%nat ->
  advances true ts (Parser.cross_args fuel pos ts).
Proof.
  intros Hf. destruct (atom_advances fuel) as [IHa _].
  destruct ts as [|[] ts]; try done. unfold Parser.cross_args.
  skip. call true false IHa.
  destruct rest as [|[] rest]; try done.
  skip. call true false IHa.
  destruct rest0 as [|[] rest0]; try done.
  split; simpl; [done|lia].
Qed.

Lemma simple_comp_advances fuel pos ts :
  (8 * length ts + 1 <= fuel)%nat ->
  advances true ts (Parser.simple_comp fuel pos ts).
Proof.
  intros Hf. destruct (atom_advances fuel) as [IHa _].
  unfold Parser.simple_comp.
  call true false IHa.
  destruct rest as [|[] rest]; try done.
  skip. call true false IHa. apply advances_ret.
Qed.

Lemma and_expr_callback first more :
  AstTransformer.and_expr first more <> Raise Fuel.
Proof.
  destruct more as [|[op r] [|? ?]]; simpl; try done.
  destruct first; simpl; try done. by case_match.
Qed.

Lemma or_expr_callback first more :
  AstTransformer.or_expr first more <> Raise Fuel.
Proof. by destruct more as [|[op r] [|? ?]]. Qed.

Lemma expr_advances fuel :
  (forall pos ts, (8 * length ts + 2 <= fuel)%nat ->
     advances true ts (Parser.comparison fuel pos ts)) /\
  (forall pos ts, (8 * length ts + 3 <= fuel)%nat ->
     advances true ts (Parser.and_expr fuel pos ts)) /\
  (forall pos ts, (8 * length ts + 1 <= fuel)%nat ->
     advances false ts (Parser.and_tail fuel pos ts)) /\
  (forall pos ts, (8 * length ts + 4 <= fuel)%nat ->
     advances true ts (Parser.or_expr fuel pos ts)) /\
  (forall pos ts, (8 * length ts + 1 <= fuel)%nat ->
     advances false ts (Parser.or_tail fuel pos ts)).
Proof.
  induction fuel as [|fuel (IHc & IHa & IHat & IHo & IHot)];
    [repeat split; intros; lia|].
  repeat split; intros pos ts Hf.
  - pose proof (simple_comp_advances fuel pos ts) as Hs.
    destruct ts as [|[] ts]; simpl;
      try (apply Hs; simpl in *; lia).
    + skip. call true false IHo.
      destruct rest as [|[] rest]; try done. split; simpl; [done|lia].
    + skip. eapply (advances_bind true false);
        [apply cross_args_advances; simpl in *; lia|].
      intros; apply advances_ret.
    + skip. eapply (advances_bind true false);
        [apply cross_args_advances; simpl in *; lia|].
      intros; apply advances_ret.
    + skip. eapply (advances_bind true false);
        [apply cross_args_advances; simpl in *; lia|].
      intros; apply advances_ret.
  - simpl. call true false IHc. call false false IHat.
    apply advances_finish, and_expr_callback.
  - destruct ts as [|[] ts]; simpl; try apply advances_ret.
    skip. call true false IHc. call false false IHat. apply advances_ret.
  - simpl. call true false IHa. call false false IHot.
    apply advances_finish, or_expr_callback.
  - destruct ts as [|[] ts]; simpl; try apply advances_ret.
    skip. call true false IHa. call false false IHot. apply advances_ret.
Qed.

Lemma rule_advances fuel pos ts :
  (8 * length ts <= fuel)%nat -> rule_result ts (Parser.rule fuel pos ts).
Proof.
  intros Hf. destruct (expr_advances fuel) as (_ & _ & _ & IHo & _).
  destruct ts as [|[] ts]; simpl; try done.
  - assert (H := IHo (pos + 1)%nat ts).
    destruct (Parser.or_expr fuel (pos + 1) ts) as [[[e pos1] rest1]|e]; simpl.
    + destruct H as [-> Hl]; [simpl in *; lia|].
      split; [by exists true|simpl in *; lia].
    + apply H. simpl in *; lia.
  - assert (H := IHo (pos + 1)%nat ts).
    destruct (Parser.or_expr fuel (pos + 1) ts) as [[[e pos1] rest1]|e]; simpl.
    + destruct H as [-> Hl]; [simpl in *; lia|].
      split; [by exists false|simpl in *; lia].
    + apply H. simpl in *; lia.
Qed.

Lemma rules_complete fuel : forall pos ts,
  (8 * length ts + 1 <= fuel)%nat ->
  match Parser.rules fuel pos ts with
  | Ret rs => rs <> [] /\ node_kind <$> rs = Some <$> rule_kinds ts
  | Raise e => e <> Fuel
  end.
Proof.
  induction fuel as [|fuel IH]; intros pos ts Hf; [lia|].
  simpl. assert (Hr := rule_advances fuel pos ts).
  destruct (Parser.rule fuel pos ts) as [[[r pos1] rest1]|e]; simpl.
  2:{ apply Hr. lia. }
  destruct Hr as [(k & Hk & Hks) Hl]; [lia|].
  destruct rest1 as [|t rest1].
  - split; [done|]. rewrite Hks. simpl. by rewrite Hk.
  - specialize (IH pos1 (t :: rest1)).
    destruct (Parser.rules fuel pos1 (t :: rest1)) as [rs|e]; simpl.
    + destruct IH as [_ IH]; [simpl in *; lia|].
      split; [done|]. rewrite Hks, fmap_cons, <- IH, Hk. done.
    + apply IH. simpl in *; lia.
Qed.

(** *** Chains of simple comparisons *)

Import Texts.

Lemma comparison_simple fuel pos c rest :
  (3 <= fuel)%nat ->
  exists pos', Parser.comparison fuel pos (simple_tokens c ++ rest)
               = Ret (simple_node c, pos', rest).
Proof.
  intros Hf. destruct fuel as [|[|[|fuel]]]; try lia.
  destruct c as [n op v]. simpl. by eexists.
Qed.

Lemma no_and_head_or_links more : no_and_head (or_links more).
Proof. by destruct more as [|[t c] more]. Qed.

Lemma and_tail_links more : forall fuel pos rest,
  no_and_head rest ->
  (length more + 4 <= fuel)%nat ->
  exists pos', Parser.and_tail fuel pos (and_links more ++ rest)
               = Ret (link_nodes more, pos', rest).
Proof.
  induction more as [|[t c] more IH]; intros fuel pos rest Hr Hf.
  - destruct fuel; [simpl in Hf; lia|]. exists pos.
    by destruct rest as [|[] rest].
  - destruct fuel as [|fuel]; [lia|]. unfold and_links.
    rewrite bind_cons, <- !app_assoc.
    cbn [Parser.and_tail fst snd app].
    destruct (comparison_simple fuel (pos + 1) c (and_links more ++ rest))
      as [pos1 E]; [simpl in Hf; lia|].
    unfold and_links in E. rewrite E. cbn [mbind outcome_bind].
    destruct (IH fuel pos1 rest Hr) as [pos2 E2]; [simpl in Hf; lia|].
    unfold and_links in E2. rewrite E2. by eexists.
Qed.

Lemma and_expr_chain c0 ands fuel pos rest :
  no_and_head rest ->
  (length ands + 5 <= fuel)%nat ->
  exists pos',
    Parser.and_expr fuel pos (simple_tokens c0 ++ and_links ands ++ rest)
    = (AstTransformer.and_expr (simple_node c0) (link_nodes ands)
         ≫= fun r => Ret (r, pos', rest)).
Proof.
  intros Hr Hf. destruct fuel as [|fuel]; [lia|].
  cbn [Parser.and_expr].
  destruct (comparison_simple fuel pos c0 (and_links ands ++ rest))
    as [pos1 E]; [lia|].
  rewrite E. cbn [mbind outcome_bind].
  destruct (and_tail_links ands fuel pos1 rest Hr) as [pos2 E2]; [lia|].
  rewrite E2. by eexists.
Qed.

Lemma or_tail_links more : forall fuel pos,
  (length more + 6 <= fuel)%nat ->
  exists pos', Parser.or_tail fuel pos (or_links more)
               = Ret (link_nodes more, pos', []).
Proof.
  induction more as [|[t c] more IH]; intros fuel pos Hf.
  - destruct fuel; [simpl in Hf; lia|]. by eexists.
  - destruct fuel as [|fuel]; [lia|]. unfold or_links. rewrite bind_cons.
    cbn [Parser.or_tail fst snd app].
    destruct (and_expr_chain c [] fuel (pos + 1) (or_links more))
      as [pos1 E]; [apply no_and_head_or_links|simpl in *; lia|].
    unfold or_links, and_links in E.
    change ([] ≫= _) with (@nil token) in E. rewrite app_nil_l in E.
    rewrite E.
    cbn [mbind outcome_bind AstTransformer.and_expr link_nodes fmap list_fmap].
    destruct (IH fuel pos1) as [pos2 E2]; [simpl in Hf; lia|].
    unfold or_links in E2. rewrite E2. by eexists.
Qed.

Lemma or_expr_chain c0 ands ors fuel pos :
  (length ands + length ors + 7 <= fuel)%nat ->
  exists pos',
    Parser.or_expr fuel pos
      (simple_tokens c0 ++ and_links ands ++ or_links ors)
    = (AstTransformer.and_expr (simple_node c0) (link_nodes ands)
         ≫= fun first =>
       AstTransformer.or_expr first (link_nodes ors)
         ≫= fun r => Ret (r, pos', [])).
Proof.
  intros Hf. destruct fuel as [|fuel]; [lia|].
  cbn [Parser.or_expr].
  destruct (and_expr_chain c0 ands fuel pos (or_links ors)) as [pos1 E];
    [apply no_and_head_or_links|lia|].
  rewrite E.
  destruct (or_tail_links ors fuel pos1) as [pos2 E2]; [lia|].
  exists pos2.
  destruct (AstTransformer.and_expr _ _) as [first|e]; [|done].
  cbn [mbind outcome_bind]. by rewrite E2.
Qed.

Lemma links_length (f : string * simple -> list token) l :
  (forall p, 1 <= length (f p))%nat -> (length l <= length (l ≫= f))%nat.
Proof.
  intros Hp. induction l as [|p l IH]; [done|].
  rewrite bind_cons, length_app. specialize (Hp p). simpl. lia.
Qed.

(** What the parser makes of [ENTRY: c0 (AND c)* (OR c)*]: the two
    callbacks in turn, on the children read off the text. *)
Lemma parse_entry_text c0 ands ors :
  Parser.parse (entry_text c0 ands ors)
  = (AstTransformer.and_expr (simple_node c0) (link_nodes ands)
       ≫= fun first =>
     AstTransformer.or_expr first (link_nodes ors)
       ≫= fun r => Ret (Strategy [EntryRule r])).
Proof.
  unfold Parser.parse, Parser.fuel_for, entry_text.
  set (ts := simple_tokens c0 ++ and_links ands ++ or_links ors).
  assert (Hlen : (length ands + length ors <= length ts)%nat).
  { unfold ts. rewrite !length_app. unfold and_links, or_links.
    pose proof (links_length (fun p => AND p.1 :: simple_tokens p.2) ands) as H1.
    pose proof (links_length (fun p => OR p.1 :: simple_tokens p.2) ors) as H2.
    simpl in H1, H2. specialize (H1 ltac:(intros; lia)).
    specialize (H2 ltac:(intros; lia)). lia. }
  change (length (ENTRY :: ts)) with (S (length ts)).
  replace (8 * S (length ts) + 8)%nat
    with (S (S (8 * length ts + 14)))%nat by lia.
  cbn [Parser.rules Parser.rule].
  destruct (or_expr_chain c0 ands ors (S (8 * length ts + 14)) (0 + 1))
    as [pos' E]; [lia|].
  fold ts in E. rewrite E.
  destruct (AstTransformer.and_expr _ _) as [first|e]; [|done].
  cbn [mbind outcome_bind].
  destruct (AstTransformer.or_expr _ _) as [r|e]; done.
Qed.

(** The text of [demo.py] parses to a crossover entry and a crossunder
    exit on the two moving averages. *)
Example demo_parses :
  parse_dsl Texts.demo =
    (Some (Strategy
       [EntryRule (CrossOver
                     (Indicator "SMA" [Identifier "close"; Number 10])
                     (Indicator "SMA" [Identifier "close"; Number 30]));
        ExitRule (CrossUnder
                     (Indicator "SMA" [Identifier "close"; Number 30])
                     (Indicator "SMA" [Identifier "close"; Number 10]))]),
     []).
Proof. vm_compute. reflexivity. Qed.

(** The one path on which [and_expr] flattens: its left child is already a
    [LogicalOperation] with the same operator text, and the right child is
    appended to that node's operand list. *)
Example and_expr_appends (op : string) (operands : list node) (c : node) :
  AstTransformer.and_expr (LogicalOperation op operands) [(op, c)]
    = Ret (LogicalOperation op (operands ++ [c])).
Proof. simpl. by rewrite String.eqb_refl. Qed.

(** C1.  A chain of three or more terms never reaches a
    [LogicalOperation]: with two or more [(operator, term)] pairs after
    the first term, both [and_expr] and [or_expr] fail to unpack their
    children ([ValueError]); so [parse_dsl] returns [None] on every rule
    text made of three or more simple comparisons joined by [AND], or by
    [OR], among them ["ENTRY: a > 1 AND b > 2 AND c > 3"] and the same
    chain written with [OR]. *)
Theorem chain_of_three_rejected :
  (forall first p1 p2 rest,
      AstTransformer.and_expr first (p1 :: p2 :: rest) = Raise ValueError /\
      AstTransformer.or_expr first (p1 :: p2 :: rest) = Raise ValueError) /\
  (forall c0 p1 p2 more,
      (parse_dsl (entry_text c0 (p1 :: p2 :: more) [])).1 = None /\
      (parse_dsl (entry_text c0 [] (p1 :: p2 :: more))).1 = None) /\
  (parse_dsl Texts.and_chain3).1 = None /\
  (parse_dsl Texts.or_chain3).1 = None.
Proof.
  split; [|split; [|split; vm_compute; reflexivity]].
  - intros first [op1 t1] p2 rest. split; reflexivity.
  - intros c0 [t1 c1] [t2 c2] more. unfold parse_dsl.
    rewrite !parse_entry_text. split; reflexivity.
Qed.

(** C2.  [or_expr] never builds a node from two terms: it calls
    [LogicalOperation] with three arguments, a [TypeError]; with any
    [(operator, term)] pair after the first term it raises.  So
    [parse_dsl] returns [None] on every rule text in which simple
    comparisons joined by [AND] (or a single one) are followed by an [OR]
    and further comparisons, among them
    ["ENTRY: a > 1 AND b > 2 OR c > 3"]. *)
Theorem or_of_and_rejected :
  (forall first op right_, AstTransformer.or_expr first [(op, right_)]
                            = Raise TypeError) /\
  (forall first p rest, raises (AstTransformer.or_expr first (p :: rest))) /\
  (forall c0 ands p more,
      (parse_dsl (entry_text c0 ands (p :: more))).1 = None) /\
  (parse_dsl Texts.and_or).1 = None.
Proof.
  split; [done|]. split; [|split; [|vm_compute; reflexivity]].
  - intros first [op t] [|p rest]; by eexists.
  - intros c0 ands [t c] more. unfold parse_dsl. rewrite parse_entry_text.
    destruct (AstTransformer.and_expr _ _) as [first|e]; [|done].
    destruct more; reflexivity.
Qed.

(** C3, as stated, fails on ["ENTRY: close >"]: the value returned is
    [None], which carries neither a position nor a message, and a line was
    printed. *)
Lemma malformed_text_returns_none :
  parse_dsl Texts.truncated
    = (None, [ErrorParsingDSL (UnexpectedInput 3)]).
Proof. vm_compute. reflexivity. Qed.

(** C3 (amended).  On every token stream [parse_dsl] either returns a
    [Strategy] holding one rule node per ENTRY:/EXIT: keyword of the text,
    in order and of the keyword's kind, and prints nothing; or it returns
    [None] after printing one line that names the exception.  It never
    raises, and the recursion budget of the embedding is never the reason
    for a failure. *)
Theorem parse_dsl_total (dsl : list token) :
  (exists rules,
      parse_dsl dsl = (Some (Strategy rules), []) /\
      rules <> [] /\
      node_kind <$> rules = Some <$> rule_kinds dsl) \/
  (exists e, parse_dsl dsl = (None, [ErrorParsingDSL e]) /\ e <> Fuel).
Proof.
  unfold parse_dsl, Parser.parse.
  assert (H := rules_complete (Parser.fuel_for dsl) 0 dsl).
  destruct (Parser.rules (Parser.fuel_for dsl) 0 dsl) as [rs|e]; simpl.
  - left. exists rs. destruct H as [H1 H2]; [unfold Parser.fuel_for; lia|].
    done.
  - right. exists e. split; [done|]. apply H. unfold Parser.fuel_for; lia.
Qed.

End ParserFacts.

(* --------------------------------------------------------------------- *)
(** ** The generated code and its evaluation *)
(* --------------------------------------------------------------------- *)

Section SignalFacts.

Import Pandas.

Lemma shift1_length xs : length (shift1 xs) = length xs.
Proof. unfold shift1. rewrite length_take. simpl. lia. Qed.

Lemma shift1_lookup_0 xs x : shift1 xs !! 0%nat = Some x -> x = None.
Proof.
  unfold shift1. destruct xs as [|y ys]; simpl; [done|]. by intros [= <-].
Qed.

Lemma shift1_lookup_S xs i x :
  xs !! S i = Some x -> shift1 xs !! S i = xs !! i.
Proof.
  intros H. unfold shift1. apply lookup_lt_Some in H.
  rewrite lookup_take_lt by lia. done.
Qed.

Lemma Qlt_bool_iff x y : Qlt_bool x y = true <-> (x < y)%Q.
Proof.
  unfold Qlt_bool. rewrite negb_true_iff.
  destruct (Qle_bool y x) eqn:E.
  - apply Qle_bool_iff in E. split; [done|]. intros H. exfalso.
    by apply (Qlt_not_le x y).
  - split; [intros _|done]. apply Qnot_le_lt. intros H.
    apply Qle_bool_iff in H. congruence.
Qed.

Lemma Qlt_bool_false x y : Qlt_bool x y = false <-> (y <= x)%Q.
Proof. unfold Qlt_bool. rewrite negb_false_iff. apply Qle_bool_iff. Qed.

(** C4.  On a frame whose columns [lname] and [rname] hold the numeric
    sequences [left] and [right] of equal length, the signal of
    [CrossOver(lname, rname)] is a boolean sequence of that length, false
    at index 0, and true at index [i + 1] iff
    [left[i+1] > right[i+1]] and [left[i] <= right[i]]; for
    [left = [1,3,2,5]] and [right = [2,2,3,3]] it is
    [[false, true, false, true]]. *)
Theorem crossover_signal (str_float : Q -> string) (df : frame)
    (lname rname : string) (left right : list Q) :
  df !! lname = Some (Some <$> left) ->
  df !! rname = Some (Some <$> right) ->
  length left = length right ->
  (exists bs,
    signal_of str_float df (CrossOver (Identifier lname) (Identifier rname))
      = Ret (VMask bs) /\
    length bs = length left /\
    (forall b, bs !! 0%nat = Some b -> b = false) /\
    (forall i x y x' y',
        left !! i = Some x' -> right !! i = Some y' ->
        left !! S i = Some x -> right !! S i = Some y ->
        bs !! S i = Some true <-> (y < x)%Q /\ (x' <= y')%Q)) /\
  signal_of str_float Examples.crossover_frame
      (CrossOver (Identifier "left") (Identifier "right"))
    = Ret (VMask [false; true; false; true]).
Proof.
  intros Hl Hr Hlen. split; [|by vm_compute].
  unfold signal_of. simpl. rewrite Hl, Hr. simpl.
  eexists. split; [reflexivity|].
  split.
  { rewrite !length_zip_with, !shift1_length, !length_fmap. lia. }
  split.
  { intros b. rewrite !lookup_zip_with. intros H.
    destruct ((Some <$> left) !! 0%nat) as [a|] eqn:Ea; simpl in H; [|done].
    destruct ((Some <$> right) !! 0%nat) as [c|] eqn:Ec; simpl in H; [|done].
    destruct (shift1 (Some <$> left) !! 0%nat) as [a'|] eqn:Ea';
      simpl in H; [|done].
    destruct (shift1 (Some <$> right) !! 0%nat) as [c'|] eqn:Ec';
      simpl in H; [|done].
    apply shift1_lookup_0 in Ea'. subst a'. simpl in H.
    injection H as <-. apply andb_false_r. }
  intros i x y x' y' Hx' Hy' Hx Hy.
  rewrite !lookup_zip_with.
  assert (HL : (Some <$> left) !! S i = Some (Some x))
    by (by rewrite list_lookup_fmap, Hx).
  assert (HR : (Some <$> right) !! S i = Some (Some y))
    by (by rewrite list_lookup_fmap, Hy).
  rewrite (shift1_lookup_S _ _ _ HL), (shift1_lookup_S _ _ _ HR), HL, HR.
  rewrite !list_lookup_fmap, Hx', Hy'. simpl.
  split.
  - intros [= H]. apply andb_true_iff in H as [H1 H2].
    split; [by apply Qlt_bool_iff|by apply Qle_bool_iff].
  - intros [H1 H2]. f_equal. apply andb_true_iff.
    split; [by apply Qlt_bool_iff|by apply Qle_bool_iff].
Qed.

(** C4 on the frame with [left = [1,3,2,5]] and [right = [2,2,3,3]]. *)
Lemma crossover_signal_witness :
  Examples.crossover_frame !! "left" = Some (Some <$> [1; 3; 2; 5]%Q) /\
  Examples.crossover_frame !! "right" = Some (Some <$> [2; 2; 3; 3]%Q) /\
  signal_of str_float Examples.crossover_frame
      (CrossOver (Identifier "left") (Identifier "right"))
    = Ret (VMask [false; true; false; true]).
Proof.
  split; [reflexivity|]. split; [reflexivity|].
  apply (crossover_signal str_float Examples.crossover_frame "left" "right"
           [1; 3; 2; 5]%Q [2; 2; 3; 3]%Q); reflexivity.
Defined.

(** C8.  [visit_Cross] and [visit_CrossOver] produce the same code in the
    same generator state, hence the same signal on every frame, and so on
    every pair of sequences held by two columns: on
    [left = [1,3,2,5]], [right = [2,2,3,3]] the signal of [Cross] is the
    [[false, true, false, true]] of [CrossOver]. *)
Theorem cross_is_crossover (str_float : Q -> string) (l r : node)
    (g : PandasCodeGenerator.self) (df : frame) :
  PandasCodeGenerator.visit str_float (Cross l r) g
    = PandasCodeGenerator.visit str_float (CrossOver l r) g /\
  signal_of str_float df (Cross l r)
    = signal_of str_float df (CrossOver l r) /\
  signal_of str_float Examples.crossover_frame
      (Cross (Identifier "left") (Identifier "right"))
    = Ret (VMask [false; true; false; true]).
Proof. split; [reflexivity|]. split; [reflexivity|by vm_compute]. Qed.

End SignalFacts.

(* --------------------------------------------------------------------- *)
(** ** The code generator *)
(* --------------------------------------------------------------------- *)

(** Induction over nodes, with the hypothesis available for every element
    of a node's list of children. *)
Lemma node_induction (P : node -> Prop) :
  (forall rules, Forall P rules -> P (Strategy rules)) ->
  (forall c, P c -> P (EntryRule c)) ->
  (forall c, P c -> P (ExitRule c)) ->
  (forall op operands, Forall P operands -> P (LogicalOperation op operands)) ->
  (forall op l r, P l -> P r -> P (Comparison op l r)) ->
  (forall l r, P l -> P r -> P (Cross l r)) ->
  (forall l r, P l -> P r -> P (CrossOver l r)) ->
  (forall l r, P l -> P r -> P (CrossUnder l r)) ->
  (forall name ps, Forall P ps -> P (Indicator name ps)) ->
  (forall name, P (Identifier name)) ->
  (forall v, P (Number v)) ->
  forall n, P n.
Proof.
  intros HS HE HX HL HC HCr HCo HCu HI HId HN.
  fix IH 1. intros n.
  pose (all := fix all (ns : list node) : Forall P ns :=
    match ns with
    | [] => Forall_nil_2 P
    | x :: xs => Forall_cons_2 P x xs (IH x) (all xs)
    end).
  destruct n.
  - apply HS, all.
  - apply HE, IH.
  - apply HX, IH.
  - apply HL, all.
  - apply HC; apply IH.
  - apply HCr; apply IH.
  - apply HCo; apply IH.
  - apply HCu; apply IH.
  - apply HI, all.
  - apply HId.
  - apply HN.
Qed.

Section GeneratorFacts.

Import PandasCodeGenerator.

Variable sf : Q -> string.

Lemma params_strs_atoms ps ss : params_strs sf ps = Ret ss -> Forall is_atom ps.
Proof.
  revert ss. induction ps as [|p ps IH]; intros ss H; [constructor|].
  simpl in H. destruct (param_str sf p) as [s|e] eqn:Ep; simpl in H; [|done].
  destruct (params_strs sf ps) as [ss'|e] eqn:Eps; simpl in H; [|done].
  constructor; [|by eapply IH]. by destruct p.
Qed.

Lemma atoms_params_strs ps : Forall is_atom ps -> returns (params_strs sf ps).
Proof.
  induction 1 as [|p ps Hp _ [ss IH]]; [by eexists|].
  simpl. rewrite IH. destruct p; try done; by eexists.
Qed.

Lemma col_name_atoms name ps col :
  indicator_col_name sf name ps = Ret col -> Forall is_atom ps.
Proof.
  unfold indicator_col_name. intros H.
  destruct (params_strs sf ps) as [ss|e] eqn:E; simpl in H; [|done].
  by eapply params_strs_atoms.
Qed.

Lemma visit_each_atoms ps g :
  Forall is_atom ps -> visit_each (visit sf) ps g = Ret (atom_code <$> ps, g).
Proof.
  induction 1 as [|p ps Hp _ IH]; [done|].
  simpl. destruct p; try done; simpl; by rewrite IH.
Qed.

(** *** The code of a node does not depend on the generator's state *)

(** Two visits in sequence, as in [visit_Comparison] and the cross forms. *)
Ltac visit_pair IHl IHr g1 g2 :=
  let c := fresh "c" in
  let g1' := fresh "g" in
  let g2' := fresh "g" in
  simpl; specialize (IHl g1 g2); unfold code_only in *;
  destruct (visit sf _ g1) as [[c g1']|?], (visit sf _ g2) as [[? g2']|?];
    simpl in *; try congruence;
  injection IHl as ->; specialize (IHr g1' g2');
  destruct (visit sf _ g1') as [[? ?]|?], (visit sf _ g2') as [[? ?]|?];
    simpl in *; congruence.

Lemma visit_each_code_indep ns :
  Forall (fun n => forall g1 g2,
            code_only (visit sf n g1) = code_only (visit sf n g2)) ns ->
  forall g1 g2, codes_only (visit_each (visit sf) ns g1)
              = codes_only (visit_each (visit sf) ns g2).
Proof.
  induction 1 as [|n ns Hn _ IH]; intros g1 g2; [done|].
  simpl. specialize (Hn g1 g2). unfold code_only in Hn.
  destruct (visit sf n g1) as [[c1 g1']|e1], (visit sf n g2) as [[c2 g2']|e2];
    simpl in *; try congruence.
  injection Hn as ->. specialize (IH g1' g2'). unfold codes_only in IH.
  destruct (visit_each (visit sf) ns g1') as [[cs1 ?]|?],
           (visit_each (visit sf) ns g2') as [[cs2 ?]|?];
    simpl in *; congruence.
Qed.

Lemma visit_code_indep n : forall g1 g2,
  code_only (visit sf n g1) = code_only (visit sf n g2).
Proof.
  induction n as [rules _|c _|c _|op operands IH|op l r IHl IHr|l r IHl IHr
                 |l r IHl IHr|l r IHl IHr|name ps _|name|v]
    using node_induction;
    intros g1 g2; try done.
  - simpl. pose proof (visit_each_code_indep _ IH g1 g2) as H.
    unfold codes_only in H.
    destruct (visit_each (visit sf) operands g1) as [[cs1 ?]|?],
             (visit_each (visit sf) operands g2) as [[cs2 ?]|?];
      simpl in *; congruence.
  - visit_pair IHl IHr g1 g2.
  - visit_pair IHl IHr g1 g2.
  - visit_pair IHl IHr g1 g2.
  - visit_pair IHl IHr g1 g2.
  - simpl. destruct (indicator_col_name sf name ps) as [col|e] eqn:Ec;
      simpl; [|done].
    apply col_name_atoms in Ec.
    rewrite !visit_each_atoms by done. simpl.
    by repeat case_bool_decide.
Qed.

Lemma visit_code_of n g c g' :
  visit sf n g = Ret (c, g') -> code_of sf n = Ret c.
Proof.
  intros H. pose proof (visit_code_indep n fresh g) as E.
  unfold code_only in E. rewrite H in E. simpl in E. exact E.
Qed.

(** *** [visit] returns on the nodes it has methods for *)

Lemma visitable_operands op operands :
  visitable (LogicalOperation op operands) <-> Forall visitable operands.
Proof.
  simpl. induction operands as [|n ns IH]; [by split|].
  rewrite Forall_cons. by rewrite IH.
Qed.

Lemma visit_each_returns ns :
  Forall (fun n => visitable n -> forall g, returns (visit sf n g)) ns ->
  Forall visitable ns -> forall g, returns (visit_each (visit sf) ns g).
Proof.
  induction 1 as [|n ns Hn _ IH]; intros Hv g; [by eexists|].
  apply Forall_cons in Hv as [Hv1 Hv2].
  simpl. destruct (Hn Hv1 g) as [[c g1] ->]. simpl.
  destruct (IH Hv2 g1) as [[cs g2] ->]. by eexists.
Qed.

Lemma visit_returns n : visitable n -> forall g, returns (visit sf n g).
Proof.
  induction n as [rules _|c _|c _|op operands IH|op l r IHl IHr|l r IHl IHr
                 |l r IHl IHr|l r IHl IHr|name ps _|name|v]
    using node_induction;
    intros Hv g; try done;
    try (simpl; destruct (IHl (proj1 Hv) g) as [[c1 g1] ->]; simpl;
         destruct (IHr (proj2 Hv) g1) as [[c2 g2] ->]; by eexists);
    try (by eexists).
  - apply visitable_operands in Hv. simpl.
    destruct (visit_each_returns _ IH Hv g) as [[cs g1] ->]. by eexists.
  - simpl in Hv. simpl. unfold indicator_col_name.
    destruct (atoms_params_strs ps Hv) as [ss ->]. simpl.
    rewrite visit_each_atoms by done. simpl.
    case_bool_decide; by eexists.
Qed.

Lemma generate_rules_returns rules : forall e x g,
  Forall visitable (omap rule_condition rules) ->
  returns (generate_rules sf rules e x g).
Proof.
  induction rules as [|r rules IH]; intros e x g Hv; [by eexists|].
  destruct r; simpl in *; try (by apply IH).
  - apply Forall_cons in Hv as [Hv1 Hv2].
    destruct (visit_returns _ Hv1 g) as [[c g1] ->]. simpl. by apply IH.
  - apply Forall_cons in Hv as [Hv1 Hv2].
    destruct (visit_returns _ Hv1 g) as [[c g1] ->]. simpl. by apply IH.
Qed.

Lemma generate_returns rules :
  Forall visitable (omap rule_condition rules) ->
  returns (generate sf (Strategy rules)).
Proof.
  intros Hv. unfold generate.
  destruct (generate_rules_returns rules PFalse PFalse fresh Hv)
    as [[[e x] g] ->].
  by eexists.
Qed.

(** *** The last rule of each kind *)

Lemma last_condition_cons kind r rules :
  last_condition kind (r :: rules) =
    match last_condition kind rules with
    | Some c => Some c
    | None => condition_of kind r
    end.
Proof.
  unfold last_condition. simpl.
  destruct (condition_of kind r) as [c|]; [|by destruct (last _)].
  rewrite last_cons. by destruct (last _).
Qed.

Lemma generate_rules_last rules : forall e x g e' x' g',
  generate_rules sf rules e x g = Ret (e', x', g') ->
  match last_condition true rules with
  | Some c => code_of sf c = Ret e'
  | None => e' = e
  end /\
  match last_condition false rules with
  | Some c => code_of sf c = Ret x'
  | None => x' = x
  end.
Proof.
  induction rules as [|r rules IH]; intros e x g e' x' g' H.
  - simpl in H. by injection H as -> -> ->.
  - rewrite !last_condition_cons.
    destruct r; simpl in H; try (apply IH in H; destruct H as [H1 H2];
      split; [by destruct (last_condition true rules)
             |by destruct (last_condition false rules)]).
    + destruct (visit sf r g) as [[code g1]|err] eqn:Ev; simpl in H; [|done].
      apply IH in H. destruct H as [H1 H2]. split.
      * destruct (last_condition true rules); [done|]. subst e'. simpl.
        by eapply visit_code_of.
      * by destruct (last_condition false rules).
    + destruct (visit sf r g) as [[code g1]|err] eqn:Ev; simpl in H; [|done].
      apply IH in H. destruct H as [H1 H2]. split.
      * by destruct (last_condition true rules).
      * destruct (last_condition false rules); [done|]. subst x'. simpl.
        by eapply visit_code_of.
Qed.

Lemma visit_returns_iff n g :
  returns (visit sf n g) <-> returns (code_of sf n).
Proof.
  pose proof (visit_code_indep n g fresh) as H.
  unfold code_of, code_only in *.
  destruct (visit sf n g) as [[c g1]|e], (visit sf n fresh) as [[c' g2]|e'];
    simpl in *; try done; split; intros [a Ha]; try done; by eexists.
Qed.

Lemma generate_rules_returns_iff rules : forall e x g,
  returns (generate_rules sf rules e x g) <->
  Forall (fun c => returns (code_of sf c)) (omap rule_condition rules).
Proof.
  induction rules as [|r rules IH]; intros e x g.
  { split; [constructor|by eexists]. }
  destruct r; simpl; try apply IH.
  - rewrite Forall_cons, <- (visit_returns_iff r g).
    destruct (visit sf r g) as [[c g1]|err]; simpl.
    + rewrite IH. split; [by split; [eexists|]|by intros [_ ?]].
    + split; [by intros [? ?]|by intros [[? ?] _]].
  - rewrite Forall_cons, <- (visit_returns_iff r g).
    destruct (visit sf r g) as [[c g1]|err]; simpl.
    + rewrite IH. split; [by split; [eexists|]|by intros [_ ?]].
    + split; [by intros [? ?]|by intros [[? ?] _]].
Qed.

End GeneratorFacts.

(* --------------------------------------------------------------------- *)
(** ** Memoisation of indicator columns *)
(* --------------------------------------------------------------------- *)

Section MemoFacts.

Import PandasCodeGenerator.

Variable sf : Q -> string.

Lemma extends_refl g : consistent g -> extends sf [] g g.
Proof.
  intros H. split; [done|]. split; [|split; [done|constructor]].
  exists []. split; [by rewrite app_nil_r|constructor].
Qed.

Lemma from_nodes_mono inds inds' st :
  inds ⊆ inds' -> from_nodes sf inds st -> from_nodes sf inds' st.
Proof. intros Hs (ind & Hin & Ho). exists ind. split; [by apply Hs|done]. Qed.

Lemma cached_in_mono g g' ind :
  generated_indicators g ⊆ generated_indicators g' ->
  cached_in sf g ind -> cached_in sf g' ind.
Proof. intros Hs (col & Hc & Hin). exists col. split; [done|by apply Hs]. Qed.

Lemma extends_trans inds1 inds2 g1 g2 g3 :
  extends sf inds1 g1 g2 -> extends sf inds2 g2 g3 ->
  extends sf (inds1 ++ inds2) g1 g3.
Proof.
  intros (_ & (n1 & E1 & F1) & S1 & C1) (I3 & (n2 & E2 & F2) & S2 & C2).
  split; [done|]. split; [|split].
  - exists (n1 ++ n2). split; [by rewrite E2, E1, app_assoc|].
    apply Forall_app. split.
    + eapply Forall_impl; [exact F1|]. intros st. apply from_nodes_mono.
      intros x Hx. apply elem_of_app. by left.
    + eapply Forall_impl; [exact F2|]. intros st. apply from_nodes_mono.
      intros x Hx. apply elem_of_app. by right.
  - by etrans.
  - apply Forall_app. split; [|done].
    eapply Forall_impl; [exact C1|]. intros ind. by apply cached_in_mono.
Qed.

Lemma indicator_nodes_all ns :
  (fix all (ns : list node) : list (string * list node) :=
     match ns with
     | [] => []
     | x :: xs => (indicator_nodes x ++ all xs)%list
     end) ns = ns ≫= indicator_nodes.
Proof. induction ns as [|n ns IH]; [done|]. by rewrite bind_cons, IH. Qed.

Lemma atoms_no_indicators ps :
  Forall is_atom ps -> ps ≫= indicator_nodes = [].
Proof.
  induction 1 as [|p ps Hp _ IH]; [done|]. rewrite bind_cons, IH.
  by destruct p.
Qed.

Lemma visit_each_extends ns :
  Forall (fun n => forall g c g', visit sf n g = Ret (c, g') -> consistent g ->
                     extends sf (indicator_nodes n) g g') ns ->
  forall g cs g', visit_each (visit sf) ns g = Ret (cs, g') -> consistent g ->
    extends sf (ns ≫= indicator_nodes) g g'.
Proof.
  induction 1 as [|n ns Hn _ IH]; intros g cs g' H HI.
  - simpl in H. injection H as <- <-. by apply extends_refl.
  - simpl in H.
    destruct (visit sf n g) as [[c g1]|e] eqn:E1; simpl in H; [|done].
    destruct (visit_each (visit sf) ns g1) as [[cs' g2]|e] eqn:E2;
      simpl in H; [|done].
    injection H as <- <-. rewrite bind_cons.
    pose proof (Hn _ _ _ E1 HI) as X1.
    eapply extends_trans; [exact X1|]. eapply IH; [exact E2|]. apply X1.
Qed.

Lemma visit_pair_extends l r g c1 g1 c2 g2 :
  (forall g c g', visit sf l g = Ret (c, g') -> consistent g ->
      extends sf (indicator_nodes l) g g') ->
  (forall g c g', visit sf r g = Ret (c, g') -> consistent g ->
      extends sf (indicator_nodes r) g g') ->
  visit sf l g = Ret (c1, g1) -> visit sf r g1 = Ret (c2, g2) ->
  consistent g ->
  extends sf (indicator_nodes l ++ indicator_nodes r) g g2.
Proof.
  intros Hl Hr E1 E2 HI. pose proof (Hl _ _ _ E1 HI) as X1.
  eapply extends_trans; [exact X1|]. eapply Hr; [exact E2|]. apply X1.
Qed.

Lemma own_statement_atoms name ps col :
  indicator_col_name sf name ps = Ret col ->
  own_statement sf (name, ps)
    = Ret (Assign col (lower name) (atom_code <$> ps)).
Proof.
  intros H. unfold own_statement. simpl. rewrite H. simpl.
  apply col_name_atoms in H. by rewrite visit_each_atoms.
Qed.

(** Both operands visited in turn. *)
Ltac two_visits H l r g :=
  let g1 := fresh "g" in
  let E1 := fresh "El" in
  let E2 := fresh "Er" in
  simpl in H;
  destruct (visit sf l g) as [[? g1]|?] eqn:E1; simpl in H; [|done];
  destruct (visit sf r g1) as [[? ?]|?] eqn:E2; simpl in H; [|done];
  injection H as <- <-; by eapply visit_pair_extends.

Lemma visit_extends n : forall g c g',
  visit sf n g = Ret (c, g') -> consistent g ->
  extends sf (indicator_nodes n) g g'.
Proof.
  induction n as [rules _|c _|c _|op operands IH|op l r IHl IHr|l r IHl IHr
                 |l r IHl IHr|l r IHl IHr|name ps _|name|v]
    using node_induction;
    intros g c0 g' H HI; try done.
  - simpl in H.
    destruct (visit_each (visit sf) operands g) as [[cs g1]|e] eqn:E;
      simpl in H; [|done].
    injection H as <- <-. simpl. rewrite indicator_nodes_all.
    by eapply visit_each_extends.
  - two_visits H l r g.
  - two_visits H l r g.
  - two_visits H l r g.
  - two_visits H l r g.
  - simpl in H.
    destruct (indicator_col_name sf name ps) as [col|e] eqn:Ec;
      simpl in H; [|done].
    pose proof (col_name_atoms _ _ _ _ Ec) as Hat.
    simpl. rewrite indicator_nodes_all, atoms_no_indicators by done.
    case_bool_decide as Hin.
    + injection H as <- <-. split; [done|]. split; [|split; [done|]].
      * exists []. split; [by rewrite app_nil_r|constructor].
      * constructor; [|constructor]. by exists col.
    + rewrite visit_each_atoms in H by done. simpl in H.
      injection H as <- <-. destruct HI as [Hset Hnd].
      split; [|split; [|split]].
      * split; simpl.
        -- unfold targets. rewrite fmap_app, list_to_set_app_L. simpl.
           rewrite Hset, (right_id_L ∅ (∪)). apply (comm_L (∪)).
        -- unfold targets. rewrite fmap_app. apply NoDup_app.
           split; [done|]. split; [|apply NoDup_singleton].
           intros x Hx Hx'. simpl in Hx'. apply list_elem_of_singleton in Hx'.
           subst x. apply Hin. rewrite Hset. by apply elem_of_list_to_set.
      * simpl. eexists. split; [done|]. constructor; [|constructor].
        exists (name, ps). split; [by apply list_elem_of_singleton|].
        by apply own_statement_atoms.
      * simpl. apply union_subseteq_r.
      * constructor; [|constructor]. exists col. split; [done|].
        simpl. apply elem_of_union_l. by apply elem_of_singleton.
  - simpl in H. injection H as <- <-. by apply extends_refl.
  - simpl in H. injection H as <- <-. by apply extends_refl.
Qed.

Lemma strategy_indicators_cons r rules :
  strategy_indicators (r :: rules) =
    match rule_condition r with
    | Some c => indicator_nodes c ++ strategy_indicators rules
    | None => strategy_indicators rules
    end.
Proof.
  unfold strategy_indicators. simpl.
  destruct (rule_condition r); [by rewrite bind_cons|done].
Qed.

Lemma generate_rules_extends rules : forall e x g e' x' g',
  generate_rules sf rules e x g = Ret (e', x', g') -> consistent g ->
  extends sf (strategy_indicators rules) g g'.
Proof.
  induction rules as [|r rules IH]; intros e x g e' x' g' H HI.
  - simpl in H. injection H as <- <- <-. by apply extends_refl.
  - rewrite strategy_indicators_cons.
    destruct r; simpl in H; try (by eapply IH).
    + destruct (visit sf r g) as [[code g1]|err] eqn:Ev; simpl in H; [|done].
      pose proof (visit_extends _ _ _ _ Ev HI) as X1.
      eapply extends_trans; [exact X1|]. eapply IH; [exact H|]. apply X1.
    + destruct (visit sf r g) as [[code g1]|err] eqn:Ev; simpl in H; [|done].
      pose proof (visit_extends _ _ _ _ Ev HI) as X1.
      eapply extends_trans; [exact X1|]. eapply IH; [exact H|]. apply X1.
Qed.

Lemma consistent_fresh : consistent fresh.
Proof. split; [done|constructor]. Qed.

Lemma computations_none (code : list stmt) (col : string) :
  col ∉ targets code -> computations col code = [].
Proof.
  unfold computations, targets.
  induction code as [|s code IH]; intros Hn; [done|].
  rewrite fmap_cons in Hn. apply not_elem_of_cons in Hn as [Hs Hn].
  rewrite filter_cons_False by (intros E; by apply Hs). by apply IH.
Qed.

Lemma computations_unique (code : list stmt) (st : stmt) :
  NoDup (targets code) -> st ∈ code -> computations (target st) code = [st].
Proof.
  unfold targets.
  induction code as [|s code IH]; intros Hnd Hin;
    [by apply elem_of_nil in Hin|].
  rewrite fmap_cons in Hnd. apply NoDup_cons in Hnd as [Hs Hnd].
  unfold computations in *.
  apply elem_of_cons in Hin as [->|Hin].
  - rewrite filter_cons_True by done. f_equal. by apply computations_none.
  - rewrite filter_cons_False; [by apply IH|].
    intros E. apply Hs. rewrite E. by apply list_elem_of_fmap_2.
Qed.

Lemma own_statement_target ind st :
  own_statement sf ind = Ret st ->
  indicator_col_name sf ind.1 ind.2 = Ret (target st).
Proof.
  unfold own_statement. intros H.
  destruct (indicator_col_name sf ind.1 ind.2) as [col|e]; simpl in H; [|done].
  destruct (visit_each _ _ _) as [[pc g]|e]; simpl in H; [|done].
  by injection H as <-.
Qed.

(** X23.  When a strategy is made of rules whose conditions
    [visit] has methods for, [generate] returns; and whenever it returns,
    no column is assigned by two lines of the indicator code, and for
    every [Indicator] node of the rule conditions, however often it
    occurs: its column name is defined, every reference to it is the read
    [df[col]] of that column, and exactly one line of the indicator code
    assigns that column.  That line is the computation of an indicator of
    the strategy with this column name; it is the node's own computation
    whenever all indicators of the strategy with this column name have the
    same computation. *)
Theorem indicator_memoized (rules : list node) :
  (Forall visitable (omap rule_condition rules) ->
   returns (generate sf (Strategy rules))) /\
  (forall r, generate sf (Strategy rules) = Ret r ->
     NoDup (target <$> indicators r) /\
     forall ind, ind ∈ strategy_indicators rules ->
       exists col st,
         indicator_col_name sf ind.1 ind.2 = Ret col /\
         code_of sf (Indicator ind.1 ind.2) = Ret (PCol col) /\
         computations col (indicators r) = [st] /\
         (exists ind', ind' ∈ strategy_indicators rules /\
                       indicator_col_name sf ind'.1 ind'.2 = Ret col /\
                       own_statement sf ind' = Ret st) /\
         ((forall ind', ind' ∈ strategy_indicators rules ->
              indicator_col_name sf ind'.1 ind'.2 = Ret col ->
              own_statement sf ind' = own_statement sf ind) ->
          own_statement sf ind = Ret st)).
Proof.
  split; [apply generate_returns|].
  unfold generate. intros r H.
  destruct (generate_rules sf rules PFalse PFalse fresh)
    as [[[e x] g]|err] eqn:E; simpl in H; [|done].
  injection H as <-. simpl.
  destruct (generate_rules_extends _ _ _ _ _ _ _ E consistent_fresh)
    as ([Hset Hnd] & (new & Hnew & Hfrom) & _ & Hc).
  simpl in Hnew. subst new. split; [done|].
  intros ind Hind.
  rewrite Forall_forall in Hc. destruct (Hc ind Hind) as (col & Hcol & Hin).
  rewrite Hset in Hin. apply elem_of_list_to_set in Hin.
  apply list_elem_of_fmap in Hin as (st & -> & Hst).
  exists (target st), st. split; [done|]. split.
  { unfold code_of. simpl. rewrite Hcol. simpl.
    rewrite bool_decide_eq_false_2 by apply not_elem_of_empty.
    rewrite visit_each_atoms by (by eapply col_name_atoms). done. }
  split; [by apply computations_unique|].
  rewrite Forall_forall in Hfrom. destruct (Hfrom st Hst) as (ind' & Hin' & Ho).
  split.
  - exists ind'. split; [done|]. split; [by apply own_statement_target|done].
  - intros Hsame. rewrite <- (Hsame ind' Hin'); [done|].
    by apply own_statement_target.
Qed.

(** C9 (amended).  [generate] visits every rule, so it returns exactly
    when the condition of every rule, the earlier ones included, can be
    visited; it does when [visit] has methods for all of them.  Whenever it returns, the entry expression is the code of the
    condition of the last [EntryRule] alone (as a fresh generator produces
    it), or [False] when there is none, and likewise for the exit
    expression and the last [ExitRule]; and the indicator code assigns the
    column of every indicator of every rule, the earlier ones included. *)
Theorem last_rule_wins (rules : list node) :
  (Forall visitable (omap rule_condition rules) ->
   returns (generate sf (Strategy rules))) /\
  (returns (generate sf (Strategy rules)) <->
   Forall (fun c => returns (code_of sf c)) (omap rule_condition rules)) /\
  (forall r, generate sf (Strategy rules) = Ret r ->
     match last_condition true rules with
     | Some c => code_of sf c = Ret (entry r) /\
                 forall df, signal_of sf df c = Pandas.eval df (entry r)
     | None => entry r = PFalse
     end /\
     match last_condition false rules with
     | Some c => code_of sf c = Ret (exit r) /\
                 forall df, signal_of sf df c = Pandas.eval df (exit r)
     | None => exit r = PFalse
     end /\
     forall ind, ind ∈ strategy_indicators rules ->
       exists col, indicator_col_name sf ind.1 ind.2 = Ret col /\
                   col ∈ target <$> indicators r).
Proof.
  split; [apply generate_returns|]. split.
  { rewrite <- (generate_rules_returns_iff sf rules PFalse PFalse fresh).
    unfold generate.
    destruct (generate_rules sf rules PFalse PFalse fresh) as [[[e x] g]|err];
      simpl; split; intros [a Ha]; try done; by eexists. }
  unfold generate. intros r H.
  destruct (generate_rules sf rules PFalse PFalse fresh)
    as [[[e x] g]|err] eqn:E; simpl in H; [|done].
  injection H as <-. simpl.
  pose proof (generate_rules_extends _ _ _ _ _ _ _ E consistent_fresh)
    as ([Hset _] & _ & _ & Hc).
  apply generate_rules_last in E as [He Hx].
  assert (Hsig : forall c code, code_of sf c = Ret code ->
            forall df, signal_of sf df c = Pandas.eval df code).
  { intros c code Hc' df. unfold code_of, signal_of in *.
    destruct (visit sf c fresh) as [[c' g']|?]; simpl in *; [|done].
    by injection Hc' as ->. }
  split; [|split].
  - destruct (last_condition true rules); [|done]. split; [done|by apply Hsig].
  - destruct (last_condition false rules); [|done]. split; [done|by apply Hsig].
  - intros ind Hind. rewrite Forall_forall in Hc.
    destruct (Hc ind Hind) as (col & Hcol & Hin).
    exists col. split; [done|]. rewrite Hset in Hin.
    by apply elem_of_list_to_set in Hin.
Qed.

End MemoFacts.


(** C9 (amended) at
    ["ENTRY: close > 100"  "ENTRY: volume > 5"  "EXIT: close < 90"]:
    the entry expression is the code of [volume > 5]. *)
Lemma last_rule_wins_witness :
  Forall visitable (omap rule_condition Examples.two_entries) /\
  PandasCodeGenerator.generate str_float (Strategy Examples.two_entries)
    = Ret Examples.two_entries_code /\
  code_of str_float (Comparison ">" (Identifier "volume") (Number 5))
    = Ret (entry Examples.two_entries_code) /\
  code_of str_float (Comparison "<" (Identifier "close") (Number 90))
    = Ret (exit Examples.two_entries_code).
Proof.
  split; [repeat constructor|]. split; [reflexivity|].
  destruct (proj2 (proj2 (last_rule_wins str_float Examples.two_entries))
              Examples.two_entries_code eq_refl) as ([H1 _] & [H2 _] & _).
  split; [exact H1|exact H2].
Defined.

(** C9, as stated, fails on
    ["ENTRY: SMA(RSI(close, 14), 5) > 50"  "ENTRY: close > 100"]: the text
    parses, and the earlier rule makes [generate] raise, where the last
    rule alone gives the entry expression [(df['close'] > 100.0)].  An
    earlier rule that [generate] can visit leaves its lines in the
    indicator code, which [run_backtest] executes before it evaluates the
    signals: with ["ENTRY: SMA(close, 0) > 1"] in front, the code holds the
    call [indicators.sma(df['close'], 0.0)], and [sma] raises [ValueError]
    on a period of 0. *)
Lemma earlier_rule_changes_generation :
  parse_dsl Examples.nested_first_text
    = (Some (Strategy Examples.nested_first), []) /\
  PandasCodeGenerator.generate str_float (Strategy Examples.nested_first)
    = Raise AttributeError /\
  PandasCodeGenerator.generate str_float
      (Strategy [EntryRule Examples.close_above_100])
    = Ret (Generated [] (PCmp ">" (PCol "close") (PLit 100)) PFalse) /\
  PandasCodeGenerator.generate str_float (Strategy Examples.zero_period_first)
    = Ret (Generated [Assign "sma_close_0.0" "sma" [PCol "close"; PLit 0]]
             (PCmp ">" (PCol "close") (PLit 100)) PFalse) /\
  Indicators.sma (Some <$> [1; 2; 3])%Q 0 = Raise ValueError.
Proof. repeat split; vm_compute; reflexivity. Qed.

(** C7.  The memo is keyed by the column name, in which the parameters
    are joined by ['_'] and their boundaries are lost.  On
    ["ENTRY: SMA(a_b, c) > SMA(a, b_c)"  "EXIT: SMA(a, b_c) < 1"]
    the text parses to the strategy [colliding_rules]; [SMA(a, b_c)] occurs
    twice in it; its computation is
    [df['sma_a_b_c'] = indicators.sma(df['a'], df['b_c'])]; and the
    generated indicator code is the single line that computes
    [SMA(a_b, c)].  The computation of [SMA(a, b_c)] is performed zero
    times and both of its references read the column of the other
    indicator. *)
Lemma colliding_indicator_never_computed :
  parse_dsl Examples.colliding_text
    = (Some (Strategy Examples.colliding_rules), []) /\
  strategy_indicators Examples.colliding_rules
    = [Examples.sma_ab_c; Examples.sma_a_bc; Examples.sma_a_bc] /\
  own_statement str_float Examples.sma_a_bc
    = Ret (Assign "sma_a_b_c" "sma" [PCol "a"; PCol "b_c"]) /\
  PandasCodeGenerator.generate str_float (Strategy Examples.colliding_rules)
    = Ret Examples.colliding_code /\
  indicators Examples.colliding_code
    = [Assign "sma_a_b_c" "sma" [PCol "a_b"; PCol "c"]].
Proof. repeat split; vm_compute; reflexivity. Qed.

(** X23 at
    ["ENTRY: SMA(close, 20) > close"  "EXIT: SMA(close, 20) < close"]:
    [SMA(close, 20)] occurs in both rules and one line computes it. *)
Lemma indicator_memoized_witness :
  Forall visitable (omap rule_condition Examples.sma20_rules) /\
  PandasCodeGenerator.generate str_float (Strategy Examples.sma20_rules)
    = Ret Examples.sma20_code /\
  strategy_indicators Examples.sma20_rules
    = [("SMA", [Identifier "close"; Number 20]);
       ("SMA", [Identifier "close"; Number 20])] /\
  NoDup (target <$> indicators Examples.sma20_code) /\
  exists col st,
    PandasCodeGenerator.indicator_col_name str_float
      "SMA" [Identifier "close"; Number 20] = Ret col /\
    code_of str_float Examples.sma20 = Ret (PCol col) /\
    computations col (indicators Examples.sma20_code) = [st] /\
    own_statement str_float ("SMA", [Identifier "close"; Number 20]) = Ret st.
Proof.
  split; [repeat constructor|]. split; [reflexivity|]. split; [reflexivity|].
  destruct (proj2 (indicator_memoized str_float Examples.sma20_rules)
              Examples.sma20_code eq_refl) as [Hnd Hall].
  split; [exact Hnd|].
  destruct (Hall ("SMA", [Identifier "close"; Number 20]))
    as (col & st & H1 & H2 & H3 & _ & H5).
  { apply list_elem_of_here. }
  exists col, st. repeat split; try done.
  apply H5. intros ind' Hin _.
  apply elem_of_cons in Hin as [->|Hin]; [done|].
  apply list_elem_of_singleton in Hin as ->. done.
Defined.

(* --------------------------------------------------------------------- *)
(** ** The simulation *)
(* --------------------------------------------------------------------- *)

Section SimulationFacts.

Import Backtest.
Local Open Scope Q_scope.

Lemma Qmax_l x y : x <= Qmax x y.
Proof.
  unfold Qmax. destruct (Pandas.Qlt_bool x y) eqn:E; [|lra].
  apply Qlt_bool_iff in E. lra.
Qed.

Lemma Qmax_r x y : y <= Qmax x y.
Proof.
  unfold Qmax. destruct (Pandas.Qlt_bool x y) eqn:E; [lra|].
  by apply Qlt_bool_false in E.
Qed.

Lemma running_peak_snoc p curve v :
  running_peak p (curve ++ [v]) = Qmax (running_peak p curve) v.
Proof.
  revert p. induction curve as [|x xs IH]; intros p; simpl; [done|apply IH].
Qed.

Lemma worst_drawdown_snoc p w curve v :
  worst_drawdown p w (curve ++ [v]) =
    let peak' := Qmax (running_peak p curve) v in
    Qmax (worst_drawdown p w curve) ((peak' - v) / peak').
Proof.
  revert p w.
  induction curve as [|x xs IH]; intros p w; simpl; [done|apply IH].
Qed.

Lemma sound_init capital : 0 < capital -> sound capital (init capital).
Proof. intros H. split; simpl; try done; try lra. Qed.

Lemma exit_branch_inv r s s1 :
  exit_branch r s = Ret s1 ->
  (holding s1 = true -> holding s = true /\ s1 = s) /\
  equity_curve s1 = equity_curve s /\ peak_equity s1 = peak_equity s /\
  max_drawdown s1 = max_drawdown s.
Proof.
  unfold exit_branch, sell. destruct (exit_signal r && holding s) eqn:E.
  - destruct (entry_date s); simpl; [|done]. intros [= <-]. simpl. done.
  - intros [= <-]. done.
Qed.

Lemma step_sound capital r s s' :
  sound capital s -> step r s = Ret s' -> sound capital s'.
Proof.
  intros [Hb Hp Hps Hws Hw0 Hw1] H. unfold step in H.
  destruct (exit_branch r s) as [s1|e] eqn:E1; simpl in H; [|done].
  apply exit_branch_inv in E1 as (Hh & Hc & Hpk & Hmd).
  set (s2 := entry_branch r s1) in *.
  assert (Hc2 : equity_curve s2 = equity_curve s
                /\ peak_equity s2 = peak_equity s
                /\ max_drawdown s2 = max_drawdown s
                /\ (holding s2 = true -> is_Some (entry_date s2))).
  { unfold s2, entry_branch.
    destruct (entry_signal r && negb (holding s1)) eqn:E2;
      simpl; [by eauto|].
    repeat split; try done. intros Hh1. destruct (Hh Hh1) as [Hhs ->].
    by apply Hb. }
  destruct Hc2 as (Hc2 & Hp2 & Hm2 & Hb2).
  unfold bookkeeping in H. rewrite Hp2, Hm2, Hc2 in H.
  fold (Qmax (peak_equity s) (current_value r s2)) in H.
  remember (current_value r s2) as value eqn:Ev.
  remember (Qmax (peak_equity s) value) as peak eqn:Epk.
  destruct (Qeq_bool peak 0) eqn:Ez; [done|].
  injection H as <-.
  assert (Hpk' : peak_equity s <= peak) by (subst peak; apply Qmax_l).
  assert (Hpeak : 0 < peak) by lra.
  assert (Hval : value <= peak) by (subst peak; apply Qmax_r).
  assert (Hdd : 0 <= (peak - value) / peak).
  { apply Qle_shift_div_l; [done|]. lra. }
  split; simpl.
  - done.
  - done.
  - rewrite running_peak_snoc, <- Hps. done.
  - rewrite worst_drawdown_snoc, <- Hps, <- Hws. simpl. rewrite <- Epk. done.
  - destruct (Pandas.Qlt_bool _ _); done.
  - intros HF. apply Forall_app in HF as [HF Hv].
    rewrite Forall_singleton in Hv. specialize (Hw1 HF).
    assert (Hdd1 : (peak - value) / peak <= 1).
    { apply Qle_shift_div_r; [done|]. lra. }
    destruct (Pandas.Qlt_bool _ _); done.
Qed.

Lemma bookkeeping_returns r s :
  0 < peak_equity s -> returns (bookkeeping r s).
Proof.
  intros Hp. unfold bookkeeping.
  fold (Qmax (peak_equity s) (current_value r s)).
  pose proof (Qmax_l (peak_equity s) (current_value r s)) as Hm.
  destruct (Qeq_bool _ 0) eqn:Ez; [|by eexists].
  apply Qeq_bool_iff in Ez. lra.
Qed.

Lemma entry_branch_peak r s : peak_equity (entry_branch r s) = peak_equity s.
Proof. unfold entry_branch. by destruct (_ && _). Qed.

Lemma exit_branch_returns r s :
  (holding s = true -> is_Some (entry_date s)) ->
  exists s1, exit_branch r s = Ret s1 /\ peak_equity s1 = peak_equity s.
Proof.
  intros Hb. unfold exit_branch, sell.
  destruct (exit_signal r && holding s) eqn:E; [|by eexists].
  apply andb_true_iff in E as [_ Hh]. destruct (Hb Hh) as [d ->]. simpl.
  by eexists.
Qed.

Lemma step_returns capital r s : sound capital s -> returns (step r s).
Proof.
  intros [Hb Hp _ _ _ _]. unfold step.
  destruct (exit_branch_returns r s Hb) as (s1 & -> & Hp1). simpl.
  apply bookkeeping_returns. by rewrite entry_branch_peak, Hp1.
Qed.

Lemma loop_app rows1 rows2 s :
  loop (rows1 ++ rows2) s = loop rows1 s ≫= loop rows2.
Proof.
  revert s. induction rows1 as [|r rows1 IH]; intros s; simpl; [done|].
  destruct (step r s); simpl; [apply IH|done].
Qed.

Lemma loop_sound capital rows : forall s,
  sound capital s -> exists s', loop rows s = Ret s' /\ sound capital s'.
Proof.
  induction rows as [|r rows IH]; intros s Hs; simpl; [by eexists|].
  destruct (step_returns capital r s Hs) as [s1 E]. rewrite E. simpl.
  apply IH. by eapply step_sound.
Qed.

Lemma step_worst_mono r s s' :
  step r s = Ret s' -> max_drawdown s <= max_drawdown s'.
Proof.
  unfold step. intros H.
  destruct (exit_branch r s) as [s1|e] eqn:E1; simpl in H; [|done].
  apply exit_branch_inv in E1 as (_ & _ & _ & Hmd).
  assert (Hm2 : max_drawdown (entry_branch r s1) = max_drawdown s).
  { unfold entry_branch. by destruct (_ && _). }
  unfold bookkeeping in H. destruct (Qeq_bool _ 0); [done|].
  injection H as <-. simpl. rewrite Hm2.
  destruct (Pandas.Qlt_bool _ _) eqn:E; [|lra].
  apply Qlt_bool_iff in E. lra.
Qed.

Lemma loop_worst_mono rows : forall s s',
  loop rows s = Ret s' -> max_drawdown s <= max_drawdown s'.
Proof.
  induction rows as [|r rows IH]; intros s s' H; simpl in H.
  - injection H as <-. lra.
  - destruct (step r s) as [s1|e] eqn:E; simpl in H; [|done].
    apply step_worst_mono in E. apply IH in H. lra.
Qed.

Lemma state_after_sound rows capital n s :
  0 < capital -> state_after n rows capital = Ret s -> sound capital s.
Proof.
  intros Hc E. unfold state_after in E.
  destruct (loop_sound capital (take n rows) (init capital) (sound_init _ Hc))
    as (s' & E' & Hs).
  rewrite E in E'. by injection E' as <-.
Qed.

Lemma state_after_S rows capital i r :
  rows !! i = Some r ->
  state_after (S i) rows capital = state_after i rows capital ≫= step r.
Proof.
  intros Hr. unfold state_after.
  rewrite (take_S_r _ _ _ Hr), loop_app. simpl.
  destruct (loop (take i rows) (init capital)) as [s|e]; simpl; [|done].
  by destruct (step r s).
Qed.

(** C5 (amended).  For a positive initial capital the loop reaches every
    bar, and after any number of bars: the peak is the running maximum of
    the initial capital and the mark-to-market values so far; the maximum
    drawdown is the largest [(peak - value) / peak] met so far, each
    measured against the peak to date; it is non-negative; it is no
    smaller than after any earlier bar; and it is at most 1 as long as no
    mark-to-market value so far is negative. *)
Theorem drawdown_running_peak (rows : list row) (capital : Q) (n : nat) :
  0 < capital ->
  exists s,
    state_after n rows capital = Ret s /\
    peak_equity s = running_peak capital (equity_curve s) /\
    max_drawdown s = worst_drawdown capital 0 (equity_curve s) /\
    0 <= max_drawdown s /\
    (Forall (fun v => 0 <= v) (equity_curve s) -> max_drawdown s <= 1) /\
    (forall m s0, (m <= n)%nat -> state_after m rows capital = Ret s0 ->
       max_drawdown s0 <= max_drawdown s).
Proof.
  intros Hc. unfold state_after.
  destruct (loop_sound capital (take n rows) (init capital) (sound_init _ Hc))
    as (s & E & Hs).
  exists s. split; [done|]. destruct Hs as [_ _ Hps Hws Hw0 Hw1].
  repeat (split; [done|]).
  intros m s0 Hm E0.
  assert (Ht : take n rows = take m rows ++ drop m (take n rows)).
  { rewrite <- (take_drop m (take n rows)) at 1. f_equal.
    rewrite take_take. f_equal. lia. }
  rewrite Ht, loop_app, E0 in E. simpl in E.
  by eapply loop_worst_mono.
Qed.

(** C6.  In a run with a positive initial capital, at a bar [i] reached
    with a position open and with both signals true, the loop body sells
    at [close[i]], appending the trade bought at the recorded date and
    price and sold on this bar, adds its profit to the equity, and buys
    again on the same bar: the bar ends with a position open, bought at
    [close[i]] on [Date[i]]. *)
Theorem close_then_reopen (rows : list row) (capital : Q) (i : nat)
    (s : state) (r : row) :
  0 < capital ->
  state_after i rows capital = Ret s ->
  rows !! i = Some r ->
  holding s = true -> exit_signal r = true -> entry_signal r = true ->
  exists s' bought,
    state_after (S i) rows capital = Ret s' /\
    entry_date s = Some bought /\
    trades s' = trades s ++
      [Trade.Make bought (Date r) (entry_price s) (close r)
                  (close r - entry_price s)] /\
    equity s' = equity s + (close r - entry_price s) /\
    holding s' = true /\
    entry_price s' = close r /\
    entry_date s' = Some (Date r).
Proof.
  intros Hc E Hr Hh Hx He.
  pose proof (state_after_sound _ _ _ _ Hc E) as Hs.
  destruct (step_returns capital r s Hs) as [s' Es].
  destruct (bought_bound _ _ Hs Hh) as [bought Hb].
  exists s', bought. rewrite (state_after_S _ _ _ _ Hr), E. simpl.
  split; [done|]. split; [done|].
  unfold step, exit_branch, sell in Es. rewrite Hx, Hh, Hb in Es. simpl in Es.
  unfold entry_branch in Es. simpl in Es. rewrite He in Es. simpl in Es.
  unfold bookkeeping in Es. simpl in Es.
  destruct (Qeq_bool _ 0); [done|]. by injection Es as <-.
Qed.

End SimulationFacts.

(* --------------------------------------------------------------------- *)
(** ** The simulation in binary64 *)
(* --------------------------------------------------------------------- *)

Section Binary64Facts.
Import Backtest64.
Local Open Scope float_scope.

Lemma ltb_above_positive p v :
  (0 <? p) = true -> (p <? v) = true -> (0 <? v) = true.
Proof.
  rewrite !FloatAxioms.ltb_spec. change (Prim2SF 0) with (S754_zero false).
  destruct (Prim2SF p) as [[]|[]| |[] ? ?], (Prim2SF v) as [[]|[]| |[] ? ?];
    done.
Qed.

Lemma positive_not_zero p : (0 <? p) = true -> (p =? 0) = false.
Proof.
  rewrite FloatAxioms.ltb_spec, FloatAxioms.eqb_spec.
  change (Prim2SF 0) with (S754_zero false).
  by destruct (Prim2SF p) as [[]|[]| |[] ? ?].
Qed.

Lemma add_profits_snoc capital ts t :
  add_profits capital (ts ++ [t]) = add_profits capital ts + Trade64.profit t.
Proof. unfold add_profits. by rewrite fmap_app, foldl_app. Qed.

Lemma sound64_init capital :
  (0 <? capital) = true -> sound64 capital (init capital).
Proof. intros H. by split; [|done|done|constructor]. Qed.

Lemma sell_sound64 capital date price s :
  sound64 capital s -> holding s = true ->
  exists s', sell date price s = Ret s' /\ sound64 capital s' /\
             holding s' = holding s /\
             equity_curve s' = equity_curve s.
Proof.
  intros [Hb Hp Hbal Hpr] Hh. unfold sell.
  destruct (Hb Hh) as [d Hd]. rewrite Hd.
  eexists. split; [reflexivity|]. split; [|done].
  split; simpl; try done.
  - by rewrite add_profits_snoc, Hbal.
  - apply Forall_app. split; [done|]. by repeat constructor.
Qed.

Lemma step_sound64 capital r s :
  sound64 capital s ->
  exists s', step r s = Ret s' /\ sound64 capital s'.
Proof.
  intros Hs. unfold step.
  assert (H1 : exists s1, exit_branch r s = Ret s1 /\ sound64 capital s1).
  { unfold exit_branch. destruct (exit_signal r && holding s) eqn:E;
      [|by eexists].
    apply andb_true_iff in E as [_ Hh].
    destruct (sell_sound64 capital (Date r) (close r) s Hs Hh)
      as (s1 & -> & [Hb Hp Hbal Hpr] & _ & _).
    eexists. split; [reflexivity|]. by split. }
  destruct H1 as (s1 & -> & Hs1). simpl.
  assert (H2 : sound64 capital (entry_branch r s1)).
  { unfold entry_branch. destruct (entry_signal r && negb (holding s1)); [|done].
    destruct Hs1 as [Hb Hp Hbal Hpr]. by split; simpl; [eexists| | |]. }
  destruct H2 as [Hb Hp Hbal Hpr]. unfold bookkeeping.
  set (s2 := entry_branch r s1) in *.
  set (value := current_value r s2).
  assert (Hpeak : (0 <? (if peak_equity s2 <? value then value
                         else peak_equity s2)) = true).
  { destruct (peak_equity s2 <? value) eqn:E; [|done].
    by eapply ltb_above_positive. }
  rewrite (positive_not_zero _ Hpeak).
  eexists. split; [reflexivity|]. by split.
Qed.

Lemma loop_sound64 capital rows : forall s,
  sound64 capital s ->
  exists s', loop rows s = Ret s' /\ sound64 capital s' /\
             (holding s' = true -> rows = [] -> holding s = true).
Proof.
  induction rows as [|r rows IH]; intros s Hs; [by exists s|].
  simpl. destruct (step_sound64 capital r s Hs) as (s1 & -> & Hs1). simpl.
  destruct (IH s1 Hs1) as (s' & -> & Hs' & _). by exists s'.
Qed.

(** C10 (amended).  In binary64, for a positive initial capital the
    simulation returns a report in which the final equity is the initial
    capital with the profit of each listed trade added to it in list order
    (the trade of a position closed at the end of the data included), each
    addition rounded; the total profit is the final equity minus the
    initial capital, rounded; the profit of a trade is its exit price
    minus its entry price, rounded; and with no trade the final equity is
    the initial capital. *)
Theorem equity_adds_each_profit (rows : list row) (capital : float) :
  (0 <? capital) = true ->
  exists rep,
    simulate rows capital = Ret rep /\
    final_equity rep = add_profits capital (report_trades rep) /\
    total_profit rep = final_equity rep - capital /\
    Forall (fun t => Trade64.profit t
                     = Trade64.exit_price t - Trade64.entry_price t)
      (report_trades rep) /\
    (report_trades rep = [] -> final_equity rep = capital).
Proof.
  intros Hc. unfold simulate.
  destruct (loop_sound64 capital rows (init capital) (sound64_init _ Hc))
    as (s & -> & Hs & Hh). simpl.
  assert (H : exists s', close_final rows s = Ret s' /\ sound64 capital s').
  { unfold close_final. destruct (holding s) eqn:E; [|by exists s].
    destruct (last rows) as [r|] eqn:El.
    - destruct (sell_sound64 capital (Date r) (close r) s Hs E)
        as (s' & -> & Hs' & _). by exists s'.
    - apply last_None in El. by specialize (Hh eq_refl El). }
  destruct H as (s' & -> & [Hb Hp Hbal Hpr]). simpl.
  unfold performance. rewrite (positive_not_zero _ Hc).
  eexists. split; [reflexivity|]. simpl.
  split; [done|]. split; [done|]. split; [done|].
  intros Ht. by rewrite Hbal, Ht.
Qed.

End Binary64Facts.

(** The end-to-end run of the specification: capital 10000, closes
    10, 11, 9, 12, 8, entry at index 0, exit at index 2. *)
Example one_trade_report :
  exists rep,
    Backtest.simulate Examples.one_trade 10000 = Ret rep /\
    Backtest.report_trades rep = [Trade.Make "d0" "d2" 10 9 (-1)]%Q /\
    Backtest.final_equity rep = 9999%Q /\
    Backtest.num_trades rep = 1%nat /\
    Backtest.num_wins rep = 0%nat /\
    Backtest.win_rate rep = 0%Q /\
    length (Backtest.report_equity_curve rep) = 5%nat.
Proof. eexists. split; [vm_compute; reflexivity|]. by vm_compute. Qed.

(** A run without signals: no trade, the capital untouched, no drawdown. *)
Example no_signal_report :
  exists rep,
    Backtest.simulate
      [Examples.bar "d0" 10 false false; Examples.bar "d1" 7 false false]
      10000 = Ret rep /\
    Backtest.num_trades rep = 0%nat /\
    Backtest.final_equity rep = 10000%Q /\
    Backtest.report_max_drawdown rep = 0%Q.
Proof. eexists. split; [vm_compute; reflexivity|]. by vm_compute. Qed.

(** C5, as stated, fails for a capital of 10000 with one unit bought at
    60000 and a next close of 45000: the mark-to-market value is -5000
    against a peak of 10000, and the maximum drawdown is 1.5. *)
Lemma drawdown_above_one :
  exists s,
    Backtest.state_after 2 Examples.overdrawn 10000 = Ret s /\
    Backtest.equity_curve s = [10000; -5000]%Q /\
    Backtest.peak_equity s = 10000%Q /\
    (Backtest.max_drawdown s == 3 # 2)%Q /\
    (1 < Backtest.max_drawdown s)%Q.
Proof. eexists. split; [vm_compute; reflexivity|]. by vm_compute. Qed.

(** C5 (amended) on the five bars with closes 10, 11, 9, 12, 8. *)
Lemma drawdown_running_peak_witness :
  (0 < 10000)%Q /\
  exists s,
    Backtest.state_after 5 Examples.one_trade 10000 = Ret s /\
    Backtest.peak_equity s
      = running_peak 10000 (Backtest.equity_curve s) /\
    Backtest.max_drawdown s
      = worst_drawdown 10000 0 (Backtest.equity_curve s) /\
    (0 <= Backtest.max_drawdown s)%Q /\
    (Forall (fun v => 0 <= v)%Q (Backtest.equity_curve s) ->
     (Backtest.max_drawdown s <= 1)%Q) /\
    (forall m s0, (m <= 5)%nat ->
       Backtest.state_after m Examples.one_trade 10000 = Ret s0 ->
       (Backtest.max_drawdown s0 <= Backtest.max_drawdown s)%Q).
Proof.
  split; [reflexivity|].
  apply (drawdown_running_peak Examples.one_trade 10000 5). reflexivity.
Defined.

(** C6 on the second bar of [reopen]: the position bought at 10 is sold at
    12 and one is bought again at 12 on the same bar. *)
Lemma close_then_reopen_witness :
  (0 < 10000)%Q /\
  Backtest.state_after 1 Examples.reopen 10000 = Ret Examples.reopen_held /\
  Examples.reopen !! 1%nat = Some (Examples.bar "d1" 12 true true) /\
  exists s' bought,
    Backtest.state_after 2 Examples.reopen 10000 = Ret s' /\
    Backtest.entry_date Examples.reopen_held = Some bought /\
    Backtest.trades s' =
      Backtest.trades Examples.reopen_held ++
      [Trade.Make bought "d1" 10 12 (12 - 10)%Q] /\
    Backtest.equity s' = (10000 + (12 - 10))%Q /\
    Backtest.holding s' = true /\
    Backtest.entry_price s' = 12%Q /\
    Backtest.entry_date s' = Some "d1".
Proof.
  split; [reflexivity|]. split; [vm_compute; reflexivity|].
  split; [reflexivity|].
  apply (close_then_reopen Examples.reopen 10000 1 Examples.reopen_held
           (Examples.bar "d1" 12 true true));
    (reflexivity || (vm_compute; reflexivity)).
Defined.

(** C10, as stated, fails on the closes 0.1, 0.3, 0.1, 0.3 with a
    capital of 10000, bought on the first and third bar and sold on the
    second and fourth: the two profits are 0.19999999999999998 each and
    their sum is 0.39999999999999997; the final equity is
    10000.400000000001, not the 10000.4 that the capital plus the sum
    gives, and the total profit is 0.40000000000145519, not the sum.  The
    numbers the floats stand for differ as well. *)
Lemma rounded_equity_is_not_the_sum :
  exists rep,
    Backtest64.simulate Examples.two_round_trips 10000 = Ret rep /\
    Trade64.profit <$> Backtest64.report_trades rep
      = [0.19999999999999998; 0.19999999999999998]%float /\
    Backtest64.sum_profit (Backtest64.report_trades rep)
      = 0.39999999999999997%float /\
    Backtest64.final_equity rep = 10000.400000000001%float /\
    PrimFloat.add 10000 (Backtest64.sum_profit (Backtest64.report_trades rep))
      = 10000.4%float /\
    Backtest64.total_profit rep = 0.40000000000145519%float /\
    PrimFloat.eqb (Backtest64.final_equity rep)
      (PrimFloat.add 10000
         (Backtest64.sum_profit (Backtest64.report_trades rep))) = false /\
    PrimFloat.eqb (Backtest64.total_profit rep)
      (Backtest64.sum_profit (Backtest64.report_trades rep)) = false /\
    exists final profit,
      Backtest64.exact (Backtest64.final_equity rep) = Some final /\
      Backtest64.exact 0.19999999999999998%float = Some profit /\
      ~ (final == 10000 + (profit + profit))%Q.
Proof.
  eexists. split; [vm_compute; reflexivity|].
  do 7 (split; [vm_compute; reflexivity|]).
  eexists _, _. split; [vm_compute; reflexivity|].
  split; [vm_compute; reflexivity|].
  vm_compute. discriminate.
Qed.

(** C10 (amended) on the same bars. *)
Lemma equity_adds_each_profit_witness :
  PrimFloat.ltb 0 10000 = true /\
  exists rep,
    Backtest64.simulate Examples.two_round_trips 10000 = Ret rep /\
    Backtest64.final_equity rep = 10000.400000000001%float /\
    Backtest64.final_equity rep
      = Backtest64.add_profits 10000 (Backtest64.report_trades rep).
Proof.
  split; [reflexivity|].
  destruct (equity_adds_each_profit Examples.two_round_trips 10000 eq_refl)
    as (rep & Hrep & Hfinal & _).
  exists rep. split; [exact Hrep|]. split; [|exact Hfinal].
  vm_compute in Hrep. injection Hrep as <-. reflexivity.
Defined.

(* --------------------------------------------------------------------- *)
(** ** The trees the parser returns *)
(* --------------------------------------------------------------------- *)

Section ParserShape.

Lemma upper_names_all ns :
  (fix all (ns : list node) : Prop :=
     match ns with
     | [] => True
     | x :: xs => upper_names x /\ all xs
     end) ns <-> Forall upper_names ns.
Proof.
  induction ns as [|p ps IH]; [by intuition|].
  rewrite Forall_cons. tauto.
Qed.

Lemma upper_names_indicator name ps :
  upper_names (Indicator name ps) <-> upper name = name /\ Forall upper_names ps.
Proof. simpl. by rewrite upper_names_all. Qed.

Lemma upper_names_logical op operands :
  upper_names (LogicalOperation op operands) <-> Forall upper_names operands.
Proof. simpl. by rewrite upper_names_all. Qed.

Lemma upper_names_strategy rules :
  upper_names (Strategy rules) <-> Forall upper_names rules.
Proof. simpl. by rewrite upper_names_all. Qed.

Lemma parsed_condition_logical op operands :
  parsed_condition (LogicalOperation op operands) <->
  (2 <= length operands)%nat /\ Forall parsed_condition operands.
Proof.
  simpl. induction operands as [|p ps IH]; [by intuition|].
  rewrite Forall_cons. simpl in *. split.
  - intros (Hl & Hp & Hps). split; [done|]. split; [done|].
    clear -Hps. induction ps as [|q qs IHq]; [done|].
    destruct Hps. constructor; auto.
  - intros (Hl & Hp & Hps). split; [done|]. split; [done|].
    clear -Hps. induction Hps; simpl; auto.
Qed.

Lemma ascii_upper_idemp c : ascii_upper (ascii_upper c) = ascii_upper c.
Proof. by destruct c as [[] [] [] [] [] [] [] []]. Qed.

Lemma upper_idemp s : upper (upper s) = upper s.
Proof. induction s as [|c s IH]; simpl; [done|]. by rewrite ascii_upper_idemp, IH. Qed.

Lemma yields_bind {A B} (P : A -> Prop) (Q : B -> Prop)
    (m : outcome (A * nat * list token))
    (k : A * nat * list token -> outcome (B * nat * list token)) :
  yields P m ->
  (forall a pos rest, P a -> yields Q (k (a, pos, rest))) ->
  yields Q (m ≫= k).
Proof.
  intros Hm Hk. destruct m as [[[a pos] rest]|e]; simpl in *; [|done].
  by apply Hk.
Qed.

Lemma atom_yields fuel :
  (forall pos ts, yields (fun n => operand n /\ upper_names n)
                    (Parser.atom fuel pos ts)) /\
  (forall pos ts, yields (Forall upper_names) (Parser.atom_tail fuel pos ts)).
Proof.
  induction fuel as [|fuel [IHa IHt]]; [by split|].
  split; intros pos ts.
  - destruct ts as [|[] ts]; simpl; try done.
    assert (Hgen : forall ts', yields (fun n => operand n /\ upper_names n)
        (Parser.atom fuel (pos + 2) ts' ≫= λ '(p, pos1, rest1),
           Parser.atom_tail fuel pos1 rest1 ≫= λ '(ps, pos2, rest2),
           Ret (AstTransformer.indicator text (p :: ps), pos2, rest2))).
    { intros ts'. eapply yields_bind; [apply IHa|]. intros p ? ? [_ Hp].
      eapply yields_bind; [apply IHt|]. intros ps ? ? Hps.
      split; [done|]. apply upper_names_indicator.
      split; [apply upper_idemp|]. by constructor. }
    destruct ts as [|[] ts]; simpl; try done.
    destruct ts as [|[] ts]; try apply Hgen.
    simpl. split; [done|]. split; [apply upper_idemp|done].
  - destruct ts as [|[] ts]; simpl; try done.
    eapply yields_bind; [apply IHa|]. intros p ? ? [_ Hp].
    eapply yields_bind; [apply IHt|]. intros ps ? ? Hps.
    by constructor.
Qed.

Lemma cross_args_yields fuel pos ts :
  yields (fun ab => (operand ab.1 /\ upper_names ab.1) /\
                    (operand ab.2 /\ upper_names ab.2))
    (Parser.cross_args fuel pos ts).
Proof.
  destruct (atom_yields fuel) as [IHa _].
  destruct ts as [|[] ts]; try done. unfold Parser.cross_args.
  eapply yields_bind; [apply IHa|]. intros a ? rest Ha.
  destruct rest as [|[] rest]; try done.
  eapply yields_bind; [apply IHa|]. intros b ? rest' Hb.
  destruct rest' as [|[] rest']; try done.
Qed.

Lemma simple_comp_yields fuel pos ts :
  yields (fun n => parsed_condition n /\ upper_names n)
    (Parser.simple_comp fuel pos ts).
Proof.
  destruct (atom_yields fuel) as [IHa _]. unfold Parser.simple_comp.
  eapply yields_bind; [apply IHa|]. intros a ? rest [Ha Ha'].
  destruct rest as [|[] rest]; try done.
  eapply yields_bind; [apply IHa|]. intros b ? rest' [Hb Hb']. done.
Qed.

Lemma and_expr_shape first more r :
  parsed_condition first /\ upper_names first ->
  Forall (fun p => parsed_condition p.2 /\ upper_names p.2) more ->
  AstTransformer.and_expr first more = Ret r ->
  parsed_condition r /\ upper_names r.
Proof.
  intros [Hf Hu] Hm. destruct more as [|[op c] [|? ?]]; simpl; try done.
  - by intros [= <-].
  - rewrite Forall_singleton in Hm. simpl in Hm. destruct Hm as [Hc Hcu].
    assert (Hnew : parsed_condition (LogicalOperation op [first; c]) /\
                   upper_names (LogicalOperation op [first; c])).
    { split.
      - apply parsed_condition_logical. split; [simpl; lia|].
        by repeat constructor.
      - apply upper_names_logical. by repeat constructor. }
    destruct first; try (by intros [= <-]).
    destruct (String.eqb operator op); [|by intros [= <-]].
    intros [= <-]. apply parsed_condition_logical in Hf as [Hl Ho].
    apply upper_names_logical in Hu. split.
    + apply parsed_condition_logical. split.
      * rewrite length_app. lia.
      * apply Forall_app. split; [done|]. by constructor.
    + apply upper_names_logical, Forall_app. split; [done|]. by constructor.
Qed.

Lemma or_expr_shape first more r :
  parsed_condition first /\ upper_names first ->
  AstTransformer.or_expr first more = Ret r ->
  parsed_condition r /\ upper_names r.
Proof.
  intros Hf. destruct more as [|[op c] [|? ?]]; simpl; try done.
  by intros [= <-].
Qed.

Lemma yields_callback {A} (P : A -> Prop) (m : outcome A) pos rest :
  (forall r, m = Ret r -> P r) ->
  yields P (m ≫= fun r => Ret (r, pos, rest)).
Proof. intros H. destruct m; simpl; [by apply H|done]. Qed.

Lemma expr_yields fuel :
  let ok := fun n => parsed_condition n /\ upper_names n in
  (forall pos ts, yields ok (Parser.comparison fuel pos ts)) /\
  (forall pos ts, yields ok (Parser.and_expr fuel pos ts)) /\
  (forall pos ts, yields (Forall (fun p => ok p.2))
                    (Parser.and_tail fuel pos ts)) /\
  (forall pos ts, yields ok (Parser.or_expr fuel pos ts)) /\
  (forall pos ts, yields (Forall (fun p => ok p.2))
                    (Parser.or_tail fuel pos ts)).
Proof.
  intros ok.
  induction fuel as [|fuel (IHc & IHa & IHat & IHo & IHot)];
    [by repeat split|].
  repeat split; intros pos ts.
  - pose proof (simple_comp_yields fuel pos ts) as Hs.
    destruct ts as [|[] ts]; simpl; try apply Hs.
    + eapply yields_bind; [apply IHo|]. intros e ? rest He.
      by destruct rest as [|[] rest].
    + eapply yields_bind; [apply cross_args_yields|].
      intros [a b] ? ? [[? ?] [? ?]]. by split.
    + eapply yields_bind; [apply cross_args_yields|].
      intros [a b] ? ? [[? ?] [? ?]]. by split.
    + eapply yields_bind; [apply cross_args_yields|].
      intros [a b] ? ? [[? ?] [? ?]]. by split.
  - simpl. eapply yields_bind; [apply IHc|]. intros first ? ? Hf.
    eapply yields_bind; [apply IHat|]. intros more ? ? Hm.
    apply yields_callback. intros r. by apply and_expr_shape.
  - destruct ts as [|[] ts]; simpl; try done.
    eapply yields_bind; [apply IHc|]. intros c ? ? Hc.
    eapply yields_bind; [apply IHat|]. intros more ? ? Hm.
    by constructor.
  - simpl. eapply yields_bind; [apply IHa|]. intros first ? ? Hf.
    eapply yields_bind; [apply IHot|]. intros more ? ? Hm.
    apply yields_callback. intros r. by apply or_expr_shape.
  - destruct ts as [|[] ts]; simpl; try done.
    eapply yields_bind; [apply IHa|]. intros c ? ? Hc.
    eapply yields_bind; [apply IHot|]. intros more ? ? Hm.
    by constructor.
Qed.

Lemma rule_yields fuel pos ts : yields parsed_rule (Parser.rule fuel pos ts).
Proof.
  destruct (expr_yields fuel) as (_ & _ & _ & IHo & _).
  destruct ts as [|[] ts]; simpl; try done.
  - eapply yields_bind; [apply IHo|]. done.
  - eapply yields_bind; [apply IHo|]. done.
Qed.

Lemma rules_shape fuel : forall pos ts rs,
  Parser.rules fuel pos ts = Ret rs -> Forall parsed_rule rs.
Proof.
  induction fuel as [|fuel IH]; intros pos ts rs H; [done|].
  simpl in H. pose proof (rule_yields fuel pos ts) as Hr.
  destruct (Parser.rule fuel pos ts) as [[[r pos1] rest1]|e]; simpl in *;
    [|done].
  destruct rest1 as [|t rest1].
  - injection H as <-. by constructor.
  - destruct (Parser.rules fuel pos1 (t :: rest1)) as [rs'|e] eqn:E;
      simpl in H; [|done].
    injection H as <-. constructor; [done|]. by eapply IH.
Qed.

(** X2.  Whenever the parser returns a tree, it is a [Strategy] with at
    least one rule; the condition of every rule is a comparison or a cross
    of two operands (a column name, a number or an indicator call), or a
    logical operation over at least two such conditions; and every
    indicator in the tree has its name in upper case, however the text
    spells it. *)
Theorem parsed_tree_shape (ts : list token) (tree : node) :
  Parser.parse ts = Ret tree ->
  exists rules, tree = Strategy rules /\ rules <> [] /\
                Forall parsed_rule rules /\ upper_names tree.
Proof.
  unfold Parser.parse. intros H.
  destruct (Parser.rules (Parser.fuel_for ts) 0 ts) as [rs|e] eqn:E;
    simpl in H; [|done].
  injection H as <-. exists rs. split; [done|].
  pose proof (rules_shape _ _ _ _ E) as Hshape.
  split; [|split; [done|]].
  2:{ apply upper_names_strategy. eapply Forall_impl; [exact Hshape|].
      intros [] Hr; try done; apply Hr. }
  destruct (Parser.fuel_for ts) as [|fuel]; [done|]. simpl in E.
  destruct (Parser.rule fuel 0 ts) as [[[r pos1] rest1]|?]; simpl in E;
    [|done].
  destruct rest1; [by injection E as <-|].
  destruct (Parser.rules fuel pos1 _); simpl in E; [|done]. by injection E as <-.
Qed.


(** X3.  A text that does not begin with [ENTRY:] or [EXIT:] (the empty
    text among them) is not parsed: [parse_dsl] prints the error met at the
    first token and returns [None].  Likewise a rule keyword that is
    followed by the end of the text, or by a closing parenthesis, a comma
    or a comparison operator: the error is met right after the keyword. *)
Theorem text_without_rule_keyword_rejected (ts : list token) :
  match ts with
  | ENTRY :: rest | EXIT :: rest =>
      match rest with
      | [] | RPAR :: _ | COMMA :: _ | COMP_OP _ :: _ =>
          parse_dsl ts = (None, [ErrorParsingDSL (UnexpectedInput 1)])
      | _ => True
      end
  | _ => parse_dsl ts = (None, [ErrorParsingDSL (UnexpectedInput 0)])
  end.
Proof.
  unfold parse_dsl, Parser.parse, Parser.fuel_for.
  replace (8 * length ts + 8)%nat
    with (S (S (S (S (S (S (8 * length ts + 2)))))))%nat by lia.
  generalize (8 * length ts + 2)%nat. intros fuel.
  destruct ts as [|[] rest]; try done;
    destruct rest as [|[] rest]; done.
Qed.

Section Generation.

Import PandasCodeGenerator.
Variable sf : Q -> string.

Lemma params_strs_raise ps e : params_strs sf ps = Raise e -> e = AttributeError.
Proof.
  induction ps as [|p ps IH]; simpl; [done|].
  destruct (param_str sf p) as [s|e'] eqn:Ep; simpl.
  - destruct (params_strs sf ps) as [ss|e'']; simpl; [done|].
    intros [= <-]. by apply IH.
  - intros [= <-]. destruct p; simpl in Ep; by try injection Ep as <-.
Qed.

Lemma visit_indicator_outcome name ps g :
  visits_or_attribute_error (visitable (Indicator name ps))
    (visit sf (Indicator name ps) g).
Proof.
  unfold visits_or_attribute_error. simpl. unfold indicator_col_name.
  destruct (params_strs sf ps) as [ss|e] eqn:E; simpl.
  - pose proof (params_strs_atoms sf _ _ E) as Ha.
    rewrite (visit_each_atoms sf) by done. simpl.
    by case_bool_decide.
  - by eapply params_strs_raise.
Qed.

Lemma visit_atom_outcome n g :
  operand n -> visits_or_attribute_error (visitable n) (visit sf n g).
Proof.
  destruct n; try done. intros _. apply visit_indicator_outcome.
Qed.

Lemma visit_pair_outcome l r g (k : pexpr -> pexpr -> pexpr) :
  operand l -> operand r ->
  visits_or_attribute_error (visitable l /\ visitable r)
    ('(cl, g1) ← visit sf l g; '(cr, g2) ← visit sf r g1; Ret (k cl cr, g2)).
Proof.
  intros Hl Hr. pose proof (visit_atom_outcome l g Hl) as H1.
  destruct (visit sf l g) as [[cl g1]|e]; simpl in *; [|done].
  pose proof (visit_atom_outcome r g1 Hr) as H2.
  by destruct (visit sf r g1) as [[cr g2]|e].
Qed.

Lemma visit_each_outcome ns :
  Forall (fun n => forall g,
            visits_or_attribute_error (visitable n) (visit sf n g)) ns ->
  forall g, visits_or_attribute_error (Forall visitable ns)
              (visit_each (visit sf) ns g).
Proof.
  induction 1 as [|n ns Hn _ IH]; intros g; simpl; [done|].
  specialize (Hn g). destruct (visit sf n g) as [[c g1]|e]; simpl in *; [|done].
  specialize (IH g1).
  destruct (visit_each (visit sf) ns g1) as [[cs g2]|e]; simpl in *; [|done].
  by constructor.
Qed.

Lemma visit_condition_outcome n :
  parsed_condition n ->
  forall g, visits_or_attribute_error (visitable n) (visit sf n g).
Proof.
  induction n as [rules _|c _|c _|op operands IH|op l r _ _|l r _ _
                 |l r _ _|l r _ _|name ps _|name|v]
    using node_induction;
    intros Hp g; try done;
    try (destruct Hp as [Hl Hr];
         by apply (visit_pair_outcome l r g)).
  apply parsed_condition_logical in Hp as [_ Hp].
  assert (H : Forall (fun n => forall g,
            visits_or_attribute_error (visitable n) (visit sf n g)) operands).
  { rewrite Forall_forall in IH, Hp. apply Forall_forall. intros n Hn.
    by apply IH, Hp. }
  pose proof (visit_each_outcome _ H g) as Ho. simpl.
  destruct (visit_each (visit sf) operands g) as [[cs g1]|e]; simpl in *;
    [|done].
  by apply visitable_operands.
Qed.

Lemma generate_rules_outcome rules : forall e x g,
  Forall parsed_rule rules ->
  visits_or_attribute_error (Forall visitable (omap rule_condition rules))
    (generate_rules sf rules e x g).
Proof.
  induction rules as [|r rules IH]; intros e x g Hp; [by constructor|].
  apply Forall_cons in Hp as [Hr Hp].
  destruct r; try done; simpl in *.
  - pose proof (visit_condition_outcome _ (proj1 Hr) g) as Hv.
    destruct (visit sf r g) as [[c g1]|err]; simpl in *; [|done].
    specialize (IH c x g1 Hp).
    destruct (generate_rules sf rules c x g1); simpl in *; [|done].
    by constructor.
  - pose proof (visit_condition_outcome _ (proj1 Hr) g) as Hv.
    destruct (visit sf r g) as [[c g1]|err]; simpl in *; [|done].
    specialize (IH e c g1 Hp).
    destruct (generate_rules sf rules e c g1); simpl in *; [|done].
    by constructor.
Qed.

(** X4.  On a tree the parser returned, [generate] raises nothing but an
    [AttributeError] (the one of [visit_Indicator] on a parameter that has
    no [value]); and when it returns, every condition of the tree is one
    [visit] supports throughout, with indicator parameters that are column
    names or numbers. *)
Theorem generation_of_parsed_tree (ts : list token) (tree : node) :
  Parser.parse ts = Ret tree ->
  exists rules,
    tree = Strategy rules /\
    match generate sf tree with
    | Ret _ => Forall visitable (omap rule_condition rules)
    | Raise e => e = AttributeError
    end.
Proof.
  unfold Parser.parse. intros H.
  destruct (Parser.rules (Parser.fuel_for ts) 0 ts) as [rules|e] eqn:E;
    simpl in H; [|done].
  injection H as <-. exists rules. split; [done|].
  unfold AstTransformer.strategy.
  pose proof (rules_shape _ _ _ _ E) as Hp.
  pose proof (generate_rules_outcome rules PFalse PFalse fresh Hp) as Ho.
  unfold generate in *.
  by destruct (generate_rules sf rules PFalse PFalse fresh) as [[[e x] g]|err].
Qed.

End Generation.

End ParserShape.

(* --------------------------------------------------------------------- *)
(** ** Texts without [AND] and [OR] *)
(* --------------------------------------------------------------------- *)

Section Derivations.

Lemma atom_tokens_head a :
  (exists name ts, atom_tokens a = CNAME name :: ts) \/
  (exists v, atom_tokens a = [NUMBER v]).
Proof. destruct a; simpl; eauto. Qed.

Lemma atom_tokens_length a : (1 <= length (atom_tokens a))%nat.
Proof. destruct a; simpl; lia. Qed.

Lemma tail_tokens_no_lpar more rest :
  no_lpar_head (tail_tokens atom_tokens more ++ rest).
Proof. by destruct more. Qed.

Lemma atom_parses fuel :
  (forall a pos rest,
      (length (atom_tokens a) <= fuel)%nat -> no_lpar_head rest ->
      exists pos', Parser.atom fuel pos (atom_tokens a ++ rest)
                   = Ret (atom_node a, pos', rest)) /\
  (forall more pos rest,
      (length (tail_tokens atom_tokens more) <= fuel)%nat ->
      exists pos', Parser.atom_tail fuel pos
                     (tail_tokens atom_tokens more ++ rest)
                   = Ret (map atom_node more, pos', rest)).
Proof.
  induction fuel as [|fuel [IHa IHt]].
  { split.
    - intros a ? ? H. pose proof (atom_tokens_length a). lia.
    - intros [|? ?] ? ? H; simpl in H; lia. }
  split.
  - intros [name|v|name first more] pos rest Hf Hrest.
    + simpl. destruct rest as [|[] rest]; try done; by eexists.
    + simpl. by eexists.
    + cbn [atom_tokens atom_node] in *. simpl in Hf.
      rewrite length_app in Hf.
      rewrite <- !app_comm_cons, <- app_assoc.
      destruct (IHa first (pos + 2)%nat (tail_tokens atom_tokens more ++ rest))
        as [pos1 E1]; [lia|apply tail_tokens_no_lpar|].
      destruct (IHt more pos1 rest) as [pos2 E2]; [lia|].
      exists pos2. cbn [Parser.atom].
      destruct (atom_tokens_head first) as [(n & ts & Hh)|(v & Hh)];
        rewrite Hh in *; simpl app in *; cbn beta iota;
        rewrite E1; cbn [mbind outcome_bind]; rewrite E2; done.
  - intros [|a more] pos rest Hf.
    + simpl. by eexists.
    + simpl in Hf. rewrite length_app in Hf.
      cbn [tail_tokens]. rewrite <- app_comm_cons, <- app_assoc.
      destruct (IHa a (pos + 1)%nat (tail_tokens atom_tokens more ++ rest))
        as [pos1 E1]; [lia|apply tail_tokens_no_lpar|].
      destruct (IHt more pos1 rest) as [pos2 E2]; [lia|].
      exists pos2. cbn [Parser.atom_tail]. rewrite E1.
      cbn [mbind outcome_bind]. rewrite E2. done.
Qed.


Lemma pair_parses fuel l r pos rest :
  (length (atom_tokens l) <= fuel)%nat ->
  (length (atom_tokens r) <= fuel)%nat ->
  exists pos', Parser.cross_args fuel pos (pair_tokens l r ++ rest)
               = Ret ((atom_node l, atom_node r), pos', rest).
Proof.
  intros Hl Hr. destruct (atom_parses fuel) as [Ha _].
  unfold pair_tokens, Parser.cross_args.
  rewrite <- !app_comm_cons, <- !app_assoc, <- !app_comm_cons, <- !app_assoc.
  destruct (Ha l (pos + 1)%nat (COMMA :: atom_tokens r ++ [RPAR] ++ rest))
    as [pos1 ->]; [done..|].
  cbn [mbind outcome_bind].
  destruct (Ha r (pos1 + 1)%nat ([RPAR] ++ rest)) as [pos2 ->]; [done..|].
  cbn [mbind outcome_bind app]. by eexists.
Qed.

Lemma compare_parses fuel l op r pos rest :
  (length (atom_tokens l) <= fuel)%nat ->
  (length (atom_tokens r) <= fuel)%nat ->
  no_lpar_head rest ->
  exists pos', Parser.simple_comp fuel pos
                 (atom_tokens l ++ COMP_OP op :: atom_tokens r ++ rest)
               = Ret (Comparison op (atom_node l) (atom_node r), pos', rest).
Proof.
  intros Hl Hr Hrest. destruct (atom_parses fuel) as [Ha _].
  unfold Parser.simple_comp.
  destruct (Ha l pos (COMP_OP op :: atom_tokens r ++ rest)) as [pos1 ->];
    [done..|].
  cbn [mbind outcome_bind].
  destruct (Ha r (pos1 + 1)%nat rest) as [pos2 ->]; [done..|].
  cbn [mbind outcome_bind]. by eexists.
Qed.

Lemma closes_no_lpar rest : closes rest -> no_lpar_head rest.
Proof. by destruct rest as [|[] ?]. Qed.

(** A single comparison followed by the end of a condition goes through
    [and_expr] and [or_expr] unchanged. *)
Lemma or_expr_single fuel pos ts n pos' rest :
  closes rest -> (1 <= fuel)%nat ->
  Parser.comparison fuel pos ts = Ret (n, pos', rest) ->
  Parser.or_expr (S (S fuel)) pos ts = Ret (n, pos', rest).
Proof.
  intros Hrest Hf E. destruct fuel as [|fuel]; [lia|].
  cbn [Parser.or_expr Parser.and_expr]. rewrite E. cbn [mbind outcome_bind].
  destruct rest as [|[] rest]; done.
Qed.

Lemma condition_tokens_length c : (3 <= length (condition_tokens c))%nat.
Proof.
  induction c as [l op r|l r|l r|l r|c IH]; simpl;
    rewrite ?length_app; simpl; rewrite ?length_app; simpl;
    try (pose proof (atom_tokens_length l);
         pose proof (atom_tokens_length r)); lia.
Qed.

Lemma condition_parses c : forall fuel pos rest,
  (3 * length (condition_tokens c) <= fuel)%nat -> closes rest ->
  exists pos', Parser.comparison fuel pos (condition_tokens c ++ rest)
               = Ret (condition_node c, pos', rest).
Proof.
  induction c as [l op r|l r|l r|l r|c IH]; intros fuel pos rest Hf Hrest;
    (destruct fuel as [|fuel];
       [match type of Hf with
        | (3 * length (condition_tokens ?c') <= _)%nat =>
            pose proof (condition_tokens_length c'); lia
        end|]);
    cbn [condition_tokens condition_node] in *.
  - rewrite length_app in Hf. simpl in Hf.
    destruct (compare_parses fuel l op r pos rest) as [pos' E];
      [lia|lia|by apply closes_no_lpar|].
    exists pos'. rewrite <- app_assoc, <- app_comm_cons.
    destruct (atom_tokens_head l) as [(n & ts & Hh)|(v & Hh)];
      rewrite Hh in *; exact E.
  - simpl in Hf. unfold pair_tokens in Hf. simpl in Hf.
    rewrite length_app in Hf. simpl in Hf. rewrite length_app in Hf.
    destruct (pair_parses fuel l r (pos + 1)%nat rest) as [pos' E]; [lia..|].
    exists pos'. rewrite <- app_comm_cons. cbn [Parser.comparison].
    by rewrite E.
  - simpl in Hf. unfold pair_tokens in Hf. simpl in Hf.
    rewrite length_app in Hf. simpl in Hf. rewrite length_app in Hf.
    destruct (pair_parses fuel l r (pos + 1)%nat rest) as [pos' E]; [lia..|].
    exists pos'. rewrite <- app_comm_cons. cbn [Parser.comparison].
    by rewrite E.
  - simpl in Hf. unfold pair_tokens in Hf. simpl in Hf.
    rewrite length_app in Hf. simpl in Hf. rewrite length_app in Hf.
    destruct (pair_parses fuel l r (pos + 1)%nat rest) as [pos' E]; [lia..|].
    exists pos'. rewrite <- app_comm_cons. cbn [Parser.comparison].
    by rewrite E.
  - simpl in Hf. rewrite length_app in Hf. simpl in Hf.
    pose proof (condition_tokens_length c) as Hc.
    destruct fuel as [|[|fuel]]; [lia..|].
    destruct (IH fuel (pos + 1)%nat (RPAR :: rest)) as [pos1 E];
      [lia|done|].
    apply or_expr_single in E; [|done|lia].
    exists (pos1 + 1)%nat.
    rewrite <- app_comm_cons, <- app_assoc. cbn [Parser.comparison app].
    by rewrite E.
Qed.

Lemma rule_parses r fuel pos rest :
  (3 * length (rule_tokens r) <= fuel)%nat -> closes rest ->
  exists pos', Parser.rule fuel pos (rule_tokens r ++ rest)
               = Ret (rule_node r, pos', rest).
Proof.
  intros Hf Hrest.
  destruct r as [c|c]; simpl in Hf; pose proof (condition_tokens_length c);
    (destruct fuel as [|[|fuel]]; [lia..|]);
    (destruct (condition_parses c fuel (pos + 1)%nat rest) as [pos' E];
      [lia|done|]);
    (apply or_expr_single in E; [|done|lia]);
    exists pos'; cbn [rule_tokens rule_node]; rewrite <- app_comm_cons;
    cbn [Parser.rule]; by rewrite E.
Qed.

Lemma strategy_tokens_cons r rs :
  strategy_tokens (r :: rs) = rule_tokens r ++ strategy_tokens rs.
Proof. done. Qed.

Lemma strategy_tokens_closes rs : closes (strategy_tokens rs).
Proof. by destruct rs as [|[c|c] rs]. Qed.

Lemma rule_tokens_length r : (4 <= length (rule_tokens r))%nat.
Proof. destruct r as [c|c]; simpl; pose proof (condition_tokens_length c); lia. Qed.

Lemma rules_parse rs : forall r fuel pos,
  (4 * length (strategy_tokens (r :: rs)) <= fuel)%nat ->
  Parser.rules fuel pos (strategy_tokens (r :: rs))
  = Ret (rule_node <$> r :: rs).
Proof.
  induction rs as [|r' rs IH]; intros r fuel pos Hf;
    rewrite strategy_tokens_cons, length_app in Hf;
    pose proof (rule_tokens_length r) as Hr;
    (destruct fuel as [|fuel]; [lia|]);
    rewrite strategy_tokens_cons; cbn [Parser.rules].
  - destruct (rule_parses r fuel pos []) as [pos' E]; [simpl in *; lia|done|].
    change (strategy_tokens []) with (@nil token).
    rewrite E. done.
  - destruct (rule_parses r fuel pos (strategy_tokens (r' :: rs)))
      as [pos' E]; [lia|apply strategy_tokens_closes|].
    rewrite E. cbn [mbind outcome_bind].
    rewrite (IH r' fuel pos') by lia.
    destruct (strategy_tokens (r' :: rs)) eqn:Et; [|done].
    pose proof (rule_tokens_length r') as Hr'.
    rewrite strategy_tokens_cons in Et. apply (f_equal length) in Et.
    rewrite length_app in Et. simpl in Et. lia.
Qed.

(** X1.  Every text made of one or more rules whose conditions are
    comparisons of two atoms, crosses of two atoms, or such a condition in
    parentheses (an atom being a name, a number or an indicator call with
    at least one parameter, nested to any depth) parses, with nothing
    printed, to the [Strategy] of its rules in order: one node per rule,
    the operands as written, indicator names in upper case, parentheses
    left out. *)
Theorem derived_text_parses (r : rule_text) (rs : list rule_text) :
  parse_dsl (strategy_tokens (r :: rs))
  = (Some (Strategy (rule_node <$> r :: rs)), []).
Proof.
  unfold parse_dsl, Parser.parse.
  rewrite rules_parse; [done|]. unfold Parser.fuel_for. lia.
Qed.

End Derivations.

(* --------------------------------------------------------------------- *)
(** ** The signals of the generated code *)
(* --------------------------------------------------------------------- *)

Section SignalSemantics.
Import Pandas PandasCodeGenerator.
Variable sf : Q -> string.

(** The code of a node with two operands is made of the codes of the
    operands, each as a fresh generator produces it. *)
Lemma visit_two (l r : node) (k : pexpr -> pexpr -> pexpr) g :
  code_only ('(cl, g1) ← visit sf l g; '(cr, g2) ← visit sf r g1;
             Ret (k cl cr, g2))
  = (cl ← code_of sf l; cr ← code_of sf r; Ret (k cl cr)).
Proof.
  unfold code_of, code_only.
  pose proof (visit_code_indep sf l g fresh) as Hl. unfold code_only in Hl.
  destruct (visit sf l g) as [[cl g1]|e], (visit sf l fresh) as [[cl' g1']|e'];
    simpl in *; try congruence.
  injection Hl as ->.
  pose proof (visit_code_indep sf r g1 fresh) as Hr. unfold code_only in Hr.
  destruct (visit sf r g1) as [[cr g2]|e], (visit sf r fresh) as [[cr' g2']|e'];
    simpl in *; congruence.
Qed.

Lemma signal_of_code df n :
  signal_of sf df n = (c ← code_of sf n; eval df c).
Proof.
  unfold signal_of, code_of.
  by destruct (visit sf n fresh) as [[c g]|e].
Qed.

Lemma code_of_crossunder l r :
  code_of sf (CrossUnder l r)
  = (cl ← code_of sf l; cr ← code_of sf r; Ret (cross_below cl cr)).
Proof. apply (visit_two l r cross_below fresh). Qed.

Lemma code_of_crossover l r :
  code_of sf (CrossOver l r)
  = (cl ← code_of sf l; cr ← code_of sf r; Ret (cross_above cl cr)).
Proof. apply (visit_two l r cross_above fresh). Qed.

Lemma code_of_cross l r :
  code_of sf (Cross l r)
  = (cl ← code_of sf l; cr ← code_of sf r; Ret (cross_above cl cr)).
Proof. apply (visit_two l r cross_above fresh). Qed.

Lemma code_of_comparison op l r :
  code_of sf (Comparison op l r)
  = (cl ← code_of sf l; cr ← code_of sf r; Ret (PCmp op cl cr)).
Proof. apply (visit_two l r (PCmp op) fresh). Qed.


Lemma eval_cross_below df cl cr :
  eval df (cross_below cl cr)
  = (a ← eval df cl; b ← eval df cr;
     cross_value Qlt_bool (fun x y => Qle_bool y x) a b).
Proof.
  unfold cross_below, cross_value. simpl.
  destruct (eval df cl) as [a|e]; simpl; [|done].
  destruct (eval df cr) as [b|e]; simpl; [|done].
  unfold shift, compare.
  destruct (to_numeric a) as [x|xs] eqn:Ea, (to_numeric b) as [y|ys] eqn:Eb;
    simpl; try done.
Qed.

Lemma eval_cross_above df cl cr :
  eval df (cross_above cl cr)
  = (a ← eval df cl; b ← eval df cr;
     cross_value (fun x y => Qlt_bool y x) Qle_bool a b).
Proof.
  unfold cross_above, cross_value. simpl.
  destruct (eval df cl) as [a|e]; simpl; [|done].
  destruct (eval df cr) as [b|e]; simpl; [|done].
  unfold shift, compare.
  destruct (to_numeric a) as [x|xs] eqn:Ea, (to_numeric b) as [y|ys] eqn:Eb;
    simpl; try done.
Qed.

Lemma cross_mask_length f g xs ys :
  length xs = length ys -> length (cross_mask f g xs ys) = length xs.
Proof.
  intros H. unfold cross_mask.
  rewrite !length_zip_with, !shift1_length. lia.
Qed.

Lemma cross_mask_0 f g xs ys b : cross_mask f g xs ys !! 0%nat = Some b -> b = false.
Proof.
  unfold cross_mask. rewrite !lookup_zip_with. intros H.
  destruct (xs !! 0%nat) as [a|]; simpl in H; [|done].
  destruct (ys !! 0%nat) as [c|]; simpl in H; [|done].
  destruct (shift1 xs !! 0%nat) as [a'|] eqn:Ea'; simpl in H; [|done].
  destruct (shift1 ys !! 0%nat) as [c'|] eqn:Ec'; simpl in H; [|done].
  apply shift1_lookup_0 in Ea'. subst a'. simpl in H.
  injection H as <-. apply andb_false_r.
Qed.

Lemma cmp_cell_true f a b :
  cmp_cell f a b = true <-> exists x y, a = Some x /\ b = Some y /\ f x y = true.
Proof.
  destruct a as [x|], b as [y|]; simpl; split; try done.
  - intros H. by exists x, y.
  - by intros (? & ? & [= <-] & [= <-] & ?).
  - by intros (? & ? & _ & ? & _).
  - by intros (? & ? & ? & _).
  - by intros (? & ? & ? & _).
Qed.

Lemma cross_mask_S f g xs ys i :
  cross_mask f g xs ys !! S i = Some true <->
  exists x y x' y',
    xs !! S i = Some (Some x) /\ ys !! S i = Some (Some y) /\
    xs !! i = Some (Some x') /\ ys !! i = Some (Some y') /\
    f x y = true /\ g x' y' = true.
Proof.
  unfold cross_mask. rewrite !lookup_zip_with. split.
  - intros H.
    destruct (xs !! S i) as [a|] eqn:Ea; simpl in H; [|done].
    destruct (ys !! S i) as [c|] eqn:Ec; simpl in H; [|done].
    rewrite (shift1_lookup_S _ _ _ Ea), (shift1_lookup_S _ _ _ Ec) in H.
    destruct (xs !! i) as [a'|] eqn:Ea'; simpl in H; [|done].
    destruct (ys !! i) as [c'|] eqn:Ec'; simpl in H; [|done].
    injection H as H. apply andb_true_iff in H as [H1 H2].
    apply cmp_cell_true in H1 as (x & y & -> & -> & Hf).
    apply cmp_cell_true in H2 as (x' & y' & -> & -> & Hg).
    by exists x, y, x', y'.
  - intros (x & y & x' & y' & Ha & Hc & Ha' & Hc' & Hf & Hg).
    rewrite (shift1_lookup_S _ _ _ Ha), (shift1_lookup_S _ _ _ Hc).
    rewrite Ha, Hc, Ha', Hc'. simpl. by rewrite Hf, Hg.
Qed.

(** X5.  On a frame whose columns [lname] and [rname] hold two series of
    equal length (NaN allowed), the signal of [CrossUnder(lname, rname)]
    is a boolean sequence of that length, false on the first bar, and true
    on a later bar exactly when both series have a value on the bar and on
    the bar before, the left one is below the right one on the bar and was
    not below it on the bar before. *)
Theorem crossunder_signal (df : frame) (lname rname : string)
    (ls rs : list (option Q)) :
  df !! lname = Some ls ->
  df !! rname = Some rs ->
  length ls = length rs ->
  exists bs,
    signal_of sf df (CrossUnder (Identifier lname) (Identifier rname))
      = Ret (VMask bs) /\
    length bs = length ls /\
    (forall b, bs !! 0%nat = Some b -> b = false) /\
    (forall i, bs !! S i = Some true <->
       exists x y x' y',
         ls !! S i = Some (Some x) /\ rs !! S i = Some (Some y) /\
         ls !! i = Some (Some x') /\ rs !! i = Some (Some y') /\
         (x < y)%Q /\ (y' <= x')%Q).
Proof.
  intros Hl Hr Hlen. rewrite signal_of_code, code_of_crossunder.
  change (code_of sf (Identifier lname)) with (@Ret pexpr (PCol lname)).
  change (code_of sf (Identifier rname)) with (@Ret pexpr (PCol rname)).
  cbn [mbind outcome_bind]. rewrite eval_cross_below.
  cbn [eval]. rewrite Hl, Hr. cbn [mbind outcome_bind cross_value to_numeric].
  eexists. split; [reflexivity|].
  split; [by apply cross_mask_length|].
  split; [apply cross_mask_0|].
  intros i. rewrite cross_mask_S.
  split; intros (x & y & x' & y' & ? & ? & ? & ? & Hf & Hg);
    exists x, y, x', y'; repeat (split; [done|]).
  - split; [by apply Qlt_bool_iff|by apply Qle_bool_iff].
  - split; [by apply Qlt_bool_iff|by apply Qle_bool_iff].
Qed.

Lemma zip_with_swap {A B C} (f : A -> B -> C) xs ys :
  zip_with f xs ys = zip_with (fun y x => f x y) ys xs.
Proof.
  revert ys. induction xs as [|x xs IH]; intros [|y ys]; simpl; try done.
  by rewrite IH.
Qed.

Lemma cmp_cell_flip f a b : cmp_cell f a b = cmp_cell (fun y x => f x y) b a.
Proof. by destruct a, b. Qed.

Lemma cross_mask_flip f g xs ys :
  cross_mask f g xs ys = cross_mask (fun y x => f x y) (fun y x => g x y) ys xs.
Proof.
  unfold cross_mask. f_equal.
  - rewrite zip_with_swap. apply zip_with_ext; [|done..].
    intros. apply cmp_cell_flip.
  - rewrite zip_with_swap. apply zip_with_ext; [|done..].
    intros. apply cmp_cell_flip.
Qed.

(** X6.  [CrossUnder(l, r)] and [CrossOver(r, l)] denote the same signal:
    on every frame, whenever the evaluation of one returns a value, the
    evaluation of the other returns that value. *)
Theorem crossunder_is_crossover_swapped (df : frame) (l r : node)
    (v : value) :
  signal_of sf df (CrossUnder l r) = Ret v <->
  signal_of sf df (CrossOver r l) = Ret v.
Proof.
  rewrite !signal_of_code, code_of_crossunder, code_of_crossover.
  destruct (code_of sf l) as [cl|e], (code_of sf r) as [cr|e'];
    cbn [mbind outcome_bind]; try done.
  rewrite eval_cross_below, eval_cross_above.
  destruct (eval df cl) as [a|e], (eval df cr) as [b|e'];
    cbn [mbind outcome_bind]; try done.
  unfold cross_value.
  destruct (to_numeric a) as [x|xs], (to_numeric b) as [y|ys]; try done.
  by rewrite (cross_mask_flip Qlt_bool).
Qed.


Lemma cross_value_mask f g a b v :
  cross_value f g a b = Ret v ->
  exists xs ys, to_numeric a = NSeries xs /\ to_numeric b = NSeries ys /\
                v = VMask (cross_mask f g xs ys).
Proof.
  unfold cross_value.
  destruct (to_numeric a) as [x|xs], (to_numeric b) as [y|ys]; try done.
  intros [= <-]. by exists xs, ys.
Qed.

(** X7.  When the signals of [CrossOver(l, r)] and of [CrossUnder(l, r)]
    both evaluate on a frame, they are boolean sequences of the same
    length, and on no bar are both true. *)
Theorem crossover_crossunder_exclusive (df : frame) (l r : node)
    (v1 v2 : value) :
  signal_of sf df (CrossOver l r) = Ret v1 ->
  signal_of sf df (CrossUnder l r) = Ret v2 ->
  exists bs1 bs2,
    v1 = VMask bs1 /\ v2 = VMask bs2 /\ length bs1 = length bs2 /\
    forall i, ~ (bs1 !! i = Some true /\ bs2 !! i = Some true).
Proof.
  rewrite !signal_of_code, code_of_crossunder, code_of_crossover.
  destruct (code_of sf l) as [cl|e], (code_of sf r) as [cr|e'];
    cbn [mbind outcome_bind]; try done.
  rewrite eval_cross_below, eval_cross_above.
  destruct (eval df cl) as [a|e], (eval df cr) as [b|e'];
    cbn [mbind outcome_bind]; try done.
  intros (xs & ys & Ha & Hb & ->)%cross_value_mask
         (xs' & ys' & Ha' & Hb' & ->)%cross_value_mask.
  assert (xs' = xs) as -> by congruence. assert (ys' = ys) as -> by congruence.
  eexists _, _. split; [done|]. split; [done|]. split.
  { unfold cross_mask. rewrite !length_zip_with. done. }
  intros [|i] [H1 H2].
  - by apply cross_mask_0 in H1.
  - apply cross_mask_S in H1 as (x & y & ? & ? & Hx & Hy & _ & _ & Hgt & _).
    apply cross_mask_S in H2 as (x' & y' & ? & ? & Hx' & Hy' & _ & _ & Hlt & _).
    assert (x' = x) as -> by congruence. assert (y' = y) as -> by congruence.
    apply Qlt_bool_iff in Hgt. apply Qlt_bool_iff in Hlt. lra.
Qed.

Lemma cross_value_number_l f g x b : cross_value f g (VFloat x) b = Raise AttributeError.
Proof. done. Qed.

Lemma cross_value_number_r f g a y : cross_value f g a (VFloat y) = Raise AttributeError.
Proof. unfold cross_value. by destruct (to_numeric a). Qed.

(** X8.  A cross with a number on either side never yields a signal: the
    generated code applies [.shift(1)] to the number, so its evaluation
    raises; when the other operand evaluates, the exception is the
    [AttributeError] of the float. *)
Theorem cross_with_number_fails (df : frame) (n : node) (x : Q) :
  (raises (signal_of sf df (CrossOver n (Number x))) /\
   raises (signal_of sf df (CrossOver (Number x) n)) /\
   raises (signal_of sf df (CrossUnder n (Number x))) /\
   raises (signal_of sf df (CrossUnder (Number x) n)) /\
   raises (signal_of sf df (Cross n (Number x))) /\
   raises (signal_of sf df (Cross (Number x) n))) /\
  (forall c v, signal_of sf df n = Ret v ->
     c ∈ [CrossOver; CrossUnder; Cross] ->
     signal_of sf df (c n (Number x)) = Raise AttributeError).
Proof.
  assert (Hnum : code_of sf (Number x) = Ret (PLit x)) by done.
  split.
  - rewrite !signal_of_code, !code_of_crossunder, !code_of_crossover,
      !code_of_cross, !Hnum.
    destruct (code_of sf n) as [c|e]; cbn [mbind outcome_bind];
      [|by repeat split; eexists].
    rewrite !eval_cross_below, !eval_cross_above. cbn [eval mbind outcome_bind].
    destruct (eval df c) as [a|e]; cbn [mbind outcome_bind];
      [|by repeat split; eexists].
    rewrite !cross_value_number_r. cbn [cross_value to_numeric].
    by repeat split; eexists.
  - intros c v Hv Hc. rewrite signal_of_code in Hv.
    destruct (code_of sf n) as [cn|e] eqn:En; cbn [mbind outcome_bind] in Hv;
      [|done].
    rewrite !elem_of_cons in Hc. destruct Hc as [->|[->|[->|Hc]]];
      [| | |by apply elem_of_nil in Hc];
      rewrite signal_of_code, ?code_of_crossunder, ?code_of_crossover,
        ?code_of_cross, En, Hnum; cbn [mbind outcome_bind];
      rewrite ?eval_cross_below, ?eval_cross_above, Hv;
      cbn [eval mbind outcome_bind]; apply cross_value_number_r.
Qed.


Lemma comparator_spec op :
  op ∈ [">"; "<"; ">="; "<="; "=="] ->
  exists f, comparator op = Some f /\
            forall x y, f x y = true <-> satisfies op x y.
Proof.
  rewrite !elem_of_cons.
  intros [->|[->|[->|[->|[->|H]]]]]; [..|by apply elem_of_nil in H];
    eexists; (split; [reflexivity|]); intros x y; unfold satisfies;
    rewrite ?Qlt_bool_iff, ?Qle_bool_iff, ?Qeq_bool_iff;
    (split; [intros H; tauto|]);
    intros [[? ?]|[[? ?]|[[? ?]|[[? ?]|[? ?]]]]]; done.
Qed.

(** X9.  For each of the five comparison operators, the signal of a
    comparison of a column with a number is a boolean sequence with one
    entry per row, true exactly on the rows where the column has a value
    that stands in the relation to the number; and likewise for two
    columns of equal length, on the rows where both have a value.  A
    comparison with NaN is false. *)
Theorem comparison_signal (df : frame) (c : string) (xs : list (option Q))
    (op : string) :
  df !! c = Some xs ->
  op ∈ [">"; "<"; ">="; "<="; "=="] ->
  (forall y, exists bs,
     signal_of sf df (Comparison op (Identifier c) (Number y))
       = Ret (VMask bs) /\
     length bs = length xs /\
     forall i, bs !! i = Some true <->
       exists x, xs !! i = Some (Some x) /\ satisfies op x y) /\
  (forall c' ys, df !! c' = Some ys -> length ys = length xs ->
     exists bs,
       signal_of sf df (Comparison op (Identifier c) (Identifier c'))
         = Ret (VMask bs) /\
       length bs = length xs /\
       forall i, bs !! i = Some true <->
         exists x y, xs !! i = Some (Some x) /\ ys !! i = Some (Some y) /\
                     satisfies op x y).
Proof.
  intros Hc Hop. destruct (comparator_spec op Hop) as (f & Hf & Hsat).
  split.
  - intros y. unfold signal_of. simpl. rewrite Hf, Hc. simpl.
    eexists. split; [reflexivity|]. split; [by rewrite length_map|].
    intros i. rewrite list_lookup_fmap.
    destruct (xs !! i) as [[x|]|]; simpl.
    + split.
      * intros [= H]. exists x. split; [done|]. by apply Hsat.
      * intros (? & [= <-] & H). f_equal. by apply Hsat.
    + split; [done|]. by intros (? & ? & _).
    + split; [done|]. by intros (? & ? & _).
  - intros c' ys Hc' Hlen. unfold signal_of. simpl. rewrite Hf, Hc, Hc'. simpl.
    eexists. split; [reflexivity|].
    split; [rewrite length_zip_with; lia|].
    intros i. rewrite lookup_zip_with.
    destruct (xs !! i) as [a|]; simpl; [|split; [done|by intros (?&?&?&_)]].
    destruct (ys !! i) as [b|]; simpl;
      [|split; [done|by intros (?&?&_&?&_)]].
    split.
    + intros [= H]. apply cmp_cell_true in H as (x & y & -> & -> & H).
      exists x, y. by rewrite <- Hsat.
    + intros (x & y & [= ->] & [= ->] & H). simpl. f_equal. by apply Hsat.
Qed.


Lemma eval_join df op c cs :
  eval df (PJoin op (c :: cs)) = (a ← eval df c; join_rest df op cs a).
Proof. reflexivity. Qed.

Lemma join_rest_masks df op cs : forall bss acc,
  Forall2 (fun c bs => eval df c = Ret (VMask bs)) cs bss ->
  join_rest df op cs (VMask acc)
  = Ret (VMask (foldl (zip_with (bitop_fun op)) acc bss)).
Proof.
  induction cs as [|c cs IH]; intros bss acc H.
  - apply Forall2_nil_inv_l in H as ->. done.
  - apply Forall2_cons_inv_l in H as (bs & bss' & Hc & H & ->).
    simpl. rewrite Hc. simpl. by apply IH.
Qed.

Lemma operand_codes cs : forall bss df g,
  Forall2 (fun c bs => signal_of sf df c = Ret (VMask bs)) cs bss ->
  exists codes g',
    visit_each (visit sf) cs g = Ret (codes, g') /\
    Forall2 (fun c bs => eval df c = Ret (VMask bs)) codes bss.
Proof.
  induction cs as [|c cs IH]; intros bss df g H.
  - apply Forall2_nil_inv_l in H as ->. by exists [], g.
  - apply Forall2_cons_inv_l in H as (bs & bss' & Hc & H & ->).
    rewrite signal_of_code in Hc.
    destruct (code_of sf c) as [code|e] eqn:Ec; simpl in Hc; [|done].
    pose proof (visit_code_indep sf c g fresh) as Hi.
    unfold code_of in Ec. unfold code_only in Hi.
    destruct (visit sf c fresh) as [[code' gf]|e]; simpl in Ec; [|done].
    injection Ec as ->.
    destruct (visit sf c g) as [[code'' g1]|e] eqn:Ev; simpl in Hi; [|done].
    injection Hi as ->.
    destruct (IH bss' df g1 H) as (codes & g' & Hcs & HF).
    exists (code :: codes), g'. simpl. rewrite Ev. simpl. rewrite Hcs. simpl.
    split; [done|]. by constructor.
Qed.

Lemma foldl_zip_length (f : bool -> bool -> bool) bss : forall acc n,
  length acc = n -> Forall (fun bs => length bs = n) bss ->
  length (foldl (zip_with f) acc bss) = n.
Proof.
  induction bss as [|bs bss IH]; intros acc n Ha H; [done|].
  apply Forall_cons in H as [Hb H]. simpl. apply IH; [|done].
  rewrite length_zip_with. lia.
Qed.

Lemma foldl_zip_and bss : forall acc i,
  foldl (zip_with andb) acc bss !! i = Some true <->
  acc !! i = Some true /\ Forall (fun bs => bs !! i = Some true) bss.
Proof.
  induction bss as [|bs bss IH]; intros acc i; simpl.
  - split; [by intros H; split|by intros [H _]].
  - rewrite IH, Forall_cons, lookup_zip_with.
    destruct (acc !! i) as [[]|], (bs !! i) as [[]|]; simpl; split;
      try tauto; intros [? ?]; try done; intuition congruence.
Qed.

Lemma foldl_zip_or bss : forall acc i n,
  length acc = n -> Forall (fun bs => length bs = n) bss ->
  foldl (zip_with orb) acc bss !! i = Some true <->
  acc !! i = Some true \/ Exists (fun bs => bs !! i = Some true) bss.
Proof.
  induction bss as [|bs bss IH]; intros acc i n Ha H; simpl.
  - rewrite Exists_nil. tauto.
  - apply Forall_cons in H as [Hb H].
    rewrite (IH _ i n); [|rewrite length_zip_with; lia|done].
    rewrite Exists_cons, lookup_zip_with.
    destruct (decide (i < n)%nat) as [Hi|Hi].
    + destruct (lookup_lt_is_Some_2 acc i) as [a Ea]; [lia|].
      destruct (lookup_lt_is_Some_2 bs i) as [b Eb]; [lia|].
      rewrite Ea, Eb. simpl. destruct a, b; simpl; intuition congruence.
    + rewrite (lookup_ge_None_2 acc i) by lia. simpl.
      rewrite (lookup_ge_None_2 bs i) by lia. intuition congruence.
Qed.

(** X10.  When the operands of a logical operation evaluate to boolean
    sequences of one length, the operation evaluates to a sequence of that
    length: with the operator text [AND] it is true on a bar exactly when
    every operand is; with any other operator text (an [AND] spelled in
    lower case among them) it is true exactly when some operand is. *)
Theorem logical_operation_signal (df : frame) (op : string) (c : node)
    (cs : list node) (bs : list bool) (bss : list (list bool)) :
  Forall2 (fun c bs => signal_of sf df c = Ret (VMask bs)) (c :: cs) (bs :: bss) ->
  Forall (fun bs' => length bs' = length bs) bss ->
  exists mask,
    signal_of sf df (LogicalOperation op (c :: cs)) = Ret (VMask mask) /\
    length mask = length bs /\
    forall i, mask !! i = Some true <->
      if String.eqb op "AND"
      then Forall (fun bs' => bs' !! i = Some true) (bs :: bss)
      else Exists (fun bs' => bs' !! i = Some true) (bs :: bss).
Proof.
  intros H Hlen.
  destruct (operand_codes _ _ df fresh H) as (codes & g' & Hv & HF).
  apply Forall2_cons_inv_r in HF as (code & codes' & Hc & HF & ->).
  unfold signal_of. cbn [visit]. rewrite Hv. cbn [mbind outcome_bind].
  rewrite eval_join, Hc. cbn [mbind outcome_bind].
  rewrite (join_rest_masks _ _ _ _ _ HF).
  eexists. split; [reflexivity|].
  split; [by apply foldl_zip_length|].
  intros i. destruct (String.eqb op "AND"); simpl.
  - rewrite foldl_zip_and, Forall_cons. done.
  - rewrite (foldl_zip_or _ _ _ (length bs)), Exists_cons; done.
Qed.

End SignalSemantics.

(* --------------------------------------------------------------------- *)
(** ** The columns the generated code reads *)
(* --------------------------------------------------------------------- *)

Section ColumnsRead.

Import PandasCodeGenerator.
Variable sf : Q -> string.

Lemma identifiers_all ns :
  (fix all (ns : list node) : list string :=
     match ns with
     | [] => []
     | x :: xs => identifiers x ++ all xs
     end) ns = ns ≫= identifiers.
Proof. induction ns as [|n ns IH]; [done|]. by rewrite bind_cons, IH. Qed.

Lemma columns_read_all cs :
  (fix all (cs : list pexpr) : list string :=
     match cs with
     | [] => []
     | c :: cs' => columns_read c ++ all cs'
     end) cs = cs ≫= columns_read.
Proof. induction cs as [|c cs IH]; [done|]. by rewrite bind_cons, IH. Qed.

Lemma reads_own_pair l r cl cr (k : pexpr -> pexpr -> pexpr) (n : node) :
  identifiers n = identifiers l ++ identifiers r ->
  indicator_nodes n = indicator_nodes l ++ indicator_nodes r ->
  (forall col, col ∈ columns_read (k cl cr) ->
     col ∈ columns_read cl \/ col ∈ columns_read cr) ->
  reads_own sf l cl -> reads_own sf r cr -> reads_own sf n (k cl cr).
Proof.
  intros Hi Hn Hk Hl Hr col Hc. rewrite Hi, Hn.
  destruct (Hk col Hc) as [H|H].
  - destruct (Hl col H) as [?|(ind & ? & ?)].
    + left. apply elem_of_app. by left.
    + right. exists ind. split; [|done]. apply elem_of_app. by left.
  - destruct (Hr col H) as [?|(ind & ? & ?)].
    + left. apply elem_of_app. by right.
    + right. exists ind. split; [|done]. apply elem_of_app. by right.
Qed.

Lemma cross_above_columns cl cr col :
  col ∈ columns_read (cross_above cl cr) ->
  col ∈ columns_read cl \/ col ∈ columns_read cr.
Proof. simpl. rewrite !elem_of_app. tauto. Qed.

Lemma cross_below_columns cl cr col :
  col ∈ columns_read (cross_below cl cr) ->
  col ∈ columns_read cl \/ col ∈ columns_read cr.
Proof. simpl. rewrite !elem_of_app. tauto. Qed.

Lemma visit_each_codes ns : forall g cs g',
  visit_each (visit sf) ns g = Ret (cs, g') ->
  Forall2 (fun n c => code_of sf n = Ret c) ns cs.
Proof.
  induction ns as [|n ns IH]; intros g cs g' H; simpl in H.
  - injection H as <- <-. constructor.
  - destruct (visit sf n g) as [[c g1]|e] eqn:E1; simpl in H; [|done].
    destruct (visit_each (visit sf) ns g1) as [[cs' g2]|e] eqn:E2;
      simpl in H; [|done].
    injection H as <- <-. constructor; [by eapply visit_code_of|by eapply IH].
Qed.

Lemma code_reads_own n : forall c, code_of sf n = Ret c -> reads_own sf n c.
Proof.
  induction n as [rules _|c _|c _|op operands IH|op l r IHl IHr|l r IHl IHr
                 |l r IHl IHr|l r IHl IHr|name ps _|name|v]
    using node_induction;
    intros c0 H; try done.
  - unfold code_of in H. simpl in H.
    destruct (visit_each (visit sf) operands fresh) as [[cs g1]|e] eqn:E;
      simpl in H; [|done].
    injection H as <-. apply visit_each_codes in E.
    intros col Hc. simpl in Hc. rewrite columns_read_all in Hc.
    simpl. rewrite identifiers_all, indicator_nodes_all.
    apply list_elem_of_bind in Hc as (c & Hc & Hin).
    apply list_elem_of_lookup_1 in Hin as [i Hi].
    destruct (Forall2_lookup_r _ _ _ _ _ E Hi) as (n & Hn & Hcode).
    rewrite Forall_forall in IH.
    pose proof (list_elem_of_lookup_2 _ _ _ Hn) as Hnin.
    destruct (IH n Hnin c Hcode col Hc) as [?|(ind & ? & ?)].
    + left. apply list_elem_of_bind. by exists n.
    + right. exists ind. split; [|done]. apply list_elem_of_bind. by exists n.
  - rewrite code_of_comparison in H.
    destruct (code_of sf l) as [cl|] eqn:El; simpl in H; [|done].
    destruct (code_of sf r) as [cr|] eqn:Er; simpl in H; [|done].
    injection H as <-.
    apply (reads_own_pair l r cl cr (PCmp op)); [done|done| |by apply IHl|by apply IHr].
    intros col. simpl. by rewrite elem_of_app.
  - rewrite code_of_cross in H.
    destruct (code_of sf l) as [cl|] eqn:El; simpl in H; [|done].
    destruct (code_of sf r) as [cr|] eqn:Er; simpl in H; [|done].
    injection H as <-.
    apply (reads_own_pair l r cl cr cross_above); [done|done| |by apply IHl|by apply IHr].
    apply cross_above_columns.
  - rewrite code_of_crossover in H.
    destruct (code_of sf l) as [cl|] eqn:El; simpl in H; [|done].
    destruct (code_of sf r) as [cr|] eqn:Er; simpl in H; [|done].
    injection H as <-.
    apply (reads_own_pair l r cl cr cross_above); [done|done| |by apply IHl|by apply IHr].
    apply cross_above_columns.
  - rewrite code_of_crossunder in H.
    destruct (code_of sf l) as [cl|] eqn:El; simpl in H; [|done].
    destruct (code_of sf r) as [cr|] eqn:Er; simpl in H; [|done].
    injection H as <-.
    apply (reads_own_pair l r cl cr cross_below); [done|done| |by apply IHl|by apply IHr].
    apply cross_below_columns.
  - unfold code_of in H. simpl in H.
    destruct (indicator_col_name sf name ps) as [col|e] eqn:Ec;
      simpl in H; [|done].
    assert (c0 = PCol col) as ->.
    { case_bool_decide; simpl in H; [by injection H as <-|].
      rewrite (visit_each_atoms sf) in H by (by eapply col_name_atoms).
      simpl in H. by injection H as <-. }
    intros col' Hc. simpl in Hc. apply list_elem_of_singleton in Hc as ->.
    right. exists (name, ps). split; [|done]. simpl. apply elem_of_cons. by left.
  - injection H as <-. intros col Hc. simpl in Hc. by left.
  - injection H as <-. intros col Hc. simpl in Hc. by apply elem_of_nil in Hc.
Qed.


Lemma indicator_params_identifiers n : forall ind col,
  ind ∈ indicator_nodes n -> col ∈ ind.2 ≫= identifiers ->
  col ∈ identifiers n.
Proof.
  induction n as [rules IH|c IH|c IH|op operands IH|op l r IHl IHr|l r IHl IHr
                 |l r IHl IHr|l r IHl IHr|name ps IH|name|v]
    using node_induction;
    intros ind col Hi Hc; simpl in Hi;
    try (by apply elem_of_nil in Hi);
    try (by eapply IH);
    try (simpl; apply elem_of_app in Hi as [Hi|Hi]; apply elem_of_app;
         [left; by eapply IHl|right; by eapply IHr]).
  - rewrite indicator_nodes_all in Hi. simpl. rewrite identifiers_all.
    apply list_elem_of_bind in Hi as (n & Hi & Hn).
    apply list_elem_of_bind. exists n. split; [|done].
    rewrite Forall_forall in IH. by eapply IH.
  - rewrite indicator_nodes_all in Hi. simpl. rewrite identifiers_all.
    apply list_elem_of_bind in Hi as (n & Hi & Hn).
    apply list_elem_of_bind. exists n. split; [|done].
    rewrite Forall_forall in IH. by eapply IH.
  - rewrite indicator_nodes_all in Hi. simpl. rewrite identifiers_all.
    apply elem_of_cons in Hi as [->|Hi]; [done|].
    apply list_elem_of_bind in Hi as (n & Hi & Hn).
    apply list_elem_of_bind. exists n. split; [|done].
    rewrite Forall_forall in IH. by eapply IH.
Qed.

Lemma last_condition_in kind rules c :
  last_condition kind rules = Some c ->
  exists rule, rule ∈ rules /\ condition_of kind rule = Some c /\
               rule_condition rule = Some c.
Proof.
  unfold last_condition. intros H.
  apply last_Some_elem_of, list_elem_of_omap in H as (rule & Hin & Hc).
  exists rule. split; [done|]. split; [done|].
  by destruct rule, kind.
Qed.

Lemma rule_identifiers rules rule c col :
  rule ∈ rules -> rule_condition rule = Some c -> col ∈ identifiers c ->
  col ∈ identifiers (Strategy rules).
Proof.
  intros Hin Hc Hcol. simpl. rewrite identifiers_all.
  apply list_elem_of_bind. exists rule. split; [|done].
  destruct rule; simpl in Hc; try done; by injection Hc as ->.
Qed.

Lemma atom_code_columns ps col :
  Forall is_atom ps ->
  col ∈ (atom_code <$> ps) ≫= columns_read -> col ∈ ps ≫= identifiers.
Proof.
  induction 1 as [|p ps Hp _ IH]; [done|].
  rewrite fmap_cons, !bind_cons, !elem_of_app. intros [H|H]; [left|right; auto].
  by destruct p.
Qed.

(** X22.  Whenever [generate] returns, every column its entry and exit
    expressions read is a column the strategy names or one that a line of
    the returned indicator code assigns, and the indicator code itself
    reads nothing but columns the strategy names: no expression refers to
    an indicator column that is not computed. *)
Theorem generated_code_reads_known_columns (rules : list node)
    (r : generated) :
  generate sf (Strategy rules) = Ret r ->
  Forall (known_column rules (indicators r))
    (columns_read (entry r) ++ columns_read (exit r)) /\
  Forall (fun st =>
            Forall (fun col => col ∈ identifiers (Strategy rules))
              (args st ≫= columns_read))
    (indicators r).
Proof.
  unfold generate. intros H.
  destruct (generate_rules sf rules PFalse PFalse fresh)
    as [[[e x] g]|err] eqn:E; simpl in H; [|done].
  injection H as <-. simpl.
  pose proof (generate_rules_last sf rules _ _ _ _ _ _ E) as [He Hx].
  pose proof (generate_rules_extends sf rules _ _ _ _ _ _ E
                (consistent_fresh)) as ([Hset _] & (new & Hnew & Hfrom) & _ & Hc).
  simpl in Hnew. subst new.
  assert (Hcode : forall kind c code,
            last_condition kind rules = Some c -> code_of sf c = Ret code ->
            Forall (known_column rules (indicator_code g)) (columns_read code)).
  { intros kind c code Hl Hcd. apply Forall_forall. intros col Hcol.
    apply last_condition_in in Hl as (rule & Hin & _ & Hrc).
    destruct (code_reads_own c code Hcd col Hcol) as [Hid|(ind & Hind & Hn)].
    - left. by eapply rule_identifiers.
    - right. rewrite Forall_forall in Hc.
      destruct (Hc ind) as (col' & Hn' & Hg).
      { unfold strategy_indicators. apply list_elem_of_bind. exists c.
        split; [done|]. apply list_elem_of_omap. by exists rule. }
      rewrite Hn in Hn'. injection Hn' as <-.
      rewrite Hset in Hg. by apply elem_of_list_to_set in Hg. }
  split.
  - apply Forall_app. split.
    + destruct (last_condition true rules) as [c|] eqn:El;
        [by eapply Hcode|subst e; constructor].
    + destruct (last_condition false rules) as [c|] eqn:El;
        [by eapply Hcode|subst x; constructor].
  - eapply Forall_impl; [exact Hfrom|].
    intros st ([name ps] & Hin & Hown). apply Forall_forall. intros col Hcol.
    pose proof (own_statement_target sf _ _ Hown) as Ht. simpl in Ht.
    rewrite (own_statement_atoms sf _ _ _ Ht) in Hown. injection Hown as Hst.
    rewrite <- Hst in Hcol. simpl in Hcol. apply atom_code_columns in Hcol;
      [|by eapply col_name_atoms].
    unfold strategy_indicators in Hin.
    apply list_elem_of_bind in Hin as (c & Hin & Hc').
    apply list_elem_of_omap in Hc' as (rule & Hrule & Hrc).
    eapply rule_identifiers; [done..|].
    by eapply (indicator_params_identifiers c (name, ps)).
Qed.

End ColumnsRead.

(* --------------------------------------------------------------------- *)
(** ** The trades of the simulation *)
(* --------------------------------------------------------------------- *)

Section SimulationTrades.
Import Backtest.
Local Open Scope Q_scope.

Lemma exit_branch_curve r s s1 :
  exit_branch r s = Ret s1 -> equity_curve s1 = equity_curve s.
Proof. intros H. by apply exit_branch_inv in H as (_ & ? & _). Qed.

Lemma entry_branch_curve r s : equity_curve (entry_branch r s) = equity_curve s.
Proof. unfold entry_branch. by destruct (_ && _). Qed.

Lemma step_curve r s s' :
  step r s = Ret s' ->
  exists s2, exit_branch r s ≫= (fun s1 => Ret (entry_branch r s1)) = Ret s2 /\
    equity_curve s' = equity_curve s ++ [current_value r s2] /\
    holding s' = holding s2 /\ equity s' = equity s2 /\
    entry_price s' = entry_price s2 /\ entry_date s' = entry_date s2 /\
    trades s' = trades s2.
Proof.
  unfold step. intros H.
  destruct (exit_branch r s) as [s1|e] eqn:E1; simpl in H; [|done].
  exists (entry_branch r s1). split; [done|].
  unfold bookkeeping in H. destruct (Qeq_bool _ 0); [done|].
  injection H as <-. simpl.
  by rewrite entry_branch_curve, (exit_branch_curve _ _ _ E1).
Qed.

Lemma loop_curve_length rows : forall s s',
  loop rows s = Ret s' ->
  length (equity_curve s') = (length (equity_curve s) + length rows)%nat.
Proof.
  induction rows as [|r rows IH]; intros s s' H; simpl in H.
  - injection H as <-. simpl. lia.
  - destruct (step r s) as [s1|e] eqn:E; simpl in H; [|done].
    apply step_curve in E as (s2 & _ & Hc & _).
    rewrite (IH _ _ H), Hc, length_app. simpl. lia.
Qed.

Lemma close_final_curve rows s s' :
  close_final rows s = Ret s' -> equity_curve s' = equity_curve s.
Proof.
  unfold close_final, sell. destruct (holding s); [|by intros [= <-]].
  destruct (last rows); [|done]. destruct (entry_date s); [|done].
  by intros [= <-].
Qed.

Lemma performance_fields capital s rep :
  performance capital s = Ret rep ->
  final_equity rep = equity s /\
  report_trades rep = trades s /\
  report_equity_curve rep = equity_curve s /\
  report_max_drawdown rep = max_drawdown s /\
  num_trades rep = length (trades s) /\
  num_wins rep = length (wins (trades s)).
Proof.
  unfold performance. destruct (Qeq_bool capital 0); [done|].
  by intros [= <-].
Qed.

(** X11.  The equity curve of a report has exactly one point for each
    bar of the data. *)
Theorem equity_curve_one_per_bar (rows : list row) (capital : Q)
    (rep : report) :
  simulate rows capital = Ret rep ->
  length (report_equity_curve rep) = length rows.
Proof.
  unfold simulate. intros H.
  destruct (loop rows (init capital)) as [s|e] eqn:E; simpl in H; [|done].
  destruct (close_final rows s) as [s'|e] eqn:E'; simpl in H; [|done].
  apply performance_fields in H as (_ & _ & -> & _).
  rewrite (close_final_curve _ _ _ E'), (loop_curve_length _ _ _ E). done.
Qed.


Lemma wins_length ts : (length (wins ts) <= length ts)%nat.
Proof. unfold wins. apply length_filter. Qed.

(** X12.  In every report the number of trades is the length of the
    trade list, the number of winning trades does not exceed it, and the
    win rate lies between 0 and 100: it is 0 when no trade wins, 100 when
    every trade wins, and 0 when there is no trade. *)
Theorem win_rate_bounded (rows : list row) (capital : Q) (rep : report) :
  simulate rows capital = Ret rep ->
  num_trades rep = length (report_trades rep) /\
  (num_wins rep <= num_trades rep)%nat /\
  0 <= win_rate rep /\ win_rate rep <= 100 /\
  (num_wins rep = 0%nat -> win_rate rep == 0) /\
  (num_wins rep = num_trades rep -> (0 < num_trades rep)%nat ->
   win_rate rep == 100) /\
  (num_trades rep = 0%nat -> win_rate rep = 0).
Proof.
  unfold simulate. intros H.
  destruct (loop rows (init capital)) as [s|e] eqn:E; simpl in H; [|done].
  destruct (close_final rows s) as [s'|e] eqn:E'; simpl in H; [|done].
  unfold performance in H. destruct (Qeq_bool capital 0); [done|].
  injection H as <-. simpl.
  pose proof (wins_length (trades s')) as Hw.
  set (n := length (trades s')) in *. set (w := length (wins (trades s'))) in *.
  clearbody n w. split; [done|]. split; [done|].
  destruct (0 <? n)%nat eqn:En.
  - apply Nat.ltb_lt in En.
    assert (Hn : 0 < inject_Z (Z.of_nat n)).
    { rewrite <- (Zlt_Qlt 0). lia. }
    assert (Hw0 : 0 <= inject_Z (Z.of_nat w)).
    { rewrite <- (Zle_Qle 0). lia. }
    assert (Hwn : inject_Z (Z.of_nat w) <= inject_Z (Z.of_nat n)).
    { rewrite <- Zle_Qle. lia. }
    split; [|split; [|split; [|split; [|lia]]]].
    + assert (H1 : 0 <= inject_Z (Z.of_nat w) / inject_Z (Z.of_nat n))
        by (apply Qle_shift_div_l; lra).
      lra.
    + assert (H2 : inject_Z (Z.of_nat w) / inject_Z (Z.of_nat n) <= 1)
        by (apply Qle_shift_div_r; lra).
      lra.
    + intros ->. change (inject_Z (Z.of_nat 0)) with 0. unfold Qdiv. ring.
    + intros -> _. field. lra.
  - apply Nat.ltb_ge in En. assert (n = 0%nat) as -> by lia.
    assert (w = 0%nat) as -> by lia.
    split; [lra|]. split; [lra|]. split; [done|]. split; [lia|done].
Qed.


Lemma Qlt_bool_irrefl_plus x : Pandas.Qlt_bool x (x + 0) = false.
Proof. apply Qlt_bool_false. lra. Qed.

Lemma step_idle capital r s :
  0 < capital -> entry_signal r = false ->
  holding s = false -> equity s = capital -> peak_equity s = capital ->
  max_drawdown s = 0 ->
  exists s', step r s = Ret s' /\
    holding s' = false /\ equity s' = capital /\ peak_equity s' = capital /\
    max_drawdown s' = 0 /\ trades s' = trades s /\
    equity_curve s' = equity_curve s ++ [capital + 0].
Proof.
  intros Hc He Hh Heq Hp Hm.
  unfold step, exit_branch. rewrite Hh, andb_false_r. simpl.
  unfold entry_branch. rewrite He. simpl.
  unfold bookkeeping, current_value. rewrite Hh, Heq, Hp, Hm.
  rewrite Qlt_bool_irrefl_plus.
  destruct (Qeq_bool capital 0) eqn:Ez; [apply Qeq_bool_iff in Ez; lra|].
  assert (Hd : Pandas.Qlt_bool 0 ((capital - (capital + 0)) / capital) = false).
  { apply Qlt_bool_false. apply Qle_shift_div_r; lra. }
  rewrite Hd. eexists. split; [reflexivity|]. simpl. done.
Qed.

Lemma loop_idle capital rows : forall s,
  0 < capital -> Forall (fun r => entry_signal r = false) rows ->
  holding s = false -> equity s = capital -> peak_equity s = capital ->
  max_drawdown s = 0 ->
  exists s', loop rows s = Ret s' /\
    holding s' = false /\ equity s' = capital /\ peak_equity s' = capital /\
    max_drawdown s' = 0 /\ trades s' = trades s /\
    equity_curve s' = equity_curve s ++ replicate (length rows) (capital + 0).
Proof.
  induction rows as [|r rows IH]; intros s Hc Hr Hh Heq Hp Hm.
  - exists s. simpl. rewrite app_nil_r. done.
  - apply Forall_cons in Hr as [Hr Hrs]. simpl.
    destruct (step_idle capital r s Hc Hr Hh Heq Hp Hm)
      as (s1 & -> & Hh1 & Heq1 & Hp1 & Hm1 & Ht1 & Hc1). simpl.
    destruct (IH s1 Hc Hrs Hh1 Heq1 Hp1 Hm1)
      as (s' & -> & ? & ? & ? & ? & Ht & Hcv).
    exists s'. split; [done|]. rewrite Ht, Ht1, Hcv, Hc1, <- app_assoc. done.
Qed.

(** X13.  With a positive initial capital and no entry signal on any bar
    (the empty data included), the simulation returns a report without
    trades: the final equity is the initial capital, the maximum drawdown
    and the win rate are 0, and every point of the equity curve is the
    initial capital.  Exit signals without a position are ignored. *)
Theorem no_entry_signal_no_trade (rows : list row) (capital : Q) :
  0 < capital ->
  Forall (fun r => entry_signal r = false) rows ->
  exists rep,
    simulate rows capital = Ret rep /\
    report_trades rep = [] /\
    num_trades rep = 0%nat /\
    final_equity rep = capital /\
    total_profit rep == 0 /\
    report_max_drawdown rep = 0 /\
    win_rate rep = 0 /\
    length (report_equity_curve rep) = length rows /\
    Forall (fun value => value == capital) (report_equity_curve rep).
Proof.
  intros Hc Hr. unfold simulate.
  destruct (loop_idle capital rows (init capital) Hc Hr)
    as (s & -> & Hh & Heq & Hp & Hm & Ht & Hcv); try done.
  simpl. unfold close_final. rewrite Hh. simpl. unfold performance.
  destruct (Qeq_bool capital 0) eqn:Ez; [apply Qeq_bool_iff in Ez; lra|].
  eexists. split; [reflexivity|]. simpl. rewrite Ht, Heq, Hm, Hcv. simpl.
  repeat split; try done; [ring|by rewrite length_replicate|].
  apply Forall_replicate. ring.
Qed.


Lemma step_held r s s' :
  exit_signal r = false -> holding s = true -> step r s = Ret s' ->
  holding s' = true /\ entry_price s' = entry_price s /\
  entry_date s' = entry_date s /\ trades s' = trades s /\
  equity s' = equity s.
Proof.
  intros Hx Hh H. apply step_curve in H as (s2 & E & _ & -> & -> & -> & -> & ->).
  unfold exit_branch in E. rewrite Hx in E. simpl in E.
  unfold entry_branch in E. rewrite Hh, andb_false_r in E.
  by injection E as <-.
Qed.

Lemma loop_held rows : forall s s',
  Forall (fun r => exit_signal r = false) rows ->
  holding s = true -> loop rows s = Ret s' ->
  holding s' = true /\ entry_price s' = entry_price s /\
  entry_date s' = entry_date s /\ trades s' = trades s /\
  equity s' = equity s.
Proof.
  induction rows as [|r rows IH]; intros s s' Hr Hh H; simpl in H.
  - by injection H as <-.
  - apply Forall_cons in Hr as [Hr Hrs].
    destruct (step r s) as [s1|e] eqn:E; simpl in H; [|done].
    apply (step_held _ _ _ Hr Hh) in E as (Hh1 & <- & <- & <- & <-).
    by apply IH.
Qed.

Lemma step_buys r s s' :
  entry_signal r = true -> holding s = false -> step r s = Ret s' ->
  holding s' = true /\ entry_price s' = close r /\
  entry_date s' = Some (Date r) /\ trades s' = trades s /\
  equity s' = equity s.
Proof.
  intros He Hh H. apply step_curve in H as (s2 & E & _ & -> & -> & -> & -> & ->).
  unfold exit_branch in E. rewrite Hh, andb_false_r in E. simpl in E.
  unfold entry_branch in E. rewrite Hh, He in E. simpl in E.
  by injection E as <-.
Qed.

(** X14.  With a positive initial capital, when the first entry signal
    comes on bar [r0] and no later bar has an exit signal, the report holds
    exactly one trade: bought at the close of [r0] and sold at the close of
    the last bar, whatever the entry signals after [r0] and the exit
    signals up to it; the final equity is the capital plus the difference
    of the two closes. *)
Theorem held_to_the_last_bar (pre post : list row) (r0 : row) (capital : Q) :
  0 < capital ->
  Forall (fun r => entry_signal r = false) pre ->
  entry_signal r0 = true ->
  Forall (fun r => exit_signal r = false) post ->
  exists rep rl,
    simulate (pre ++ r0 :: post) capital = Ret rep /\
    last (r0 :: post) = Some rl /\
    report_trades rep =
      [Trade.Make (Date r0) (Date rl) (close r0) (close rl)
                  (close rl - close r0)] /\
    final_equity rep = capital + (close rl - close r0).
Proof.
  intros Hc Hpre He Hpost. unfold simulate.
  destruct (loop_sound capital (pre ++ r0 :: post) (init capital)
              (sound_init _ Hc)) as (s & E & Hs).
  rewrite E. simpl. rewrite loop_app in E.
  destruct (loop_idle capital pre (init capital) Hc Hpre)
    as (s1 & E1 & Hh1 & Heq1 & _ & _ & Ht1 & _); try done.
  rewrite E1 in E. simpl in E.
  destruct (step r0 s1) as [s2|e] eqn:E2; simpl in E; [|done].
  apply (step_buys _ _ _ He Hh1) in E2 as (Hh2 & Hp2 & Hd2 & Ht2 & Heq2).
  apply (loop_held _ _ _ Hpost Hh2) in E as (Hh & Hp & Hd & Ht & Heq).
  destruct (last (r0 :: post)) as [rl|] eqn:El;
    [|by apply last_None in El].
  exists
    {| initial_capital := capital;
       final_equity := capital + (close rl - close r0);
       total_profit := capital + (close rl - close r0) - capital;
       profit_percent :=
         (capital + (close rl - close r0) - capital) / capital * 100;
       report_max_drawdown := max_drawdown s;
       num_trades := 1;
       num_wins :=
         length (wins [Trade.Make (Date r0) (Date rl) (close r0) (close rl)
                                  (close rl - close r0)]);
       win_rate :=
         inject_Z (Z.of_nat
           (length (wins [Trade.Make (Date r0) (Date rl) (close r0) (close rl)
                                     (close rl - close r0)])))
         / inject_Z (Z.of_nat 1) * 100;
       report_trades :=
         [Trade.Make (Date r0) (Date rl) (close r0) (close rl)
                     (close rl - close r0)];
       report_equity_curve := equity_curve s |}, rl.
  split; [|done].
  unfold close_final. rewrite Hh.
  assert (last (pre ++ r0 :: post) = Some rl) as ->.
  { rewrite last_app, El. done. }
  unfold sell. rewrite Hd, Hd2, Hp, Hp2, Heq, Heq2, Heq1, Ht, Ht2, Ht1. simpl.
  unfold performance. simpl.
  destruct (Qeq_bool capital 0) eqn:Ez; [apply Qeq_bool_iff in Ez; lra|].
  done.
Qed.


Lemma in_sequence_snoc lo spans span :
  in_sequence lo (spans ++ [span]) <->
  in_sequence lo spans /\ (frontier lo spans <= span.1)%nat /\
  (span.1 <= span.2)%nat.
Proof.
  revert lo. induction spans as [|sp spans IH]; intros lo; simpl.
  - unfold frontier. simpl. tauto.
  - rewrite IH. unfold frontier. rewrite !last_cons.
    destruct (last spans); tauto.
Qed.

Lemma frontier_snoc lo spans span : frontier lo (spans ++ [span]) = span.2.
Proof. unfold frontier. by rewrite last_snoc. Qed.

Lemma trade_of_mono rows more span t :
  trade_of rows span = Some t -> trade_of (rows ++ more) span = Some t.
Proof.
  unfold trade_of. intros H.
  destruct (rows !! span.1) as [r_in|] eqn:E1; simpl in H; [|done].
  destruct (rows !! span.2) as [r_out|] eqn:E2; simpl in H; [|done].
  rewrite (lookup_app_l_Some _ _ _ _ E1). simpl.
  rewrite (lookup_app_l_Some _ _ _ _ E2). done.
Qed.

Lemma signal_trade_mono rows more span t :
  signal_trade rows span t -> signal_trade (rows ++ more) span t.
Proof.
  intros (H1 & H2 & (r & Hr & He) & (r' & Hr' & Hx)).
  split; [by apply trade_of_mono|]. split; [done|].
  split; eexists; (split; [by apply lookup_app_l_Some|done]).
Qed.

Lemma step_trades_so_far done_ r s s' :
  trades_so_far done_ s -> step r s = Ret s' ->
  trades_so_far (done_ ++ [r]) s'.
Proof.
  intros (spans & HF & Hseq & Hfr & Hopen) H.
  apply step_curve in H as (s2 & E & _ & Hh' & _ & Hp' & Hd' & Ht').
  unfold trades_so_far. rewrite Hh', Hp', Hd', Ht'. clear Hh' Hp' Hd' Ht' s'.
  assert (Hlast : (done_ ++ [r]) !! length done_ = Some r).
  { by rewrite lookup_app_r, Nat.sub_diag. }
  assert (HF' : Forall2 (signal_trade (done_ ++ [r])) spans (trades s)).
  { eapply Forall2_impl; [exact HF|]. intros sp t. apply signal_trade_mono. }
  unfold exit_branch in E.
  destruct (exit_signal r && holding s) eqn:Ex.
  - apply andb_true_iff in Ex as [Hx Hh].
    destruct (Hopen Hh) as (i & r_in & Hin & Hen & Hdate & Hprice & Hfi).
    unfold sell in E. rewrite Hdate, Hprice in E. simpl in E.
    assert (Hi : (i < length done_)%nat) by (by eapply lookup_lt_Some).
    set (span := (i, length done_)).
    assert (Hnew : signal_trade (done_ ++ [r]) span
              (Trade.Make (Date r_in) (Date r) (close r_in) (close r)
                          (close r - close r_in))).
    { split.
      { unfold trade_of. simpl.
        rewrite (lookup_app_l_Some _ _ _ _ Hin). simpl. by rewrite Hlast. }
      split; [done|]. split.
      - exists r_in. split; [by apply lookup_app_l_Some|done].
      - by exists r. }
    unfold entry_branch in E. simpl in E.
    destruct (entry_signal r) eqn:Een; simpl in E; injection E as <-; simpl.
    + exists (spans ++ [span]). split; [by apply Forall2_app; [|constructor]|].
      split; [apply in_sequence_snoc; simpl; split; [done|lia]|].
      rewrite frontier_snoc, length_app. simpl. split; [lia|].
      intros _. exists (length done_), r. done.
    + exists (spans ++ [span]). split; [by apply Forall2_app; [|constructor]|].
      split; [apply in_sequence_snoc; simpl; split; [done|lia]|].
      rewrite frontier_snoc, length_app. simpl. split; [lia|]. done.
  - simpl in E. unfold entry_branch in E.
    destruct (entry_signal r && negb (holding s)) eqn:Een;
      injection E as <-; simpl.
    + apply andb_true_iff in Een as [Hen _].
      exists spans. split; [done|]. split; [done|].
      rewrite length_app. simpl. split; [lia|].
      intros _. exists (length done_), r. done.
    + exists spans. split; [done|]. split; [done|].
      rewrite length_app. simpl. split; [lia|].
      intros Hh. destruct (Hopen Hh) as (i & r_in & Hin & ?).
      exists i, r_in. split; [by apply lookup_app_l_Some|done].
Qed.

Lemma loop_trades_so_far rows : forall done_ s s',
  trades_so_far done_ s -> loop rows s = Ret s' ->
  trades_so_far (done_ ++ rows) s'.
Proof.
  induction rows as [|r rows IH]; intros done_ s s' Hinv H; simpl in H.
  - injection H as <-. by rewrite app_nil_r.
  - destruct (step r s) as [s1|e] eqn:E; simpl in H; [|done].
    rewrite cons_middle, app_assoc. eapply IH; [|exact H].
    by eapply step_trades_so_far.
Qed.

(** X15.  Every trade of a report was bought at the close of a bar with
    an entry signal and sold either at the close of a later bar with an
    exit signal or, for the position still open at the end, at the close
    of the last bar; its dates and prices are those of the two bars and its
    profit is the difference of the closes.  The trades are listed in
    order and do not overlap: each is bought no earlier than the bar on
    which the one before was sold. *)
Theorem trades_follow_the_signals (rows : list row) (capital : Q)
    (rep : report) :
  simulate rows capital = Ret rep ->
  exists spans,
    Forall2 (fun span t => signal_trade rows span t \/ final_trade rows span t)
      spans (report_trades rep) /\
    in_sequence 0 spans.
Proof.
  unfold simulate. intros H.
  destruct (loop rows (init capital)) as [s|e] eqn:E; simpl in H; [|done].
  destruct (close_final rows s) as [s'|e] eqn:E'; simpl in H; [|done].
  apply performance_fields in H as (_ & -> & _).
  assert (Hinv : trades_so_far rows s).
  { apply (loop_trades_so_far rows [] (init capital)); [|done].
    exists []. by repeat split. }
  destruct Hinv as (spans & HF & Hseq & Hfr & Hopen).
  unfold close_final in E'. destruct (holding s) eqn:Hh.
  - destruct (Hopen eq_refl) as (i & r_in & Hin & Hen & Hdate & Hprice & Hfi).
    destruct (last rows) as [rl|] eqn:El; [|done].
    unfold sell in E'. rewrite Hdate, Hprice in E'. injection E' as <-. simpl.
    assert (Hi : (i < length rows)%nat) by (by eapply lookup_lt_Some).
    assert (Hl : rows !! (length rows - 1)%nat = Some rl).
    { rewrite last_lookup in El. by replace (length rows - 1)%nat
        with (pred (length rows)) by lia. }
    exists (spans ++ [(i, length rows - 1)%nat]). split.
    + apply Forall2_app.
      * eapply Forall2_impl; [exact HF|]. by left.
      * constructor; [|constructor]. right. split.
        { unfold trade_of. simpl. rewrite Hin. simpl. by rewrite Hl. }
        simpl. split; [lia|]. split; [lia|]. by exists r_in.
    + apply in_sequence_snoc. simpl. split; [done|]. lia.
  - injection E' as <-. exists spans. split; [|done].
    eapply Forall2_impl; [exact HF|]. by left.
Qed.


(** X16.  The final equity of a report equals the last point of its
    equity curve (closing the open position at the last close realizes the
    mark-to-market value of the last bar); on empty data the curve is
    empty and the final equity is the initial capital. *)
Theorem final_equity_ends_the_curve (rows : list row) (capital : Q)
    (rep : report) :
  simulate rows capital = Ret rep ->
  match last (report_equity_curve rep) with
  | Some value => final_equity rep == value
  | None => rows = [] /\ final_equity rep = capital
  end.
Proof.
  unfold simulate. intros H.
  destruct (loop rows (init capital)) as [s|e] eqn:E; simpl in H; [|done].
  destruct (close_final rows s) as [s'|e] eqn:E'; simpl in H; [|done].
  apply performance_fields in H as (-> & _ & -> & _).
  rewrite (close_final_curve _ _ _ E').
  destruct rows as [|r rows _] using rev_ind.
  - simpl in E. injection E as <-. simpl in *. by injection E' as <-.
  - rewrite loop_app in E.
    destruct (loop rows (init capital)) as [s1|e] eqn:E1; simpl in E; [|done].
    destruct (step r s1) as [s2|e] eqn:E2; simpl in E; [|done].
    injection E as ->.
    apply step_curve in E2 as (s3 & _ & Hc & Hh & Heq & Hp & _).
    rewrite Hc, last_snoc. unfold close_final in E'.
    rewrite last_snoc in E'. unfold current_value. rewrite <- Hh, <- Heq, <- Hp.
    destruct (holding s).
    + unfold sell in E'. destruct (entry_date s); [|done].
      injection E' as <-. simpl. reflexivity.
    + injection E' as <-. ring.
Qed.

Lemma step_trade_count r s s' :
  step r s = Ret s' ->
  (length (trades s') + (if holding s' then 1 else 0)
   <= length (trades s) + (if holding s then 1 else 0)
      + (if entry_signal r then 1 else 0))%nat /\
  (length (trades s')
   <= length (trades s) + (if exit_signal r then 1 else 0))%nat.
Proof.
  intros H. apply step_curve in H as (s2 & E & _ & -> & _ & _ & _ & ->).
  unfold exit_branch, sell in E.
  destruct (exit_signal r) eqn:Hx, (holding s) eqn:Hh; simpl in E.
  - destruct (entry_date s); simpl in E; [|done].
    unfold entry_branch in E. simpl in E.
    destruct (entry_signal r); simpl in E; injection E as <-; simpl;
      rewrite length_app; simpl; lia.
  - unfold entry_branch in E. rewrite Hh in E.
    destruct (entry_signal r); simpl in E; injection E as <-; simpl;
      rewrite ?Hh; lia.
  - unfold entry_branch in E. rewrite Hh, andb_false_r in E.
    injection E as <-. rewrite Hh. destruct (entry_signal r); lia.
  - unfold entry_branch in E. rewrite Hh in E.
    destruct (entry_signal r); simpl in E; injection E as <-; simpl;
      rewrite ?Hh; lia.
Qed.

Lemma loop_trade_count rows : forall s s',
  loop rows s = Ret s' ->
  (length (trades s') + (if holding s' then 1 else 0)
   <= length (trades s) + (if holding s then 1 else 0)
      + length (filter (fun r => entry_signal r = true) rows))%nat /\
  (length (trades s')
   <= length (trades s)
      + length (filter (fun r => exit_signal r = true) rows))%nat.
Proof.
  induction rows as [|r rows IH]; intros s s' H; simpl in H.
  - injection H as <-. simpl. lia.
  - destruct (step r s) as [s1|e] eqn:E; simpl in H; [|done].
    apply step_trade_count in E as [H1 H2]. apply IH in H as [H3 H4].
    rewrite !filter_cons.
    destruct (entry_signal r), (exit_signal r); simpl in *;
      repeat case_decide; try done; simpl; lia.
Qed.

(** X17.  A report never lists more trades than there are bars with an
    entry signal, more than one beyond the bars with an exit signal, or
    more than there are bars. *)
Theorem trade_count_bounds (rows : list row) (capital : Q) (rep : report) :
  simulate rows capital = Ret rep ->
  (num_trades rep <= length (filter (fun r => entry_signal r = true) rows))%nat /\
  (num_trades rep
   <= S (length (filter (fun r => exit_signal r = true) rows)))%nat /\
  (num_trades rep <= length rows)%nat.
Proof.
  unfold simulate. intros H.
  destruct (loop rows (init capital)) as [s|e] eqn:E; simpl in H; [|done].
  destruct (close_final rows s) as [s'|e] eqn:E'; simpl in H; [|done].
  apply performance_fields in H as (_ & _ & _ & _ & -> & _).
  apply loop_trade_count in E as [H1 H2]. simpl in H1, H2.
  pose proof (length_filter (fun r => entry_signal r = true) rows) as H3.
  unfold close_final, sell in E'. destruct (holding s).
  - destruct (last rows); [|done]. destruct (entry_date s); [|done].
    injection E' as <-. simpl. rewrite length_app. simpl. lia.
  - injection E' as <-. lia.
Qed.

End SimulationTrades.

(* --------------------------------------------------------------------- *)
(** ** The indicator library *)
(* --------------------------------------------------------------------- *)

Section IndicatorFacts.

Import Series Indicators.
Local Open Scope Q_scope.

Lemma rolling_mean_length size xs : length (rolling_mean size xs) = length xs.
Proof. unfold rolling_mean. apply length_imap. Qed.

Lemma rolling_mean_lookup size xs i :
  rolling_mean size xs !! i =
    (fun _ => if (size <=? S i)%nat
              then ws ← mapM id (window size i xs); Some (mean ws)
              else None) <$> xs !! i.
Proof. unfold rolling_mean. by rewrite list_lookup_imap. Qed.

Lemma mapM_id_fmap (ws' : list (option Q)) ws :
  mapM id ws' = Some ws -> ws' = Some <$> ws.
Proof.
  intros H. symmetry. eapply mapM_fmap_Some_inv; [exact H|].
  intros x y Hx. by rewrite <- Hx.
Qed.

Lemma window_has_nan size i xs :
  (size <= S i)%nat ->
  (None ∈ window size i xs <->
   exists j, (S i - size <= j)%nat /\ (j <= i)%nat /\ xs !! j = Some None).
Proof.
  intros Hs. unfold window. rewrite elem_of_take. split.
  - intros (k & Hk & Hlt). rewrite lookup_drop in Hk.
    exists (S i - size + k)%nat. split; [lia|]. split; [lia|done].
  - intros (j & H1 & H2 & Hj). exists (j - (S i - size))%nat.
    rewrite lookup_drop. split; [|lia].
    by replace (S i - size + (j - (S i - size)))%nat with j by lia.
Qed.

(** X19.  A value of [sma(series, period)] is NaN exactly when its window
    is not complete (fewer than [int(period)] rows so far) or holds a NaN:
    a NaN of the series blanks the averages of the [int(period)] rows from
    it on, and no other. *)
Theorem sma_nan_on_short_or_gapped_window (series : list (option Q))
    (period : Q) (out : list (option Q)) :
  sma series period = Ret out ->
  forall i, (i < length series)%nat ->
    out !! i = Some None <->
    (S i < Z.to_nat (int period))%nat \/
    exists j, (S i - Z.to_nat (int period) <= j)%nat /\ (j <= i)%nat /\
              series !! j = Some None.
Proof.
  unfold sma. destruct (int period <=? 0)%Z eqn:Ep; [done|].
  intros [= <-] i Hi. rewrite rolling_mean_lookup.
  destruct (lookup_lt_is_Some_2 series i Hi) as [x ->]. simpl.
  destruct (Z.to_nat (int period) <=? S i)%nat eqn:Ew.
  - apply Nat.leb_le in Ew.
    rewrite <- (window_has_nan _ _ _ Ew).
    destruct (mapM id (window (Z.to_nat (int period)) i series)) as [ws|] eqn:Em;
      simpl.
    + split; [done|]. intros [H|H]; [lia|].
      apply mapM_id_fmap in Em. rewrite Em in H.
      by apply list_elem_of_fmap in H as (? & ? & _).
    + split; [|done]. intros _. right.
      apply mapM_None_1, Exists_exists in Em as ([y|] & Hin & Hy); [done|done].
  - apply Nat.leb_gt in Ew. split; [|done]. intros _. by left.
Qed.

(** X18.  [sma(series, period)] raises [ValueError] exactly when the
    integer part of [period] is not positive (a period of 0.5 among them);
    otherwise it returns a series of the length of its input whose first
    [int(period) - 1] values are NaN. *)
Theorem sma_period_and_warm_up (series : list (option Q)) (period : Q) :
  if (int period <=? 0)%Z
  then sma series period = Raise ValueError
  else exists out,
      sma series period = Ret out /\
      length out = length series /\
      forall i, (i < length series)%nat ->
        (S i < Z.to_nat (int period))%nat -> out !! i = Some None.
Proof.
  unfold sma. destruct (int period <=? 0)%Z; [done|].
  eexists. split; [reflexivity|]. split; [apply rolling_mean_length|].
  intros i Hi Hw. rewrite rolling_mean_lookup.
  destruct (lookup_lt_is_Some_2 series i Hi) as [x ->]. simpl.
  destruct (Z.to_nat (int period) <=? S i)%nat eqn:E; [|done].
  apply Nat.leb_le in E. lia.
Qed.


Lemma ewm_from_length decay mp xs : forall seen num den,
  length (ewm_from decay mp xs seen num den) = length xs.
Proof. induction xs as [|x xs IH]; intros; simpl; [done|]. by rewrite IH. Qed.

Lemma ewm_from_warm_up decay mp xs : forall seen num den i,
  (i < length xs)%nat -> (S (seen + i) < mp)%nat ->
  ewm_from decay mp xs seen num den !! i = Some None.
Proof.
  induction xs as [|x xs IH]; intros seen num den i Hi Hw;
    [simpl in Hi; lia|].
  destruct i as [|i]; simpl.
  - destruct (mp <=? S seen)%nat eqn:E; [|done]. apply Nat.leb_le in E. lia.
  - apply IH; [simpl in Hi; lia|lia].
Qed.

Lemma ewm_from_nonneg decay mp xs : forall seen num den,
  0 <= decay -> 0 <= num -> 0 <= den -> Forall (fun x => 0 <= x) xs ->
  Forall (fun o => forall v, o = Some v -> 0 <= v)
    (ewm_from decay mp xs seen num den).
Proof.
  induction xs as [|x xs IH]; intros seen num den Hd Hn Hden Hxs; simpl;
    [constructor|].
  apply Forall_cons in Hxs as [Hx Hxs].
  assert (H1 : 0 <= decay * num) by (apply Qmult_le_0_compat; lra).
  assert (H2 : 0 <= decay * den) by (apply Qmult_le_0_compat; lra).
  constructor.
  - intros v. destruct (mp <=? S seen)%nat; [|done]. intros [= <-].
    apply Qle_shift_div_l; lra.
  - apply IH; lra || done.
Qed.

Lemma where_or_zero_positive xs :
  Forall (fun x => 0 <= x) (where_or_zero (fun d => Pandas.Qlt_bool 0 d) xs).
Proof.
  unfold where_or_zero. apply Forall_forall. intros y Hy.
  apply list_elem_of_In, in_map_iff in Hy as (o & <- & _).
  destruct o as [x|]; [|lra].
  destruct (Pandas.Qlt_bool 0 x) eqn:E; [|lra]. apply Qlt_bool_iff in E. lra.
Qed.

Lemma where_or_zero_negative xs :
  Forall (fun x => 0 <= x)
    (Qopp <$> where_or_zero (fun d => Pandas.Qlt_bool d 0) xs).
Proof.
  apply Forall_fmap, Forall_forall. intros y Hy. simpl.
  apply list_elem_of_In, in_map_iff in Hy as (o & <- & _).
  destruct o as [x|]; [|lra].
  destruct (Pandas.Qlt_bool x 0) eqn:E; [|lra]. apply Qlt_bool_iff in E. lra.
Qed.

Lemma decay_nonneg (period : Z) :
  (0 < period)%Z -> 0 <= 1 - 1 / (1 + (inject_Z period - 1)).
Proof.
  intros Hp. assert (H1 : 1 <= inject_Z period).
  { rewrite <- (Zle_Qle 1). lia. }
  assert (H : 1 / (1 + (inject_Z period - 1)) <= 1).
  { apply Qle_shift_div_r; lra. }
  lra.
Qed.

Lemma rsi_cell_range g l :
  (forall v, g = Some v -> 0 <= v) -> (forall v, l = Some v -> 0 <= v) ->
  nan_or_within 0 100 (rsub 100 (rtruediv 100 (radd 1 (div g l)))).
Proof.
  intros Hg Hl. destruct g as [x|], l as [y|]; simpl; try done.
  specialize (Hg x eq_refl). specialize (Hl y eq_refl).
  unfold quotient. destruct (Qeq_bool y 0) eqn:Ey.
  - destruct (Qeq_bool x 0); simpl; [done|lra].
  - apply Qeq_bool_neq in Ey.
    assert (Hy : 0 < y) by lra.
    assert (Hr : 0 <= x / y) by (apply Qle_shift_div_l; lra).
    simpl. unfold quotient. destruct (Qeq_bool (1 + x / y) 0) eqn:E1.
    { apply Qeq_bool_iff in E1. lra. }
    simpl.
    assert (H1 : 0 <= 100 / (1 + x / y)) by (apply Qle_shift_div_l; lra).
    assert (H2 : 100 / (1 + x / y) <= 100) by (apply Qle_shift_div_r; lra).
    lra.
Qed.

(** X20.  [rsi(series, period)] raises [ValueError] exactly when the
    integer part of [period] is not positive; otherwise it returns a
    series of the length of its input, every value of which is NaN or a
    finite number between 0 and 100 (never an infinity, although the
    average loss it divides by can be 0), the first [int(period) - 1]
    values being NaN. *)
Theorem rsi_between_0_and_100 (series : list (option Q)) (period : Q) :
  if (int period <=? 0)%Z
  then rsi series period = Raise ValueError
  else exists out,
      rsi series period = Ret out /\
      length out = length series /\
      Forall (nan_or_within 0 100) out /\
      forall i, (i < length series)%nat ->
        (S i < Z.to_nat (int period))%nat -> out !! i = Some NaN.
Proof.
  unfold rsi. destruct (int period <=? 0)%Z eqn:Ep; [done|].
  apply Z.leb_gt in Ep. eexists. split; [reflexivity|].
  set (delta := diff series).
  assert (Hdl : length delta = length series).
  { unfold delta, diff. rewrite length_zip_with, shift1_length. lia. }
  set (gain := where_or_zero _ delta).
  set (loss := Qopp <$> where_or_zero _ delta).
  assert (Hgl : length gain = length series).
  { unfold gain, where_or_zero. by rewrite length_map. }
  assert (Hll : length loss = length series).
  { unfold loss, where_or_zero. by rewrite length_fmap, length_map. }
  unfold ewm_mean.
  set (decay := 1 - 1 / (1 + (inject_Z (int period) - 1))).
  assert (Hd : 0 <= decay) by (by apply decay_nonneg).
  set (ag := ewm_from decay _ gain 0 0 0).
  set (al := ewm_from decay _ loss 0 0 0).
  assert (Hag : Forall (fun o => forall v, o = Some v -> 0 <= v) ag).
  { apply ewm_from_nonneg; try lra; try done. apply where_or_zero_positive. }
  assert (Hal : Forall (fun o => forall v, o = Some v -> 0 <= v) al).
  { apply ewm_from_nonneg; try lra; try done. apply where_or_zero_negative. }
  assert (Hagl : length ag = length series).
  { unfold ag. by rewrite ewm_from_length. }
  assert (Hall : length al = length series).
  { unfold al. by rewrite ewm_from_length. }
  split; [|split].
  - rewrite length_fmap, length_zip_with. lia.
  - apply Forall_fmap, Forall_forall. intros r Hr.
    apply list_elem_of_lookup_1 in Hr as [i Hi].
    rewrite lookup_zip_with in Hi.
    destruct (ag !! i) as [g|] eqn:Eg; simpl in Hi; [|done].
    destruct (al !! i) as [l|] eqn:El; simpl in Hi; [|done].
    injection Hi as <-. simpl. apply rsi_cell_range.
    + rewrite Forall_forall in Hag. eapply Hag, list_elem_of_lookup_2, Eg.
    + rewrite Forall_forall in Hal. eapply Hal, list_elem_of_lookup_2, El.
  - intros i Hi Hw. rewrite list_lookup_fmap, lookup_zip_with.
    unfold ag, al.
    rewrite !ewm_from_warm_up by (simpl; lia). done.
Qed.


Lemma diff_lookup_0 xs d : diff xs !! 0%nat = Some d -> d = None.
Proof.
  unfold diff. rewrite lookup_zip_with. intros H.
  destruct (xs !! 0%nat) as [a|]; simpl in H; [|done].
  destruct (Pandas.shift1 xs !! 0%nat) as [b|] eqn:Eb; simpl in H; [|done].
  apply shift1_lookup_0 in Eb as ->. injection H as <-. by destruct a.
Qed.

Lemma diff_lookup_S (xs : list Q) i x y :
  xs !! i = Some x -> xs !! S i = Some y ->
  diff (Some <$> xs) !! S i = Some (Some (y - x)).
Proof.
  intros Hx Hy. unfold diff. rewrite lookup_zip_with.
  assert (H : (Some <$> xs) !! S i = Some (Some y))
    by (by rewrite list_lookup_fmap, Hy).
  rewrite (shift1_lookup_S _ _ _ H), H, list_lookup_fmap, Hx. done.
Qed.

Lemma ewm_from_zero decay mp xs : forall seen num den,
  0 <= decay -> num == 0 -> 0 <= den -> Forall (fun x => x == 0) xs ->
  Forall (fun o => forall v, o = Some v -> v == 0)
    (ewm_from decay mp xs seen num den).
Proof.
  induction xs as [|x xs IH]; intros seen num den Hd Hn Hden Hxs; simpl;
    [constructor|].
  apply Forall_cons in Hxs as [Hx Hxs].
  assert (H2 : 0 <= decay * den) by (apply Qmult_le_0_compat; lra).
  assert (H1 : x + decay * num == 0) by (rewrite Hx, Hn; ring).
  constructor.
  - intros v. destruct (mp <=? S seen)%nat; [|done]. intros [= <-].
    rewrite H1. unfold Qdiv. ring.
  - apply IH; lra || done.
Qed.

Lemma ewm_from_positive decay mp xs : forall seen num den i x,
  0 <= decay -> 0 <= num -> 0 <= den -> Forall (fun x => 0 <= x) xs ->
  xs !! i = Some x -> 0 < x -> (mp <= S (seen + i))%nat ->
  exists v, ewm_from decay mp xs seen num den !! i = Some (Some v) /\ 0 < v.
Proof.
  induction xs as [|x0 xs IH]; intros seen num den i x Hd Hn Hden Hxs Hi Hx Hmp;
    [done|].
  apply Forall_cons in Hxs as [Hx0 Hxs].
  assert (H1 : 0 <= decay * num) by (apply Qmult_le_0_compat; lra).
  assert (H2 : 0 <= decay * den) by (apply Qmult_le_0_compat; lra).
  destruct i as [|i]; simpl in *.
  - injection Hi as ->.
    destruct (mp <=? S seen)%nat eqn:E; [|apply Nat.leb_gt in E; lia].
    eexists. split; [reflexivity|]. apply Qlt_shift_div_l; lra.
  - apply (IH (S seen) _ _ i x); try done; try lra. lia.
Qed.

Lemma ewm_from_defined decay mp xs : forall seen num den i,
  (i < length xs)%nat -> (mp <= S (seen + i))%nat ->
  exists v, ewm_from decay mp xs seen num den !! i = Some (Some v).
Proof.
  induction xs as [|x xs IH]; intros seen num den i Hi Hw;
    [simpl in Hi; lia|].
  destruct i as [|i]; simpl.
  - destruct (mp <=? S seen)%nat eqn:E; [by eexists|].
    apply Nat.leb_gt in E. lia.
  - apply IH; [simpl in Hi; lia|lia].
Qed.

Lemma never_falls_lookup xs : forall i x y,
  never_falls xs -> xs !! i = Some x -> xs !! S i = Some y -> x <= y.
Proof.
  induction xs as [|x0 xs IH]; intros i x y Hn Hx Hy; [done|].
  destruct xs as [|y0 xs]; [done|]. destruct Hn as [H0 Hn].
  destruct i as [|i]; simpl in *.
  - injection Hx as <-. by injection Hy as <-.
  - by apply (IH i).
Qed.

Lemma no_losses xs :
  never_falls xs ->
  Forall (fun x => x == 0)
    (Qopp <$> where_or_zero (fun d => Pandas.Qlt_bool d 0) (diff (Some <$> xs))).
Proof.
  intros Hn. apply Forall_fmap, Forall_forall. intros q Hq. simpl.
  apply list_elem_of_lookup_1 in Hq as [i Hi].
  unfold where_or_zero in Hi.
  change (map ?f ?l) with (f <$> l) in Hi. rewrite list_lookup_fmap in Hi.
  destruct (diff (Some <$> xs) !! i) as [d|] eqn:Ed; simpl in Hi; [|done].
  injection Hi as <-. destruct d as [d|]; [|lra].
  destruct (Pandas.Qlt_bool d 0) eqn:E; [|lra].
  apply Qlt_bool_iff in E. destruct i as [|i].
  { by apply diff_lookup_0 in Ed. }
  pose proof (lookup_lt_Some _ _ _ Ed) as Hlt.
  unfold diff in Hlt. rewrite length_zip_with, shift1_length, length_fmap in Hlt.
  destruct (lookup_lt_is_Some_2 xs (S i)) as [y Hy]; [lia|].
  destruct (lookup_lt_is_Some_2 xs i) as [x Hx]; [lia|].
  rewrite (diff_lookup_S _ _ _ _ Hx Hy) in Ed. injection Ed as <-.
  pose proof (never_falls_lookup _ _ _ _ Hn Hx Hy). lra.
Qed.

(** X21.  On a series without NaN that never falls, from the row at which
    [period] values have been seen on: the RSI is 100 on every row on
    which the series has risen (the average loss is 0 and the division
    gives an infinity), and it is NaN on every row of a series that is
    constant throughout (0 divided by 0). *)
Theorem rsi_without_losses (xs : list Q) (period : Q) :
  (0 < int period)%Z ->
  never_falls xs ->
  exists out,
    rsi (Some <$> xs) period = Ret out /\
    forall i x y,
      xs !! i = Some x -> xs !! S i = Some y ->
      (Z.to_nat (int period) <= S (S i))%nat ->
      if Pandas.Qlt_bool x y
      then exists v, out !! S i = Some (Finite v) /\ v == 100
      else (forall j z, xs !! j = Some z -> z == x) -> out !! S i = Some NaN.
Proof.
  intros Hp Hn. unfold rsi.
  destruct (int period <=? 0)%Z eqn:Ep; [apply Z.leb_le in Ep; lia|].
  eexists. split; [reflexivity|].
  intros i x y Hx Hy Hw.
  set (delta := diff (Some <$> xs)).
  set (gain := where_or_zero _ delta).
  set (loss := Qopp <$> where_or_zero _ delta).
  unfold ewm_mean.
  set (decay := 1 - 1 / (1 + (inject_Z (int period) - 1))).
  assert (Hd : 0 <= decay) by (by apply decay_nonneg).
  assert (Hloss : Forall (fun x => x == 0) loss) by (by apply no_losses).
  pose proof (ewm_from_zero decay (Z.to_nat (int period)) loss 0 0 0 Hd
                ltac:(reflexivity) ltac:(lra) Hloss) as Hal.
  assert (Hdelta : delta !! S i = Some (Some (y - x)))
    by (by apply diff_lookup_S).
  assert (Hlen : (S i < length loss)%nat).
  { unfold loss, where_or_zero. rewrite length_fmap, length_map.
    by eapply lookup_lt_Some. }
  destruct (lookup_lt_is_Some_2 (ewm_from decay (Z.to_nat (int period)) loss 0 0 0)
              (S i)) as [l Hl]; [by rewrite ewm_from_length|].
  assert (Hl0 : forall v, l = Some v -> v == 0).
  { rewrite Forall_forall in Hal. eapply Hal, list_elem_of_lookup_2, Hl. }
  destruct l as [l|].
  2:{ destruct (ewm_from_defined decay (Z.to_nat (int period)) loss 0 0 0
                  (S i)) as [v Hv]; [done|lia|].
      rewrite Hv in Hl. done. }
  specialize (Hl0 l eq_refl).
  rewrite list_lookup_fmap, lookup_zip_with, Hl.
  destruct (Pandas.Qlt_bool x y) eqn:Exy.
  - apply Qlt_bool_iff in Exy.
    assert (Hg : gain !! S i = Some (y - x)).
    { unfold gain, where_or_zero. change (map ?f ?l) with (f <$> l).
      rewrite list_lookup_fmap, Hdelta. simpl.
      destruct (Pandas.Qlt_bool 0 (y - x)) eqn:E; [done|].
      apply Qlt_bool_false in E. lra. }
    destruct (ewm_from_positive decay (Z.to_nat (int period)) gain 0 0 0
                (S i) (y - x) Hd ltac:(lra) ltac:(lra)
                (where_or_zero_positive delta) Hg ltac:(lra) ltac:(lia))
      as (g & -> & Hgpos).
    simpl. unfold quotient. rewrite (proj2 (Qeq_bool_iff l 0) Hl0).
    destruct (Qeq_bool g 0) eqn:Eg; [apply Qeq_bool_iff in Eg; lra|].
    simpl. eexists. split; [reflexivity|]. ring.
  - intros Hconst.
    assert (Hgain : Forall (fun x => x == 0) gain).
    { apply Forall_forall. intros q Hq.
      apply list_elem_of_lookup_1 in Hq as [j Hj].
      unfold gain, where_or_zero in Hj.
      change (map ?f ?l) with (f <$> l) in Hj. rewrite list_lookup_fmap in Hj.
      destruct (delta !! j) as [d|] eqn:Ed; simpl in Hj; [|done].
      injection Hj as <-. destruct d as [d|]; [|lra].
      destruct (Pandas.Qlt_bool 0 d) eqn:E; [|lra].
      apply Qlt_bool_iff in E. destruct j as [|j].
      { by apply diff_lookup_0 in Ed. }
      pose proof (lookup_lt_Some _ _ _ Ed) as Hlt.
      unfold delta, diff in Hlt.
      rewrite length_zip_with, shift1_length, length_fmap in Hlt.
      destruct (lookup_lt_is_Some_2 xs (S j)) as [y' Hy']; [lia|].
      destruct (lookup_lt_is_Some_2 xs j) as [x' Hx']; [lia|].
      unfold delta in Ed. rewrite (diff_lookup_S _ _ _ _ Hx' Hy') in Ed.
      injection Ed as <-.
      pose proof (Hconst _ _ Hx'). pose proof (Hconst _ _ Hy'). lra. }
    pose proof (ewm_from_zero decay (Z.to_nat (int period)) gain 0 0 0 Hd
                  ltac:(reflexivity) ltac:(lra) Hgain) as Hag.
    destruct (lookup_lt_is_Some_2
                (ewm_from decay (Z.to_nat (int period)) gain 0 0 0) (S i))
      as [g Hg].
    { rewrite ewm_from_length. unfold gain, where_or_zero.
      rewrite length_map. by eapply lookup_lt_Some. }
    rewrite Hg. simpl. destruct g as [g|]; [|done].
    assert (Hg0 : g == 0).
    { rewrite Forall_forall in Hag.
      eapply Hag; [eapply list_elem_of_lookup_2, Hg|done]. }
    simpl. unfold quotient. rewrite (proj2 (Qeq_bool_iff l 0) Hl0).
    by rewrite (proj2 (Qeq_bool_iff g 0) Hg0).
Qed.

End IndicatorFacts.

(* --------------------------------------------------------------------- *)
(** ** The further properties on concrete inputs *)
(* --------------------------------------------------------------------- *)

(** X2 on the text of [demo.py]. *)
Lemma parsed_tree_shape_witness :
  Parser.parse Texts.demo = Ret Examples.demo_tree /\
  exists rules,
    Examples.demo_tree = Strategy rules /\ rules <> [] /\
    Forall parsed_rule rules /\ upper_names Examples.demo_tree.
Proof.
  split; [vm_compute; reflexivity|].
  apply (parsed_tree_shape Texts.demo). vm_compute; reflexivity.
Defined.

(** X4 on the text of [demo.py]. *)
Lemma generation_of_parsed_tree_witness :
  Parser.parse Texts.demo = Ret Examples.demo_tree /\
  exists rules,
    Examples.demo_tree = Strategy rules /\
    match PandasCodeGenerator.generate str_float Examples.demo_tree with
    | Ret _ => Forall visitable (omap rule_condition rules)
    | Raise e => e = AttributeError
    end.
Proof.
  split; [vm_compute; reflexivity|].
  apply (generation_of_parsed_tree str_float Texts.demo).
  vm_compute; reflexivity.
Defined.

(** X5 on the frame with [left = [1,3,2,5]] and [right = [2,2,3,3]]: the
    left series crosses under the right one on the third bar. *)
Lemma crossunder_signal_witness :
  Examples.crossover_frame !! "left" = Some (Some <$> [1; 3; 2; 5]%Q) /\
  Examples.crossover_frame !! "right" = Some (Some <$> [2; 2; 3; 3]%Q) /\
  signal_of str_float Examples.crossover_frame
      (CrossUnder (Identifier "left") (Identifier "right"))
    = Ret (Pandas.VMask [false; false; true; false]) /\
  exists bs,
    signal_of str_float Examples.crossover_frame
        (CrossUnder (Identifier "left") (Identifier "right"))
      = Ret (Pandas.VMask bs) /\
    length bs = 4%nat /\
    (forall b, bs !! 0%nat = Some b -> b = false).
Proof.
  split; [reflexivity|]. split; [reflexivity|].
  split; [vm_compute; reflexivity|].
  destruct (crossunder_signal str_float Examples.crossover_frame
              "left" "right" (Some <$> [1; 3; 2; 5]%Q)
              (Some <$> [2; 2; 3; 3]%Q))
    as (bs & H1 & H2 & H3 & _); [reflexivity..|].
  exists bs. split; [exact H1|]. split; [exact H2|exact H3].
Defined.

(** X7 on the same frame. *)
Lemma crossover_crossunder_exclusive_witness :
  signal_of str_float Examples.crossover_frame
      (CrossOver (Identifier "left") (Identifier "right"))
    = Ret (Pandas.VMask [false; true; false; true]) /\
  signal_of str_float Examples.crossover_frame
      (CrossUnder (Identifier "left") (Identifier "right"))
    = Ret (Pandas.VMask [false; false; true; false]) /\
  exists bs1 bs2,
    Pandas.VMask [false; true; false; true] = Pandas.VMask bs1 /\
    Pandas.VMask [false; false; true; false] = Pandas.VMask bs2 /\
    length bs1 = length bs2 /\
    forall i, ~ (bs1 !! i = Some true /\ bs2 !! i = Some true).
Proof.
  split; [vm_compute; reflexivity|]. split; [vm_compute; reflexivity|].
  apply (crossover_crossunder_exclusive str_float Examples.crossover_frame
           (Identifier "left") (Identifier "right"));
    vm_compute; reflexivity.
Defined.

(** X9 on the column [left = [1,3,2,5]] and the operator [>]. *)
Lemma comparison_signal_witness :
  Examples.crossover_frame !! "left" = Some (Some <$> [1; 3; 2; 5]%Q) /\
  ">" ∈ [">"; "<"; ">="; "<="; "=="] /\
  signal_of str_float Examples.crossover_frame Examples.left_above_2
    = Ret (Pandas.VMask [false; true; false; true]) /\
  exists bs,
    signal_of str_float Examples.crossover_frame
        (Comparison ">" (Identifier "left") (Number 2))
      = Ret (Pandas.VMask bs) /\
    length bs = 4%nat.
Proof.
  split; [reflexivity|]. split; [constructor|].
  split; [vm_compute; reflexivity|].
  destruct (proj1 (comparison_signal str_float Examples.crossover_frame
                     "left" (Some <$> [1; 3; 2; 5]%Q) ">"
                     eq_refl ltac:(constructor)) 2%Q)
    as (bs & H1 & H2 & _).
  exists bs. split; [exact H1|exact H2].
Defined.

(** X10 on [left > 2 AND right < 3]. *)
Lemma logical_operation_signal_witness :
  Forall2 (fun c bs =>
             signal_of str_float Examples.crossover_frame c
               = Ret (Pandas.VMask bs))
    [Examples.left_above_2; Examples.right_below_3]
    [[false; true; false; true]; [true; true; false; false]] /\
  Forall (fun bs' => length bs' = 4%nat) [[true; true; false; false]] /\
  signal_of str_float Examples.crossover_frame
      (LogicalOperation "AND" [Examples.left_above_2; Examples.right_below_3])
    = Ret (Pandas.VMask [false; true; false; false]) /\
  exists mask,
    signal_of str_float Examples.crossover_frame
        (LogicalOperation "AND" [Examples.left_above_2; Examples.right_below_3])
      = Ret (Pandas.VMask mask) /\
    length mask = 4%nat.
Proof.
  assert (H : Forall2 (fun c bs =>
             signal_of str_float Examples.crossover_frame c
               = Ret (Pandas.VMask bs))
    [Examples.left_above_2; Examples.right_below_3]
    [[false; true; false; true]; [true; true; false; false]]).
  { constructor; [vm_compute; reflexivity|].
    constructor; [vm_compute; reflexivity|constructor]. }
  assert (Hl : Forall (fun bs' => length bs' = 4%nat)
                 [[true; true; false; false]])
    by (by repeat constructor).
  split; [exact H|]. split; [exact Hl|].
  split; [vm_compute; reflexivity|].
  destruct (logical_operation_signal str_float Examples.crossover_frame
              "AND" _ _ _ _ H Hl) as (mask & H1 & H2 & _).
  exists mask. split; [exact H1|exact H2].
Defined.

(** X11 on the five bars with closes 10, 11, 9, 12, 8. *)
Lemma equity_curve_one_per_bar_witness :
  exists rep,
    Backtest.simulate Examples.one_trade 10000 = Ret rep /\
    length (Backtest.report_equity_curve rep) = 5%nat.
Proof.
  eexists. split; [vm_compute; reflexivity|].
  apply (equity_curve_one_per_bar Examples.one_trade 10000).
  vm_compute; reflexivity.
Defined.

(** X12 on the same bars: one trade, lost. *)
Lemma win_rate_bounded_witness :
  exists rep,
    Backtest.simulate Examples.one_trade 10000 = Ret rep /\
    Backtest.num_trades rep = length (Backtest.report_trades rep) /\
    (Backtest.num_wins rep <= Backtest.num_trades rep)%nat /\
    (0 <= Backtest.win_rate rep)%Q /\ (Backtest.win_rate rep <= 100)%Q.
Proof.
  eexists. split; [vm_compute; reflexivity|].
  match goal with |- context [Backtest.num_wins ?r] =>
    destruct (win_rate_bounded Examples.one_trade 10000 r)
      as (H1 & H2 & H3 & H4 & _)
  end; [vm_compute; reflexivity|].
  split; [exact H1|]. split; [exact H2|]. split; [exact H3|exact H4].
Defined.

(** X13 on two bars without an entry signal. *)
Lemma no_entry_signal_no_trade_witness :
  (0 < 10000)%Q /\
  Forall (fun r => Backtest.entry_signal r = false) Examples.idle /\
  exists rep,
    Backtest.simulate Examples.idle 10000 = Ret rep /\
    Backtest.report_trades rep = [] /\
    Backtest.final_equity rep = 10000%Q.
Proof.
  assert (Hs : Forall (fun r => Backtest.entry_signal r = false) Examples.idle)
    by (by repeat constructor).
  split; [reflexivity|]. split; [exact Hs|].
  destruct (no_entry_signal_no_trade Examples.idle 10000 eq_refl Hs)
    as (rep & H1 & H2 & _ & H3 & _).
  exists rep. split; [exact H1|]. split; [exact H2|exact H3].
Defined.

(** X14 on a purchase at 60000 held to the last close of 45000. *)
Lemma held_to_the_last_bar_witness :
  (0 < 10000)%Q /\
  exists rep,
    Backtest.simulate Examples.overdrawn 10000 = Ret rep /\
    Backtest.report_trades rep
      = [Trade.Make "d0" "d1" 60000 45000 (45000 - 60000)%Q] /\
    Backtest.final_equity rep = (10000 + (45000 - 60000))%Q.
Proof.
  split; [reflexivity|].
  destruct (held_to_the_last_bar [] [Examples.bar "d1" 45000 false false]
              (Examples.bar "d0" 60000 true false) 10000)
    as (rep & rl & H1 & H2 & H3 & H4);
    [reflexivity|constructor|reflexivity|by repeat constructor|].
  injection H2 as <-.
  exists rep. split; [exact H1|]. split; [exact H3|exact H4].
Defined.

(** X15 on the five bars with closes 10, 11, 9, 12, 8: one trade, from
    bar 0 to bar 2. *)
Lemma trades_follow_the_signals_witness :
  exists rep,
    Backtest.simulate Examples.one_trade 10000 = Ret rep /\
    exists spans,
      Forall2 (fun span t => signal_trade Examples.one_trade span t \/
                             final_trade Examples.one_trade span t)
        spans (Backtest.report_trades rep) /\
      in_sequence 0 spans.
Proof.
  eexists. split; [vm_compute; reflexivity|].
  apply (trades_follow_the_signals Examples.one_trade 10000).
  vm_compute; reflexivity.
Defined.

(** X16 on the same bars. *)
Lemma final_equity_ends_the_curve_witness :
  exists rep,
    Backtest.simulate Examples.one_trade 10000 = Ret rep /\
    match last (Backtest.report_equity_curve rep) with
    | Some value => (Backtest.final_equity rep == value)%Q
    | None => Examples.one_trade = [] /\ Backtest.final_equity rep = 10000%Q
    end.
Proof.
  eexists. split; [vm_compute; reflexivity|].
  apply (final_equity_ends_the_curve Examples.one_trade 10000).
  vm_compute; reflexivity.
Defined.

(** X17 on the same bars: one entry signal, one exit signal, one trade. *)
Lemma trade_count_bounds_witness :
  exists rep,
    Backtest.simulate Examples.one_trade 10000 = Ret rep /\
    (Backtest.num_trades rep
     <= length (filter (fun r => Backtest.entry_signal r = true)
                  Examples.one_trade))%nat /\
    (Backtest.num_trades rep
     <= S (length (filter (fun r => Backtest.exit_signal r = true)
                     Examples.one_trade)))%nat /\
    (Backtest.num_trades rep <= length Examples.one_trade)%nat.
Proof.
  eexists. split; [vm_compute; reflexivity|].
  apply (trade_count_bounds Examples.one_trade 10000).
  vm_compute; reflexivity.
Defined.

(** X19 on [1, 3, NaN, 5, 4] with period 2: the average of the fourth
    row is NaN, for the NaN of the third row is in its window. *)
Lemma sma_nan_on_short_or_gapped_window_witness :
  Indicators.sma Examples.gapped 2
    = Ret [None; Some (4 # 2); None; None; Some (9 # 2)]%Q /\
  ([None; Some (4 # 2); None; None; Some (9 # 2)]%Q !! 3%nat
     = Some (@None Q) <->
   (4 < Z.to_nat (Indicators.int 2))%nat \/
   exists j, (4 - Z.to_nat (Indicators.int 2) <= j)%nat /\ (j <= 3)%nat /\
             Examples.gapped !! j = Some None).
Proof.
  split; [vm_compute; reflexivity|].
  apply (sma_nan_on_short_or_gapped_window Examples.gapped 2);
    [vm_compute; reflexivity|simpl; lia].
Defined.

(** X21 on [1, 2, 3] with period 2: the RSI of the last row is 100. *)
Lemma rsi_without_losses_witness :
  (0 < Indicators.int 2)%Z /\
  never_falls [1; 2; 3]%Q /\
  exists out,
    Indicators.rsi (Some <$> [1; 2; 3]%Q) 2 = Ret out /\
    exists v, out !! 2%nat = Some (Series.Finite v) /\ (v == 100)%Q.
Proof.
  assert (Hn : never_falls [1; 2; 3]%Q).
  { simpl. split; [lra|]. split; [lra|done]. }
  split; [reflexivity|]. split; [exact Hn|].
  destruct (rsi_without_losses [1; 2; 3]%Q 2 eq_refl Hn) as (out & H1 & H2).
  exists out. split; [exact H1|].
  exact (H2 1%nat 2%Q 3%Q eq_refl eq_refl ltac:(vm_compute; lia)).
Defined.

(** X22 on ["ENTRY: SMA(close, 20) > close"  "EXIT: SMA(close, 20) < close"]:
    the code reads [close] and the column [sma_close_20.0] it computes. *)
Lemma generated_code_reads_known_columns_witness :
  PandasCodeGenerator.generate str_float (Strategy Examples.sma20_rules)
    = Ret Examples.sma20_code /\
  Forall (known_column Examples.sma20_rules
            (indicators Examples.sma20_code))
    (columns_read (entry Examples.sma20_code)
       ++ columns_read (exit Examples.sma20_code)) /\
  Forall (fun st =>
            Forall (fun col =>
                      col ∈ identifiers (Strategy Examples.sma20_rules))
              (args st ≫= columns_read))
    (indicators Examples.sma20_code).
Proof.
  split; [vm_compute; reflexivity|].
  apply (generated_code_reads_known_columns str_float Examples.sma20_rules).
  vm_compute; reflexivity.
Defined.
